(** * Receipts logger: a shallow embedding of [src/lib/storage/receipts-logger.ts]

    The definitions come first, in layers.

    - [JS]: the ECMAScript built-ins the logger calls
      ([String.prototype.trim], [String.prototype.split],
      [Array.prototype.slice], [Array.prototype.filter]).
    - [JSON]: JSON values, [JSON.stringify] and [JSON.parse].
    - [Node]: the part of the Node.js runtime the logger touches: the file
      system ([fs.existsSync], [fs.mkdirSync], [fs.appendFileSync],
      [fs.readFileSync]), [console.error], exceptions and [try]/[catch].
    - [Receipt], [ErrorLog], [ReceiptsLogger]: the two interfaces and the
      class, method by method.
    - [Model], [Scenario], [Sessions]: the notions the properties are stated
      with, and the example of the specification.
    - [Number], [SystemSpecs], [Advice]: the second part of the source file,
      [calculateRecommendations] and [generateWarnings], over binary64
      Numbers, and the notions its properties are stated with.

    The facts follow: the JSON codec ([JSON.parse] inverts [JSON.stringify]),
    the text pipeline of the reads, the methods one by one, the
    recommendations; then the properties of the log store, C1 to C10, and
    the further properties, X1 to X16.

    Text is [String.string]; a character stands for one code unit in the range
    U+0000..U+00FF. *)

From Stdlib Require Import ZArith NArith Ascii String List Lia Decimal DecimalN.
From Stdlib Require Import Floats.
From stdpp Require Import gmap strings list fin_maps.

Local Open Scope Z_scope.
Set Warnings "-register-all".
Set Warnings "-inexact-float".

(** ** ECMAScript built-ins *)

Module JS.

(** The line feed, U+000A. *)
Definition LF : ascii := "010"%char.

(** [WhiteSpace] and [LineTerminator] code points (ECMA-262, 12.2 and 12.3)
    that lie in U+0000..U+00FF: TAB, LF, VT, FF, CR, SP and NBSP. *)
Definition isWhiteSpace (c : ascii) : bool :=
  match N_of_ascii c with
  | 9 | 10 | 11 | 12 | 13 | 32 | 160 => true
  | _ => false
  end%N.

(** [String.prototype.trimStart]. *)
Fixpoint trimStart (s : string) : string :=
  match s with
  | String c r => if isWhiteSpace c then trimStart r else s
  | EmptyString => EmptyString
  end.

(** [String.prototype.trimEnd]. *)
Fixpoint trimEnd (s : string) : string :=
  match s with
  | String c r =>
      match trimEnd r with
      | EmptyString => if isWhiteSpace c then EmptyString else String c EmptyString
      | r' => String c r'
      end
  | EmptyString => EmptyString
  end.

(** [String.prototype.trim]. *)
Definition trim (s : string) : string := trimEnd (trimStart s).

(** [s.split('\n')]: the substrings between line feeds; never empty, the
    empty string splits into one empty substring. *)
Fixpoint split_LF (s : string) : list string :=
  match s with
  | EmptyString => [EmptyString]
  | String c r =>
      if Ascii.eqb c LF then EmptyString :: split_LF r
      else match split_LF r with
           | h :: t => String c h :: t
           | [] => [String c EmptyString]
           end
  end.

(** [Array.prototype.filter] with a pure predicate. *)
Definition Array_filter {A} (p : A → bool) (l : list A) : list A := List.filter p l.

(** [Array.prototype.slice(start)] with an integral [start] and no [end]:
    a negative [start] counts from the end of the array, and the start index
    is clamped to [0 .. length]. *)
Definition Array_slice {A} (l : list A) (start : Z) : list A :=
  let len := Z.of_nat (length l) in
  let k := if start <? 0 then Z.max (len + start) 0 else Z.min start len in
  drop (Z.to_nat k) l.

(** Whether a line feed occurs in [s]. *)
Fixpoint has_LF (s : string) : bool :=
  match s with
  | EmptyString => false
  | String c r => Ascii.eqb c LF || has_LF r
  end.

(** [line.length > 0]. *)
Definition nonempty (line : string) : bool :=
  match line with EmptyString => false | String _ _ => true end.

End JS.

(** ** JSON *)

Module JSON.

(** A JSON value, as [JSON.parse] builds it and [JSON.stringify] reads it.
    An object lists its own properties in property order.  Numbers are the
    integers; a number literal with a fraction or an exponent lies outside the
    modelled fragment. *)
Inductive json : Type :=
| JNull
| JBool (b : bool)
| JNum (n : Z)
| JStr (s : string)
| JArr (xs : list json)
| JObj (props : list (string * json)).

Definition is_null (v : json) : bool :=
  match v with JNull => true | _ => false end.

(** *** JSON.stringify *)

Definition hex_digit (n : N) : ascii :=
  match n with
  | 0 => "0" | 1 => "1" | 2 => "2" | 3 => "3" | 4 => "4" | 5 => "5" | 6 => "6"
  | 7 => "7" | 8 => "8" | 9 => "9" | 10 => "a" | 11 => "b" | 12 => "c"
  | 13 => "d" | 14 => "e" | _ => "f"
  end%N%char.

(** The quotation mark, U+0022. *)
Definition DQ : ascii := "034"%char.

(** One code unit of [QuoteJSONString]: the two-character escapes, the
    [\u00XX] form for the other control characters, the character itself
    otherwise. *)
Definition quote_char (c : ascii) : string :=
  match N_of_ascii c with
  | 8 => "\b" | 9 => "\t" | 10 => "\n" | 12 => "\f" | 13 => "\r"
  | 34 => String "\" (String DQ "")
  | 92 => "\\"
  | n => if (n <? 32)%N
         then "\u00" +:+ String (hex_digit (n / 16)) (String (hex_digit (n mod 16)) "")
         else String c ""
  end%N.

Fixpoint quote_chars (s : string) : string :=
  match s with
  | EmptyString => EmptyString
  | String c r => quote_char c +:+ quote_chars r
  end.

(** [QuoteJSONString]. *)
Definition quote (s : string) : string :=
  String DQ (quote_chars s +:+ String DQ "").

Fixpoint string_of_uint (d : uint) : string :=
  match d with
  | Nil => ""
  | D0 d => String "0" (string_of_uint d)
  | D1 d => String "1" (string_of_uint d)
  | D2 d => String "2" (string_of_uint d)
  | D3 d => String "3" (string_of_uint d)
  | D4 d => String "4" (string_of_uint d)
  | D5 d => String "5" (string_of_uint d)
  | D6 d => String "6" (string_of_uint d)
  | D7 d => String "7" (string_of_uint d)
  | D8 d => String "8" (string_of_uint d)
  | D9 d => String "9" (string_of_uint d)
  end.

(** [Number::toString] on an integer: its decimal digits. *)
Definition string_of_N (n : N) : string := string_of_uint (N.to_uint n).

Definition string_of_Z (z : Z) : string :=
  if z <? 0 then String "-" (string_of_N (Z.abs_N z)) else string_of_N (Z.abs_N z).

(** [Array.prototype.join(",")]. *)
Fixpoint join_comma (parts : list string) : string :=
  match parts with
  | [] => ""
  | [p] => p
  | p :: ps => p +:+ "," +:+ join_comma ps
  end.

(** [JSON.stringify(value)] without replacer or indentation. *)
Fixpoint stringify (v : json) : string :=
  match v with
  | JNull => "null"
  | JBool true => "true"
  | JBool false => "false"
  | JNum n => string_of_Z n
  | JStr s => quote s
  | JArr xs => "[" +:+ join_comma (List.map stringify xs) +:+ "]"
  | JObj props =>
      "{" +:+ join_comma (List.map (λ kv, quote (fst kv) +:+ ":" +:+ stringify (snd kv)) props)
          +:+ "}"
  end.

(** *** Objects

    [JSON.parse] builds an object by [CreateDataProperty], member by member.
    An existing property keeps its place and takes the new value; a new
    property whose key is an array index goes among the array indices in
    ascending order, which come first; any other new property goes last
    ([OrdinaryOwnPropertyKeys]). *)

Definition digit_of (c : ascii) : option (uint → uint) :=
  match c with
  | "0" => Some D0 | "1" => Some D1 | "2" => Some D2 | "3" => Some D3
  | "4" => Some D4 | "5" => Some D5 | "6" => Some D6 | "7" => Some D7
  | "8" => Some D8 | "9" => Some D9 | _ => None
  end%char.

(** The longest prefix of decimal digits, and what follows it. *)
Fixpoint scan_digits (s : string) : uint * string :=
  match s with
  | String c r =>
      match digit_of c with
      | Some d => let (u, r') := scan_digits r in (d u, r')
      | None => (Nil, s)
      end
  | EmptyString => (Nil, EmptyString)
  end.

(** A property key is an array index when it is the canonical decimal form
    of an integer in [0 .. 2^32 - 2]. *)
Definition array_index (k : string) : option N :=
  match scan_digits k with
  | (u, EmptyString) =>
      let n := N.of_uint u in
      if String.eqb (string_of_N n) k && (n <? 4294967295)%N then Some n else None
  | _ => None
  end.

Fixpoint has_key (props : list (string * json)) (k : string) : bool :=
  match props with
  | [] => false
  | (k', _) :: rest => String.eqb k' k || has_key rest k
  end.

Fixpoint replace_value (props : list (string * json)) (k : string) (v : json) :=
  match props with
  | [] => []
  | (k', v') :: rest =>
      if String.eqb k' k then (k', v) :: rest else (k', v') :: replace_value rest k v
  end.

Fixpoint insert_index (props : list (string * json)) (i : N) (k : string) (v : json) :=
  match props with
  | [] => [(k, v)]
  | (k', v') :: rest =>
      match array_index k' with
      | Some j => if (j <? i)%N then (k', v') :: insert_index rest i k v
                  else (k, v) :: props
      | None => (k, v) :: props
      end
  end.

(** [CreateDataProperty(obj, k, v)] on an ordinary object. *)
Definition obj_set (props : list (string * json)) (k : string) (v : json) :=
  if has_key props k then replace_value props k v
  else match array_index k with
       | Some i => insert_index props i k v
       | None => props ++ [(k, v)]
       end.

Definition obj_of_members (members : list (string * json)) : list (string * json) :=
  fold_left (λ o kv, obj_set o (fst kv) (snd kv)) members [].

(** *** JSON.parse *)

(** JSON white space: TAB, LF, CR and SP. *)
Definition is_ws (c : ascii) : bool :=
  match N_of_ascii c with
  | 9 | 10 | 13 | 32 => true
  | _ => false
  end%N.

Fixpoint skip_ws (s : string) : string :=
  match s with
  | String c r => if is_ws c then skip_ws r else s
  | EmptyString => EmptyString
  end.

(** [expect lit s]: [s] without its prefix [lit]. *)
Fixpoint expect (lit s : string) : option string :=
  match lit, s with
  | EmptyString, _ => Some s
  | String a lit', String b s' => if Ascii.eqb a b then expect lit' s' else None
  | String _ _, EmptyString => None
  end.

(** [int] of the JSON grammar: a single [0], or a digit [1-9] and digits. *)
Definition parse_nat (s : string) : option (N * string) :=
  match s with
  | String c r =>
      match digit_of c with
      | Some _ =>
          if Ascii.eqb c "0" then Some (0%N, r)
          else let (u, r') := scan_digits s in Some (N.of_uint u, r')
      | None => None
      end
  | EmptyString => None
  end.

(** [number] of the JSON grammar, without fraction and exponent: what
    follows the integer is left to the caller, which rejects a [.] or an
    [e] there. *)
Definition parse_number (s : string) : option (Z * string) :=
  match s with
  | String "-" r =>
      match parse_nat r with
      | Some (n, r') => Some (- Z.of_N n, r')
      | None => None
      end
  | _ =>
      match parse_nat s with
      | Some (n, r') => Some (Z.of_N n, r')
      | None => None
      end
  end.

(** The value of a hexadecimal digit, in either case. *)
Definition hex_val (c : ascii) : option N :=
  let n := N_of_ascii c in
  (if (48 <=? n) && (n <=? 57) then Some (n - 48)
   else if (97 <=? n) && (n <=? 102) then Some (n - 87)
   else if (65 <=? n) && (n <=? 70) then Some (n - 55)
   else None)%N.

(** The code unit of [\uXXXX]; one above U+00FF is outside the modelled
    range of characters. *)
Definition hex4 (h1 h2 h3 h4 : ascii) : option ascii :=
  match hex_val h1, hex_val h2, hex_val h3, hex_val h4 with
  | Some a, Some b, Some c, Some d =>
      let n := (((a * 16 + b) * 16 + c) * 16 + d)%N in
      if (n <? 256)%N then Some (ascii_of_N n) else None
  | _, _, _, _ => None
  end.

(** The character a two-character escape stands for. *)
Definition unescape (e : ascii) : option ascii :=
  match e with
  | "034" => Some "034" | "\" => Some "\" | "/" => Some "/"
  | "b" => Some "008" | "f" => Some "012" | "n" => Some "010"
  | "r" => Some "013" | "t" => Some "009"
  | _ => None
  end%char.

Definition cons_char (c : ascii) (r : option (string * string)) : option (string * string) :=
  match r with
  | Some (s, rest) => Some (String c s, rest)
  | None => None
  end.

(** The characters of a string literal after its opening quote, up to and
    including the closing quote. *)
Fixpoint parse_chars (s : string) : option (string * string) :=
  match s with
  | EmptyString => None
  | String c r =>
      if Ascii.eqb c DQ then Some (EmptyString, r)
      else if Ascii.eqb c "\" then
        match r with
        | String e r1 =>
            if Ascii.eqb e "u" then
              match r1 with
              | String h1 (String h2 (String h3 (String h4 r2))) =>
                  match hex4 h1 h2 h3 h4 with
                  | Some ch => cons_char ch (parse_chars r2)
                  | None => None
                  end
              | _ => None
              end
            else
              match unescape e with
              | Some ch => cons_char ch (parse_chars r1)
              | None => None
              end
        | EmptyString => None
        end
      else if (N_of_ascii c <? 32)%N then None
      else cons_char c (parse_chars r)
  end.

Definition with_rest (v : json) (r : option string) : option (json * string) :=
  match r with
  | Some rest => Some (v, rest)
  | None => None
  end.

(** The recursive-descent parser.  Each function reads one syntactic unit
    from the front of the text and returns it with the rest of the text.
    [fuel] bounds the number of nested calls; [parse] starts with enough. *)
Fixpoint parse_value (fuel : nat) (s : string) : option (json * string) :=
  match fuel with
  | O => None
  | S fuel =>
      match skip_ws s with
      | EmptyString => None
      | String c r =>
          match c with
          | "n" => with_rest JNull (expect "ull" r)
          | "t" => with_rest (JBool true) (expect "rue" r)
          | "f" => with_rest (JBool false) (expect "alse" r)
          | "034" =>
              match parse_chars r with
              | Some (str, r') => Some (JStr str, r')
              | None => None
              end
          | "[" =>
              match expect "]" (skip_ws r) with
              | Some r' => Some (JArr [], r')
              | None =>
                  match parse_elements fuel r with
                  | Some (xs, r') => Some (JArr xs, r')
                  | None => None
                  end
              end
          | "{" =>
              match expect "}" (skip_ws r) with
              | Some r' => Some (JObj [], r')
              | None =>
                  match parse_members fuel r [] with
                  | Some (props, r') => Some (JObj props, r')
                  | None => None
                  end
              end
          | _ =>
              match parse_number (String c r) with
              | Some (n, r') => Some (JNum n, r')
              | None => None
              end
          end%char
      end
  end
with parse_elements (fuel : nat) (s : string) : option (list json * string) :=
  match fuel with
  | O => None
  | S fuel =>
      match parse_value fuel s with
      | Some (v, r) =>
          match skip_ws r with
          | String "," r' =>
              match parse_elements fuel r' with
              | Some (vs, r'') => Some (v :: vs, r'')
              | None => None
              end
          | String "]" r' => Some ([v], r')
          | _ => None
          end
      | None => None
      end
  end
with parse_members (fuel : nat) (s : string) (obj : list (string * json))
  : option (list (string * json) * string) :=
  match fuel with
  | O => None
  | S fuel =>
      match skip_ws s with
      | String "034" r =>
          match parse_chars r with
          | Some (k, r1) =>
              match skip_ws r1 with
              | String ":" r2 =>
                  match parse_value fuel r2 with
                  | Some (v, r3) =>
                      let obj' := obj_set obj k v in
                      match skip_ws r3 with
                      | String "," r4 => parse_members fuel r4 obj'
                      | String "}" r4 => Some (obj', r4)
                      | _ => None
                      end
                  | None => None
                  end
              | _ => None
              end
          | None => None
          end
      | _ => None
      end
  end.

(** [JSON.parse(text)] without reviver: [Some v] when [text] is one JSON
    value between optional white space, [None] when it throws a
    [SyntaxError]. *)
Definition parse (text : string) : option json :=
  match parse_value (S (String.length text)) text with
  | Some (v, r) =>
      match skip_ws r with
      | EmptyString => Some v
      | String _ _ => None
      end
  | None => None
  end.

(** *** Well-formed values and the parser's measure *)

(** The integers a JavaScript number holds exactly
    ([Number.MIN_SAFE_INTEGER .. Number.MAX_SAFE_INTEGER]). *)
Definition safe_integer (n : Z) : Prop :=
  - 9007199254740991 ≤ n ≤ 9007199254740991.

(** The property list of an object is in property order when creating its
    properties one by one, in the order listed, rebuilds the list. *)
Definition property_order (props : list (string * json)) : Prop :=
  obj_of_members props = props.

(** The values a JavaScript program can hold: safe integers, and objects
    whose properties are listed in property order. *)
Inductive wf : json → Prop :=
| wf_null : wf JNull
| wf_bool b : wf (JBool b)
| wf_num n : safe_integer n → wf (JNum n)
| wf_str s : wf (JStr s)
| wf_arr xs : Forall wf xs → wf (JArr xs)
| wf_obj props :
    property_order props → Forall (λ kv, wf (snd kv)) props → wf (JObj props).

(** The first character of a number. *)
Definition number_start (c : ascii) : bool :=
  match c with
  | "-" | "0" | "1" | "2" | "3" | "4" | "5" | "6" | "7" | "8" | "9" => true
  | _ => false
  end%char.

(** The first character of a JSON text decides which value follows. *)
Definition value_start (c : ascii) : bool :=
  match c with
  | "n" | "t" | "f" | "034" | "[" | "{" | "-"
  | "0" | "1" | "2" | "3" | "4" | "5" | "6" | "7" | "8" | "9" => true
  | _ => false
  end%char.

(** What may follow a number: the end of the text, or a character that is
    not a digit. *)
Definition ends_number (rest : string) : Prop :=
  match rest with
  | EmptyString => True
  | String c _ => digit_of c = None
  end.

(** The calls a value costs the parser. *)
Fixpoint cost (v : json) : nat :=
  match v with
  | JArr xs => S (list_sum (List.map (λ x, S (cost x)) xs))
  | JObj props => S (list_sum (List.map (λ kv, S (cost (snd kv))) props))
  | _ => 1
  end.

Definition member (kv : string * json) : string :=
  quote (fst kv) +:+ ":" +:+ stringify (snd kv).

(** [parse_value] reads back what [stringify] wrote, and stops there. *)
Definition reads_back (v : json) : Prop :=
  ∀ fuel rest, (cost v ≤ fuel)%nat → ends_number rest →
    parse_value fuel (stringify v +:+ rest) = Some (v, rest).

(** With the fuel [fuel], a parser that succeeds consumed at least one
    character, and succeeds with the same result on any fuel no less than
    the number of characters it consumed. *)
Definition adequate_value (fuel : nat) : Prop :=
  ∀ s v r, parse_value fuel s = Some (v, r) →
    (String.length r < String.length s)%nat ∧
    ∀ f', (String.length s - String.length r ≤ f')%nat → parse_value f' s = Some (v, r).

Definition adequate_elements (fuel : nat) : Prop :=
  ∀ s vs r, parse_elements fuel s = Some (vs, r) →
    (String.length r < String.length s)%nat ∧
    ∀ f', (String.length s - String.length r ≤ f')%nat → parse_elements f' s = Some (vs, r).

Definition adequate_members (fuel : nat) : Prop :=
  ∀ s obj o r, parse_members fuel s obj = Some (o, r) →
    (String.length r < String.length s)%nat ∧
    ∀ f', (String.length s - String.length r ≤ f')%nat →
      parse_members f' s obj = Some (o, r).

End JSON.

(** ** The Node.js runtime *)

Module Node.

(** A thrown [Error]; the logger reads only its [message]. *)
Record Error := mkError { message : string }.

(** What the platform does to the next file-system call that can throw:
    it fails before touching anything, or (an append) it fails after the
    first [written] characters of the data, at most, reached the file.  A
    call that writes no data takes the second as the first. *)
Inductive Fault :=
| Fails (msg : string)
| FailsAfter (msg : string) (written : nat).

Definition fault_message (f : Fault) : string :=
  match f with
  | Fails msg | FailsAfter msg _ => msg
  end.

(** The state of the process and of its surroundings.
    - [files]: the text of every regular file, by path;
    - [dirs]: the directories that exist;
    - [console]: the calls of [console.error] so far, oldest first, each
      with its arguments;
    - [cwd]: the working directory;
    - [faults]: the platform's behaviour at the coming throwing calls
      ([None], or an exhausted list: the call runs normally). *)
Record World := mkWorld {
  files : gmap string string;
  dirs : gset string;
  console : list (list string);
  cwd : string;
  faults : list (option Fault)
}.

Definition set_files (f : gmap string string) (w : World) : World :=
  mkWorld f (dirs w) (console w) (cwd w) (faults w).
Definition set_dirs (d : gset string) (w : World) : World :=
  mkWorld (files w) d (console w) (cwd w) (faults w).
Definition set_console (c : list (list string)) (w : World) : World :=
  mkWorld (files w) (dirs w) c (cwd w) (faults w).
Definition set_faults (s : list (option Fault)) (w : World) : World :=
  mkWorld (files w) (dirs w) (console w) (cwd w) s.

(** How a call ends: it returns a value or throws. *)
Inductive Completion (A : Type) :=
| Return (a : A)
| Throw (e : Error).
Arguments Return {A} a.
Arguments Throw {A} e.

(** A computation: from a world to a completion and the world after it. *)
Definition IO (A : Type) : Type := World → Completion A * World.

Definition ret {A} (a : A) : IO A := λ w, (Return a, w).

Definition throw {A} (e : Error) : IO A := λ w, (Throw e, w).

Definition bind {A B} (m : IO A) (k : A → IO B) : IO B :=
  λ w, match m w with
       | (Return a, w') => k a w'
       | (Throw e, w') => (Throw e, w')
       end.

(** [try { body } catch (e) { handler }]. *)
Definition try_catch {A} (body : IO A) (handler : Error → IO A) : IO A :=
  λ w, match body w with
       | (Return a, w') => (Return a, w')
       | (Throw e, w') => handler e w'
       end.

Declare Scope io_scope.
Delimit Scope io_scope with io.
Notation "x <- m ;; k" := (bind m (λ x, k))
  (at level 100, m at next level, k at level 200, right associativity) : io_scope.
Notation "m ;; k" := (bind m (λ _, k))
  (at level 100, k at level 200, right associativity) : io_scope.
Local Open Scope io_scope.

(** The platform's decision for the call that starts now. *)
Definition next_fault : IO (option Fault) :=
  λ w, match faults w with
       | [] => (Return None, w)
       | f :: rest => (Return f, set_faults rest w)
       end.

(** [process.cwd()] in a process whose working directory exists.  The call
    throws when that directory has been removed; the worlds of the embedding
    have no such state, and nothing below is stated of it. *)
Definition process_cwd : IO string := λ w, (Return (cwd w), w).

Definition SLASH : ascii := "/"%char.

(** [path.join(dir, name)] for a normalized [dir] and a plain [name]. *)
Definition path_join (dir name : string) : string := dir +:+ String SLASH name.

Fixpoint has_slash (p : string) : bool :=
  match p with
  | EmptyString => false
  | String c r => Ascii.eqb c SLASH || has_slash r
  end.

(** [path.dirname]: the path up to its last separator. *)
Fixpoint dirname (p : string) : string :=
  match p with
  | EmptyString => EmptyString
  | String c r => if has_slash r then String c (dirname r) else EmptyString
  end.

(** [console.error(...args)]. *)
Definition console_error (args : list string) : IO unit :=
  λ w, (Return tt, set_console (console w ++ [args]) w).

(** [fs.existsSync(path)]: never throws. *)
Definition fs_existsSync (path : string) : IO bool :=
  λ w, (Return (bool_decide (is_Some (files w !! path)) || bool_decide (path ∈ dirs w)), w).

(** [fs.mkdirSync(path, { recursive: true })]. *)
Definition fs_mkdirSync (path : string) : IO unit :=
  f <- next_fault ;;
  match f with
  | Some (Fails msg) | Some (FailsAfter msg _) => throw (mkError msg)
  | None => λ w, (Return tt, set_dirs ({[path]} ∪ dirs w) w)
  end.

Definition file_text (w : World) (path : string) : string :=
  default EmptyString (files w !! path).

(** The first [n] characters of [s]. *)
Definition prefix_of (n : nat) (s : string) : string := String.substring 0 n s.

(** Why [path] cannot be opened as a regular file among the directories
    [ds], when it cannot: it is a directory, or its directory is missing. *)
Definition open_error (ds : gset string) (path : string) : option string :=
  if bool_decide (path ∈ ds) then Some "EISDIR: illegal operation on a directory"
  else if bool_decide (dirname path ∈ ds) then None
  else Some "ENOENT: no such file or directory".

(** [fs.appendFileSync(path, data, 'utf8')]: opens [path] for appending,
    creating the file when absent, and writes [data] after what is there.
    It throws when the platform faults and when [path] cannot be opened. *)
Definition fs_appendFileSync (path data : string) : IO unit :=
  f <- next_fault ;;
  match f with
  | Some (Fails msg) => throw (mkError msg)
  | Some (FailsAfter msg n) =>
      λ w, match open_error (dirs w) path with
           | None =>
               (Throw (mkError msg),
                set_files (<[path := file_text w path +:+ prefix_of n data]> (files w)) w)
           | Some _ => (Throw (mkError msg), w)
           end
  | None =>
      λ w, match open_error (dirs w) path with
           | None =>
               (Return tt, set_files (<[path := file_text w path +:+ data]> (files w)) w)
           | Some reason => (Throw (mkError reason), w)
           end
  end.

(** [fs.readFileSync(path, 'utf8')]. *)
Definition fs_readFileSync (path : string) : IO string :=
  f <- next_fault ;;
  match f with
  | Some (Fails msg) | Some (FailsAfter msg _) => throw (mkError msg)
  | None =>
      λ w, match files w !! path with
           | Some text => (Return text, w)
           | None =>
               (Throw (mkError (if bool_decide (path ∈ dirs w)
                                then "EISDIR: illegal operation on a directory"
                                else "ENOENT: no such file or directory")), w)
           end
  end.

(** [JSON.parse(text)], throwing a [SyntaxError] on malformed text. *)
Definition JSON_parse (text : string) : IO JSON.json :=
  match JSON.parse text with
  | Some v => ret v
  | None => throw (mkError "SyntaxError")
  end.

(** [Array.prototype.map] with a callback that has effects: the elements
    are visited in order. *)
Fixpoint Array_map {A B} (f : A → IO B) (l : list A) : IO (list B) :=
  match l with
  | [] => ret []
  | x :: xs => y <- f x ;; ys <- Array_map f xs ;; ret (y :: ys)
  end.

End Node.

(** ** The records *)

(** [interface Receipt]; an optional field is [None] when absent or
    [undefined]. *)
Module Receipt.
Import JSON.

Record t := mk {
  ts : string;
  address : string;
  addressIndex : option Z;
  challenge_id : string;
  nonce : string;
  hash : string;
  crypto_receipt : option json;
  isDevFee : option bool
}.

(** An optional property: [JSON.stringify] leaves out a property whose
    value is [undefined]. *)
Definition optional (k : string) (v : option json) : list (string * json) :=
  match v with
  | Some x => [(k, x)]
  | None => []
  end.

(** The object a receipt is at run time, its properties in the order of the
    interface. *)
Definition toJS (r : t) : json :=
  JObj ([("ts", JStr (ts r)); ("address", JStr (address r))]
        ++ optional "addressIndex" (JNum <$> addressIndex r)
        ++ [("challenge_id", JStr (challenge_id r)); ("nonce", JStr (nonce r));
            ("hash", JStr (hash r))]
        ++ optional "crypto_receipt" (crypto_receipt r)
        ++ optional "isDevFee" (JBool <$> isDevFee r)).

End Receipt.

(** [interface ErrorLog]. *)
Module ErrorLog.
Import JSON.

Record t := mk {
  ts : string;
  address : string;
  addressIndex : option Z;
  challenge_id : string;
  nonce : string;
  hash : string;
  error : string;
  response : option json
}.

Definition toJS (e : t) : json :=
  JObj ([("ts", JStr (ts e)); ("address", JStr (address e))]
        ++ Receipt.optional "addressIndex" (JNum <$> addressIndex e)
        ++ [("challenge_id", JStr (challenge_id e)); ("nonce", JStr (nonce e));
            ("hash", JStr (hash e)); ("error", JStr (error e))]
        ++ Receipt.optional "response" (response e)).

End ErrorLog.

(** ** class ReceiptsLogger *)

Module ReceiptsLogger.
Import JS JSON Node.
Local Open Scope io_scope.

(** The two private fields. *)
Record t := mk {
  receiptsFile : string;
  errorsFile : string
}.

(** The line terminator ['\n']. *)
Definition NL : string := String LF EmptyString.

(** [constructor()]. *)
Definition constructor : IO t :=
  dir <- process_cwd ;;
  let storageDir := path_join dir "storage" in
  present <- fs_existsSync storageDir ;;
  (if negb present then fs_mkdirSync storageDir else ret tt) ;;
  ret {| receiptsFile := path_join storageDir "receipts.jsonl";
         errorsFile := path_join storageDir "errors.jsonl" |}.

(** [export const receiptsLogger = new ReceiptsLogger()]. *)
Definition receiptsLogger : IO t := constructor.

(** [logReceipt(receipt)]. *)
Definition logReceipt (this : t) (receipt : Receipt.t) : IO unit :=
  try_catch
    (let line := stringify (Receipt.toJS receipt) +:+ NL in
     fs_appendFileSync (receiptsFile this) line)
    (λ error,
       console_error ["[ReceiptsLogger] Failed to log receipt:"; message error]).

(** [logError(errorLog)]. *)
Definition logError (this : t) (errorLog : ErrorLog.t) : IO unit :=
  try_catch
    (let line := stringify (ErrorLog.toJS errorLog) +:+ NL in
     fs_appendFileSync (errorsFile this) line)
    (λ error,
       console_error ["[ReceiptsLogger] Failed to log error:"; message error]).

(** [content.trim().split('\n').filter(line => line.length > 0)]. *)
Definition lines_of (content : string) : list string :=
  Array_filter nonempty (split_LF (trim content)).

(** The callback of [map]: the parsed line, or [null] after a diagnostic
    that shows the line. *)
Definition parse_line (label : string) (line : string) : IO json :=
  try_catch
    (JSON_parse line)
    (λ e, console_error [label; line] ;; ret JNull).

(** [receipt => receipt !== null]. *)
Definition not_null (v : json) : bool := negb (is_null v).

(** [readReceipts()]. *)
Definition readReceipts (this : t) : IO (list json) :=
  try_catch
    (present <- fs_existsSync (receiptsFile this) ;;
     if negb present then ret []
     else
       content <- fs_readFileSync (receiptsFile this) ;;
       let lines := lines_of content in
       parsed <- Array_map (parse_line "[ReceiptsLogger] Failed to parse receipt line:") lines ;;
       ret (Array_filter not_null parsed))
    (λ error,
       console_error ["[ReceiptsLogger] Failed to read receipts:"; message error] ;;
       ret []).

(** [getRecentReceipts(count)], for an integral [count]. *)
Definition getRecentReceipts (this : t) (count : Z) : IO (list json) :=
  try_catch
    (present <- fs_existsSync (receiptsFile this) ;;
     if negb present then ret []
     else
       content <- fs_readFileSync (receiptsFile this) ;;
       let lines := lines_of content in
       let recentLines := Array_slice lines (- count) in
       parsed <- Array_map (parse_line "[ReceiptsLogger] Failed to parse receipt line:")
                           recentLines ;;
       ret (Array_filter not_null parsed))
    (λ error,
       console_error ["[ReceiptsLogger] Failed to read recent receipts:"; message error] ;;
       ret []).

(** [readErrors()]. *)
Definition readErrors (this : t) : IO (list json) :=
  try_catch
    (present <- fs_existsSync (errorsFile this) ;;
     if negb present then ret []
     else
       content <- fs_readFileSync (errorsFile this) ;;
       let lines := lines_of content in
       parsed <- Array_map (parse_line "[ReceiptsLogger] Failed to parse error line:") lines ;;
       ret (Array_filter not_null parsed))
    (λ error,
       console_error ["[ReceiptsLogger] Failed to read errors:"; message error] ;;
       ret []).

End ReceiptsLogger.

(** ** Notions used to state the properties *)

Module Model.
Import JS JSON Node.
Local Open Scope io_scope.

(** The platform's decision for the next throwing call. *)
Definition pending (w : World) : option Fault :=
  match faults w with
  | f :: _ => f
  | [] => None
  end.

(** The text of a file to which the lines [ls] were appended, one call of
    [appendFileSync] each, starting from nothing. *)
Fixpoint jsonl (ls : list string) : string :=
  match ls with
  | [] => EmptyString
  | l :: ls' => l +:+ ReceiptsLogger.NL +:+ jsonl ls'
  end.

(** The lines [ls] with a line feed between them. *)
Fixpoint join_LF (ls : list string) : string :=
  match ls with
  | [] => EmptyString
  | [l] => l
  | l :: ls' => l +:+ ReceiptsLogger.NL +:+ join_LF ls'
  end.

(** A line that [split] and [filter] keep as it is: not empty, and no line
    feed inside. *)
Definition plain_line (l : string) : Prop :=
  has_LF l = false ∧ nonempty l = true.

(** The first character of [l] is not white space. *)
Definition starts_clean (l : string) : Prop :=
  ∃ c s, l = String c s ∧ isWhiteSpace c = false.

(** The last character of [l] is not white space. *)
Definition ends_clean (l : string) : Prop :=
  ∃ s d, l = s +:+ String d EmptyString ∧ isWhiteSpace d = false.

(** A line as [JSON.stringify] writes an object: no line feed inside, and
    neither its first nor its last character is white space. *)
Definition record_line (l : string) : Prop :=
  has_LF l = false ∧
  ∃ c inner d, l = String c (inner +:+ String d EmptyString) ∧
               isWhiteSpace c = false ∧ isWhiteSpace d = false.

(** What a read returns for the lines it parses: the value of each line
    that parses to something other than [null], in the order of the lines. *)
Fixpoint values_of (lines : list string) : list json :=
  match lines with
  | [] => []
  | l :: ls =>
      match parse l with
      | Some v => if is_null v then values_of ls else v :: values_of ls
      | None => values_of ls
      end
  end.

Definition fails_to_parse (line : string) : bool :=
  match parse line with
  | Some _ => false
  | None => true
  end.

(** The diagnostics of those lines: one for each line that fails to parse,
    in order, showing the line. *)
Definition diagnostics_of (label : string) (lines : list string) : list (list string) :=
  List.map (λ l, [label; l]) (List.filter fails_to_parse lines).

(** The last [k] elements of [l]. *)
Definition last_n {A} (k : nat) (l : list A) : list A := drop (length l - k) l.

(** A receipt whose values JavaScript can hold. *)
Definition valid_receipt (r : Receipt.t) : Prop :=
  match Receipt.addressIndex r with Some i => safe_integer i | None => True end ∧
  match Receipt.crypto_receipt r with Some p => wf p | None => True end.

(** The common shape of the two append methods. *)
Definition append_with (path label line : string) : IO unit :=
  try_catch
    (fs_appendFileSync path line)
    (λ error, console_error [label; message error]).

(** The common shape of the three read methods; [select] picks the lines to
    parse. *)
Definition read_with (path read_label parse_label : string)
    (select : list string → list string) : IO (list json) :=
  try_catch
    (present <- fs_existsSync path ;;
     if negb present then ret []
     else
       content <- fs_readFileSync path ;;
       let lines := ReceiptsLogger.lines_of content in
       parsed <- Array_map (ReceiptsLogger.parse_line parse_label) (select lines) ;;
       ret (Array_filter ReceiptsLogger.not_null parsed))
    (λ error, console_error [read_label; message error] ;; ret []).

(** What the append primitive can do to the world: nothing to the
    directories, nothing to another file, and to its own file nothing or the
    addition of some first characters of the data. *)
Definition appended (path data : string) (w w' : World) : Prop :=
  dirs w' = dirs w ∧ cwd w' = cwd w ∧
  (files w' = files w ∨
   ∃ n, files w' = <[path := file_text w path +:+ prefix_of n data]> (files w)).

(** The directory the constructor derives from the working directory. *)
Definition storageDir (w : World) : string := path_join (cwd w) "storage".

(** The line [logReceipt] writes for a receipt, without its terminator. *)
Definition receipt_line (r : Receipt.t) : string := stringify (Receipt.toJS r).

(** The receipts file holds exactly the records [rs], appended in order. *)
Definition holds_receipts (this : ReceiptsLogger.t) (w : World) (rs : list Receipt.t) : Prop :=
  file_text w (ReceiptsLogger.receiptsFile this) = jsonl (List.map receipt_line rs).

(** Two worlds that agree on one file and on the directories. *)
Definition agree_on (path : string) (w w' : World) : Prop :=
  files w !! path = files w' !! path ∧ dirs w = dirs w'.

(** One append, with what the platform does to it. *)
Inductive Op :=
| LogReceipt (receipt : Receipt.t) (f : option Fault)
| LogError (errorLog : ErrorLog.t) (f : option Fault).

Definition is_receipt_op (op : Op) : bool :=
  match op with LogReceipt _ _ => true | LogError _ _ => false end.

Definition is_error_op (op : Op) : bool := negb (is_receipt_op op).

Definition run_op (this : ReceiptsLogger.t) (op : Op) (w : World) : World :=
  match op with
  | LogReceipt r f => snd (ReceiptsLogger.logReceipt this r (set_faults [f] w))
  | LogError e f => snd (ReceiptsLogger.logError this e (set_faults [f] w))
  end.

(** The world after the appends [ops], in order. *)
Definition run (this : ReceiptsLogger.t) (ops : list Op) (w : World) : World :=
  fold_left (λ w op, run_op this op w) ops w.

(** [for (const r of rs) this.logReceipt(r)]. *)
Fixpoint logReceipts (this : ReceiptsLogger.t) (rs : list Receipt.t) : IO unit :=
  match rs with
  | [] => ret tt
  | r :: rs' => ReceiptsLogger.logReceipt this r ;; logReceipts this rs'
  end.

End Model.

(** ** A scenario *)

Module Scenario.
Import JSON Node Model ReceiptsLogger.

(** The two receipts of the scenario in the specification. *)
Definition first : Receipt.t :=
  Receipt.mk "2024-01-01T00:00:00Z" "0xA" None "c1" "n1" "h1" None None.

Definition second : Receipt.t :=
  Receipt.mk "2024-01-01T00:00:05Z" "0xB" None "c2" "n2" "h2" None (Some true).

(** A receipt with every optional field, and a nested payload. *)
Definition full : Receipt.t :=
  Receipt.mk "2024-01-01T00:00:09Z" "0xC" (Some 7%Z) "c3" "n3" "h3"
    (Some (JObj [("sig", JStr (String DQ "C:\tmp")); ("path", JArr [JNum 1; JNum (-2); JNull])]))
    (Some false).

Definition failure : ErrorLog.t :=
  ErrorLog.mk "2024-01-01T00:00:07Z" "0xB" (Some 3%Z) "c2" "n9" "h9" "rejected"
    (Some (JObj [("status", JNum 400)])).

(** A process started in [/app], before the logger exists. *)
Definition boot : World := mkWorld ∅ ∅ [] "/app" [].

(** The logger the constructor makes there. *)
Definition logger : t :=
  mk "/app/storage/receipts.jsonl" "/app/storage/errors.jsonl".

(** The world after the constructor: the storage directory exists. *)
Definition fresh : World := mkWorld ∅ {["/app/storage"]} [] "/app" [].

(** A world whose receipts file has the given text. *)
Definition with_receipts (text : string) : World :=
  mkWorld {["/app/storage/receipts.jsonl" := text]} {["/app/storage"]} [] "/app" [].

Definition corrupt_between : string :=
  receipt_line first +:+ NL +:+ "{broken" +:+ NL +:+ receipt_line second +:+ NL.

(** The same two receipts with a corrupt last line. *)
Definition broken_tail : string :=
  receipt_line first +:+ NL +:+ receipt_line second +:+ NL +:+ "{broken" +:+ NL.

End Scenario.

(** ** Notions used to state the further properties *)

Module Sessions.
Import JS JSON Node Model ReceiptsLogger.
Local Open Scope io_scope.

(** An error log whose values JavaScript can hold. *)
Definition valid_error (e : ErrorLog.t) : Prop :=
  match ErrorLog.addressIndex e with Some i => safe_integer i | None => True end ∧
  match ErrorLog.response e with Some p => wf p | None => True end.

(** The line [logError] writes for an error log, without its terminator. *)
Definition error_line (e : ErrorLog.t) : string := stringify (ErrorLog.toJS e).

(** [for (const e of es) this.logError(e)]. *)
Fixpoint logErrors (this : ReceiptsLogger.t) (es : list ErrorLog.t) : IO unit :=
  match es with
  | [] => ret tt
  | e :: es' => ReceiptsLogger.logError this e ;; logErrors this es'
  end.

(** The last character of [s] is a line feed. *)
Fixpoint ends_with_LF (s : string) : bool :=
  match s with
  | EmptyString => false
  | String c EmptyString => Ascii.eqb c LF
  | String _ r => ends_with_LF r
  end.

(** A text that is empty or whose last line is terminated. *)
Definition line_ended (text : string) : bool :=
  match text with
  | EmptyString => true
  | String _ _ => ends_with_LF text
  end.

(** The world in which the file at [path] has the text [text]. *)
Definition with_text (path text : string) (w : World) : World :=
  set_files (<[path := text]> (files w)) w.

(** What the caller and the reader of the console can tell of a call: how
    it completed, and the diagnostics. *)
Definition same_outcome {A} (x y : Completion A * World) : Prop :=
  fst x = fst y ∧ console (snd x) = console (snd y).

(** A second error log, with no optional field. *)
Definition timeout : ErrorLog.t :=
  ErrorLog.mk "2024-01-01T00:00:08Z" "0xC" None "c3" "n4" "h4" "timeout" None.

(** A process started in [/app] where a regular file has the name of the
    storage directory. *)
Definition blocked : World :=
  mkWorld {["/app/storage" := "not a directory"]} ∅ [] "/app" [].

End Sessions.

(** ** ECMAScript Numbers *)

(** A Number is an IEEE 754 binary64 value, here a primitive [float]:
    [*], [-], [<], [>=] are the primitive operations, and a literal such as
    [0.85] is the binary64 value nearest to it. *)
Module Number.
Local Open Scope float_scope.

(** The Number of an integer (exact below 2^53 in absolute value). *)
Definition of_Z (z : Z) : float :=
  if (z <? 0)%Z then - PrimFloat.of_uint63 (Uint63.of_Z (- z))
  else PrimFloat.of_uint63 (Uint63.of_Z z).

(** [Math.floor]: the greatest integral Number not above [x]; NaN, the
    infinities and the zeros are returned as they are. *)
Definition Math_floor (x : float) : float :=
  match Prim2SF x with
  | S754_finite negative m e =>
      if (0 <=? e)%Z then x
      else
        let q := Z.shiftr (Z.pos m) (- e) in
        if negative then
          if (Z.shiftl q (- e) =? Z.pos m)%Z then x
          else - PrimFloat.of_uint63 (Uint63.of_Z (q + 1))
        else PrimFloat.of_uint63 (Uint63.of_Z q)
  | _ => x
  end.

Definition is_negative_zero (x : float) : bool :=
  PrimFloat.is_zero x && PrimFloat.get_sign x.

(** [Math.min(a, b)]: NaN when an argument is NaN; -0 is below +0. *)
Definition Math_min (a b : float) : float :=
  if PrimFloat.is_nan a || PrimFloat.is_nan b then PrimFloat.nan
  else if a <? b then a
  else if b <? a then b
  else if is_negative_zero a then a else b.

(** [Math.max(a, b)]. *)
Definition Math_max (a b : float) : float :=
  if PrimFloat.is_nan a || PrimFloat.is_nan b then PrimFloat.nan
  else if a <? b then b
  else if b <? a then a
  else if is_negative_zero a then b else a.

End Number.

(** ** The system specs route: recommendations *)

(** The second part of the source file: [calculateRecommendations] and
    [generateWarnings].  The two [explanation] texts, which print Numbers
    into prose, are left out of the result; every other property of the
    returned object is there.  The handler [GET] reads the machine through
    [os] and answers through [NextResponse]; it is not modelled. *)
Module SystemSpecs.
Import Number.
Local Open Scope float_scope.

(** The argument of [calculateRecommendations]. *)
Record Specs := mkSpecs {
  cpuCount : float;
  cpuSpeed : float;
  totalMemoryGB : float;
  platform : string;
  currentWorkerThreads : float;
  currentBatchSize : float
}.

(** ['low-end' | 'entry-level' | 'mid-range' | 'high-end']. *)
Inductive SystemTier := low_end | entry_level | mid_range | high_end.

(** The shape of [workerThreads] and of [batchSize] in the result. *)
Record Levels := mkLevels {
  current : float;
  optimal : float;
  conservative : float;
  max : float
}.

Record Recommendations := mkRecommendations {
  systemTier : SystemTier;
  workerThreads : Levels;
  batchSize : Levels;
  warnings : list string;
  performanceNotes : list string
}.

(** The texts of the warnings, in UTF-8. *)
Definition LOW_MEMORY : string :=
  "⚠️ Low memory detected. Consider reducing batch size to avoid out-of-memory errors.".
Definition LIMITED_CORES : string :=
  "⚠️ Limited CPU cores. Mining performance may be limited. Consider using conservative settings.".
Definition LOW_CLOCK : string :=
  "⚠️ Low CPU clock speed. May experience slower hash rates. Consider reducing batch size.".
Definition HIGH_PERFORMANCE : string :=
  "✅ High-performance system detected. You can push settings higher for maximum throughput.".
Definition MANY_CORES : string :=
  "💡 System has many cores. Consider testing with max worker threads for optimal performance.".

(** [if (condition) { warnings.push(text); }]. *)
Definition push_if (condition : bool) (text : string) (warnings : list string) : list string :=
  if condition then warnings ++ [text] else warnings.

(** [generateWarnings(specs, optimalWorkers, optimalBatchSize)]. *)
Definition generateWarnings (specs : Specs) (optimalWorkers optimalBatchSize : float)
    : list string :=
  let warnings := [] in
  let warnings := push_if (totalMemoryGB specs <? 4) LOW_MEMORY warnings in
  let warnings := push_if (cpuCount specs <? 4) LIMITED_CORES warnings in
  let warnings := push_if (cpuSpeed specs <? 2000) LOW_CLOCK warnings in
  let warnings :=
    push_if ((32 <=? totalMemoryGB specs) && (16 <=? cpuCount specs)) HIGH_PERFORMANCE
      warnings in
  let warnings := push_if (12 <? optimalWorkers) MANY_CORES warnings in
  warnings.

(** [calculateRecommendations(specs)]. *)
Definition calculateRecommendations (specs : Specs) : Recommendations :=
  let cpuCount := cpuCount specs in
  let cpuSpeed := cpuSpeed specs in
  let totalMemoryGB := totalMemoryGB specs in
  let ABSOLUTE_MAX_WORKERS := 20 in
  let maxWorkers :=
    if 24 <=? cpuCount then Math_min ABSOLUTE_MAX_WORKERS (Math_floor (cpuCount * 0.85))
    else if 16 <=? cpuCount then Math_min ABSOLUTE_MAX_WORKERS (Math_floor (cpuCount * 0.8))
    else if 8 <=? cpuCount then Math_floor (cpuCount * 0.75)
    else Math_max 4 (cpuCount - 1) in
  let optimalWorkers :=
    if 24 <=? cpuCount then Math_floor (cpuCount * 0.67)
    else if 16 <=? cpuCount then Math_floor (cpuCount * 0.7)
    else if 8 <=? cpuCount then Math_floor (cpuCount * 0.65)
    else if 4 <=? cpuCount then Math_max 2 (cpuCount - 2)
    else Math_max 1 (Math_floor (cpuCount * 0.5)) in
  let conservativeWorkers := Math_max 2 (Math_floor (cpuCount * 0.5)) in
  let optimalWorkers := Math_min optimalWorkers maxWorkers in
  let finalConservativeWorkers := Math_min conservativeWorkers optimalWorkers in
  let '(optimalBatchSize, maxBatchSize, conservativeBatchSize) :=
    if (12 <=? cpuCount) && (2500 <=? cpuSpeed) && (16 <=? totalMemoryGB) then (400, 600, 300)
    else if (8 <=? cpuCount) && (2000 <=? cpuSpeed) && (8 <=? totalMemoryGB) then (350, 500, 250)
    else if (4 <=? cpuCount) && (4 <=? totalMemoryGB) then (250, 350, 150)
    else (150, 250, 100) in
  let systemTier :=
    if (12 <=? cpuCount) && (16 <=? totalMemoryGB) then high_end
    else if (8 <=? cpuCount) && (8 <=? totalMemoryGB) then mid_range
    else if (4 <=? cpuCount) && (4 <=? totalMemoryGB) then entry_level
    else low_end in
  {| systemTier := systemTier;
     workerThreads :=
       {| current := currentWorkerThreads specs;
          optimal := optimalWorkers;
          conservative := finalConservativeWorkers;
          max := maxWorkers |};
     batchSize :=
       {| current := currentBatchSize specs;
          optimal := optimalBatchSize;
          conservative := conservativeBatchSize;
          max := maxBatchSize |};
     warnings := generateWarnings specs optimalWorkers optimalBatchSize;
     performanceNotes :=
       ["Worker threads should not exceed CPU core count to avoid context switching overhead";
        "Batch size affects hash computation time and memory usage";
        "Monitor CPU usage and hash rate to fine-tune these values";
        "If you see 408 timeouts, reduce batch size";
        "If CPU usage is low, increase worker threads"] |}.

End SystemSpecs.

(** ** Notions used to state the properties of the recommendations *)

Module Advice.
Import Number SystemSpecs.

(** [p] percent of [n], rounded down. *)
Definition percent (p n : Z) : Z := p * n / 100.

(** The formulas of [calculateRecommendations] for the worker threads, in
    exact integer arithmetic. *)
Definition exact_max (n : Z) : Z :=
  if 24 <=? n then Z.min 20 (percent 85 n)
  else if 16 <=? n then Z.min 20 (percent 80 n)
  else if 8 <=? n then percent 75 n
  else Z.max 4 (n - 1).

Definition exact_optimal (n : Z) : Z :=
  Z.min (if 24 <=? n then percent 67 n
         else if 16 <=? n then percent 70 n
         else if 8 <=? n then percent 65 n
         else if 4 <=? n then Z.max 2 (n - 2)
         else Z.max 1 (percent 50 n))
        (exact_max n).

Definition exact_conservative (n : Z) : Z :=
  Z.min (Z.max 2 (percent 50 n)) (exact_optimal n).

(** The largest number of processors the facts about worker threads cover. *)
Definition most_processors : Z := 65536.

(** The batch sizes the code gives under the heading of each tier:
    optimal, conservative, max. *)
Definition tier_batch (t : SystemTier) : float * float * float :=
  match t with
  | high_end => (400, 300, 600)
  | mid_range => (350, 250, 500)
  | entry_level => (250, 150, 350)
  | low_end => (150, 100, 250)
  end%float.

Definition tier_rank (t : SystemTier) : nat :=
  match t with low_end => 0 | entry_level => 1 | mid_range => 2 | high_end => 3 end.

(** The clock speed the batch sizes of a tier ask for. *)
Definition reaches_clock (t : SystemTier) (cpuSpeed : float) : bool :=
  match t with
  | high_end => 2500 <=? cpuSpeed
  | mid_range => 2000 <=? cpuSpeed
  | entry_level | low_end => true
  end%float.

(** The worker threads recommended to a machine of [n] processors. *)
Definition workers_for (n : Z) : Levels :=
  workerThreads (calculateRecommendations (mkSpecs (of_Z n) 0 0 "" 0 0)).

(** [P] holds of [z], [z + 1], ..., [z + fuel - 1]. *)
Fixpoint all_from (P : Z → bool) (z : Z) (fuel : nat) : bool :=
  match fuel with
  | O => true
  | S fuel' => P z && all_from P (z + 1) fuel'
  end.

(** The same Number, bit for bit. *)
Definition same_number (a b : float) : bool := PrimFloat.Leibniz.eqb a b.

Definition exact_at (n : Z) : bool :=
  let r := workers_for n in
  same_number (max r) (of_Z (exact_max n)) &&
  same_number (optimal r) (of_Z (exact_optimal n)) &&
  same_number (conservative r) (of_Z (exact_conservative n)).

(** Three machines: 2 processors at 1.8 GHz with 2 GB, 8 processors at
    2.4 GHz with 16 GB, 24 processors at 3 GHz with 64 GB. *)
Definition small : Specs := mkSpecs 2 1800 2 "linux" 4 300.
Definition laptop : Specs := mkSpecs 8 2400 16 "darwin" 4 300.
Definition server : Specs := mkSpecs 24 3000 64 "linux" 8 300.

End Advice.

(** * Facts *)

(** ** Strings *)

Lemma app_cons (c : ascii) (s r : string) : String c s +:+ r = String c (s +:+ r).
Proof. reflexivity. Qed.

Lemma app_empty_l (s : string) : "" +:+ s = s.
Proof. reflexivity. Qed.

Lemma app_empty_r (s : string) : s +:+ "" = s.
Proof. induction s as [|c s IH]; [reflexivity|]. rewrite app_cons, IH. reflexivity. Qed.

Lemma app_assoc_s (a b c : string) : (a +:+ b) +:+ c = a +:+ (b +:+ c).
Proof. induction a as [|x a IH]; [reflexivity|]. rewrite !app_cons, IH. reflexivity. Qed.

Lemma length_app_s (a b : string) :
  String.length (a +:+ b) = (String.length a + String.length b)%nat.
Proof. induction a as [|x a IH]; [reflexivity|]. rewrite app_cons. simpl. lia. Qed.

(** ** The JSON codec: numbers and strings *)

Module JSON_codec.
Import JS JSON.

Lemma scan_digits_uint (u : uint) (rest : string) :
  ends_number rest → scan_digits (string_of_uint u +:+ rest) = (u, rest).
Proof.
  intros Hrest.
  induction u as [|u IH|u IH|u IH|u IH|u IH|u IH|u IH|u IH|u IH|u IH];
    try (cbn [string_of_uint]; rewrite app_cons; cbn [scan_digits digit_of]; rewrite IH; reflexivity).
  cbn [string_of_uint]. rewrite app_empty_l.
  destruct rest as [|c r]; [reflexivity|].
  cbn [scan_digits]. cbn in Hrest. rewrite Hrest. reflexivity.
Qed.

(** The decimal form of a natural number is [0], or starts with a digit
    other than zero. *)
Lemma to_uint_shape (n : N) :
  N.to_uint n = D0 Nil ∨
  (N.to_uint n ≠ Nil ∧ ∀ d, N.to_uint n ≠ D0 d).
Proof.
  pose proof (DecimalN.Unsigned.to_of (N.to_uint n)) as H.
  rewrite DecimalN.Unsigned.of_to in H.
  destruct (N.to_uint n) as [|d| | | | | | | | |] eqn:E;
    try (right; split; [discriminate | intros ?; discriminate]).
  unfold unorm in H. cbn [nzhead] in H.
  destruct (nzhead d) eqn:Ed; try discriminate H.
  - left. exact H.
  - exfalso. exact (DecimalFacts.nzhead_nonzero _ _ Ed).
Qed.

Lemma parse_nat_string_of_N (n : N) (rest : string) :
  ends_number rest → parse_nat (string_of_N n +:+ rest) = Some (n, rest).
Proof.
  intros Hrest. unfold string_of_N.
  destruct (to_uint_shape n) as [H0 | [Hnil Hnz]].
  - rewrite H0. cbn. f_equal. f_equal.
    rewrite <- (DecimalN.Unsigned.of_to n), H0. reflexivity.
  - pose proof (scan_digits_uint (N.to_uint n) rest Hrest) as Hs.
    pose proof (DecimalN.Unsigned.of_to n) as Hof.
    destruct (N.to_uint n) as [|d|d|d|d|d|d|d|d|d|d] eqn:E;
      [ congruence | exfalso; exact (Hnz d eq_refl) | .. ];
      cbn [string_of_uint] in *; rewrite app_cons in *;
      unfold parse_nat; cbn [digit_of Ascii.eqb Bool.eqb];
      rewrite Hs, Hof; reflexivity.
Qed.

Lemma string_of_N_head (n : N) :
  ∃ c s, string_of_N n = String c s ∧ digit_of c ≠ None.
Proof.
  unfold string_of_N.
  destruct (to_uint_shape n) as [H0 | [Hnil _]].
  - rewrite H0. eexists _, _. split; [reflexivity | discriminate].
  - destruct (N.to_uint n); [congruence | ..];
      (eexists _, _; split; [reflexivity | discriminate]).
Qed.

Lemma parse_number_string_of_Z (z : Z) (rest : string) :
  ends_number rest → parse_number (string_of_Z z +:+ rest) = Some (z, rest).
Proof.
  intros Hrest. unfold string_of_Z.
  destruct (Z.ltb_spec z 0) as [Hneg | Hpos].
  - rewrite app_cons. cbn [parse_number].
    rewrite parse_nat_string_of_N by exact Hrest.
    rewrite N2Z.inj_abs_N. f_equal. f_equal. lia.
  - pose proof (parse_nat_string_of_N (Z.abs_N z) rest Hrest) as Hp.
    destruct (string_of_N_head (Z.abs_N z)) as (c & s & Hs & Hc).
    rewrite Hs in *. rewrite app_cons in *.
    assert (Hv : Z.of_N (Z.abs_N z) = z) by (rewrite N2Z.inj_abs_N; lia).
    assert (Hminus : c ≠ "-"%char) by (intros ->; apply Hc; reflexivity).
    unfold parse_number.
    destruct c as [[] [] [] [] [] [] [] []]; try (exfalso; apply Hc; reflexivity);
      rewrite Hp, Hv; reflexivity.
Qed.

Lemma parse_chars_quote_char (c : ascii) (r : string) :
  parse_chars (quote_char c +:+ r) = cons_char c (parse_chars r).
Proof. destruct c as [[] [] [] [] [] [] [] []]; reflexivity. Qed.

Lemma parse_chars_quote_chars (s rest : string) :
  parse_chars (quote_chars s +:+ String DQ rest) = Some (s, rest).
Proof.
  induction s as [|c s IH]; [reflexivity|].
  cbn [quote_chars]. rewrite app_assoc_s, parse_chars_quote_char, IH. reflexivity.
Qed.

(** An induction principle that reaches the values inside arrays and
    objects. *)
Section json_induction.
  Variable P : json → Prop.
  Hypothesis Hnull : P JNull.
  Hypothesis Hbool : ∀ b, P (JBool b).
  Hypothesis Hnum : ∀ n, P (JNum n).
  Hypothesis Hstr : ∀ s, P (JStr s).
  Hypothesis Harr : ∀ xs, Forall P xs → P (JArr xs).
  Hypothesis Hobj : ∀ props, Forall (λ kv, P (snd kv)) props → P (JObj props).

Fixpoint json_induction (v : json) : P v :=
  match v with
  | JNull => Hnull
  | JBool b => Hbool b
  | JNum n => Hnum n
  | JStr s => Hstr s
  | JArr xs =>
      Harr xs ((fix all (l : list json) : Forall P l :=
                  match l with
                  | [] => @List.Forall_nil _ P
                  | x :: l' => @List.Forall_cons _ P x l' (json_induction x) (all l')
                  end) xs)
  | JObj props =>
      Hobj props ((fix all (l : list (string * json)) : Forall (λ kv, P (snd kv)) l :=
                     match l with
                     | [] => @List.Forall_nil _ _
                     | kv :: l' =>
                         @List.Forall_cons _ (λ kv, P (snd kv)) kv l'
                           (json_induction (snd kv)) (all l')
                     end) props)
  end.

End json_induction.

Lemma string_of_Z_head (z : Z) :
  ∃ c s, string_of_Z z = String c s ∧ value_start c = true.
Proof.
  unfold string_of_Z. destruct (z <? 0).
  - eexists _, _. split; reflexivity.
  - destruct (string_of_N_head (Z.abs_N z)) as (c & s & -> & Hc).
    exists c, s. split; [reflexivity|].
    destruct c as [[] [] [] [] [] [] [] []]; try reflexivity; exfalso; apply Hc; reflexivity.
Qed.

Lemma stringify_head (v : json) :
  ∃ c s, stringify v = String c s ∧ value_start c = true.
Proof.
  destruct v as [|[]|n|s|xs|props]; try (eexists _, _; split; reflexivity).
  apply string_of_Z_head.
Qed.

Lemma skip_ws_value_start (c : ascii) (s : string) :
  value_start c = true → skip_ws (String c s) = String c s.
Proof. destruct c as [[] [] [] [] [] [] [] []]; try discriminate; reflexivity. Qed.

Lemma expect_close_value_start (close c : ascii) (s : string) :
  value_start close = false → value_start c = true →
  expect (String close "") (String c s) = None.
Proof.
  intros Hclose Hc. cbn [expect].
  destruct (Ascii.eqb_spec close c) as [->|]; [congruence | reflexivity].
Qed.

Lemma skip_ws_stringify (v : json) (rest : string) :
  skip_ws (stringify v +:+ rest) = stringify v +:+ rest.
Proof.
  destruct (stringify_head v) as (c & s & -> & Hc).
  rewrite app_cons. apply skip_ws_value_start, Hc.
Qed.

Lemma parse_elements_unfold (fuel : nat) (s : string) :
  parse_elements (S fuel) s =
  match parse_value fuel s with
  | Some (v, r) =>
      match skip_ws r with
      | String "," r' =>
          match parse_elements fuel r' with
          | Some (vs, r'') => Some (v :: vs, r'')
          | None => None
          end
      | String "]" r' => Some ([v], r')
      | _ => None
      end
  | None => None
  end.
Proof. reflexivity. Qed.

Lemma skip_ws_comma r : skip_ws (String "," r) = String "," r.
Proof. reflexivity. Qed.

Lemma reads_back_elements (xs : list json) :
  xs ≠ [] → Forall reads_back xs →
  ∀ fuel rest, (list_sum (List.map (λ x, S (cost x)) xs) ≤ fuel)%nat →
    parse_elements fuel (join_comma (List.map stringify xs) +:+ String "]" rest)
    = Some (xs, rest).
Proof.
  induction xs as [|x xs IH]; [congruence|].
  intros _ Hall fuel rest Hfuel.
  apply Forall_cons in Hall as [Hx Hxs].
  cbn [List.map list_sum fold_right] in Hfuel.
  destruct fuel as [|fuel]; [lia|].
  rewrite parse_elements_unfold.
  destruct xs as [|y ys].
  - cbn [List.map join_comma].
    rewrite (Hx fuel (String "]" rest)); [reflexivity | lia | reflexivity].
  - change (join_comma (List.map stringify (x :: y :: ys)))
      with (stringify x +:+ "," +:+ join_comma (List.map stringify (y :: ys))).
    rewrite !app_assoc_s, app_cons, app_empty_l.
    rewrite (Hx fuel); [| lia | reflexivity].
    rewrite skip_ws_comma.
    rewrite IH; [reflexivity | congruence | exact Hxs | cbn [List.map list_sum fold_right] in *; lia].
Qed.

Lemma skip_ws_nonws c r : is_ws c = false → skip_ws (String c r) = String c r.
Proof. intros H. cbn [skip_ws]. rewrite H. reflexivity. Qed.

Lemma parse_members_quote (fuel : nat) (r : string) (obj : list (string * json)) :
  parse_members (S fuel) (String DQ r) obj =
  match parse_chars r with
  | Some (k, r1) =>
      match skip_ws r1 with
      | String ":" r2 =>
          match parse_value fuel r2 with
          | Some (v, r3) =>
              match skip_ws r3 with
              | String "," r4 => parse_members fuel r4 (obj_set obj k v)
              | String "}" r4 => Some (obj_set obj k v, r4)
              | _ => None
              end
          | None => None
          end
      | _ => None
      end
  | None => None
  end.
Proof. reflexivity. Qed.

Lemma reads_back_members (props : list (string * json)) :
  props ≠ [] → Forall (λ kv, reads_back (snd kv)) props →
  ∀ fuel rest obj, (list_sum (List.map (λ kv, S (cost (snd kv))) props) ≤ fuel)%nat →
    parse_members fuel (join_comma (List.map member props) +:+ String "}" rest) obj
    = Some (fold_left (λ o kv, obj_set o (fst kv) (snd kv)) props obj, rest).
Proof.
  induction props as [|[k v] props IH]; [congruence|].
  intros _ Hall fuel rest obj Hfuel.
  apply Forall_cons in Hall as [Hv Hprops]. cbn [snd] in Hv.
  cbn [List.map list_sum fold_right snd] in Hfuel.
  destruct fuel as [|fuel]; [lia|].
  destruct props as [|kv props].
  - cbn [List.map join_comma fold_left fst snd]. unfold member, quote. cbn [fst snd].
    rewrite !app_assoc_s, !app_cons, !app_assoc_s, !app_cons, !app_empty_l.
    rewrite parse_members_quote, parse_chars_quote_chars.
    rewrite skip_ws_nonws by reflexivity.
    rewrite (Hv fuel); [| lia | reflexivity].
    reflexivity.
  - change (join_comma (List.map member ((k, v) :: kv :: props)))
      with (member (k, v) +:+ "," +:+ join_comma (List.map member (kv :: props))).
    unfold member at 1, quote. cbn [fst snd fold_left].
    rewrite !app_assoc_s, !app_cons, !app_assoc_s, !app_cons, !app_empty_l.
    rewrite parse_members_quote, parse_chars_quote_chars.
    rewrite skip_ws_nonws by reflexivity.
    rewrite (Hv fuel); [| lia | reflexivity].
    rewrite skip_ws_nonws by reflexivity.
    rewrite IH; [reflexivity | congruence | exact Hprops |
                 cbn [List.map list_sum fold_right] in *; lia].
Qed.

Lemma string_of_Z_number_start (z : Z) :
  ∃ c s, string_of_Z z = String c s ∧ number_start c = true.
Proof.
  unfold string_of_Z. destruct (z <? 0)%Z.
  - eexists _, _. split; reflexivity.
  - destruct (string_of_N_head (Z.abs_N z)) as (c & s & -> & Hc).
    exists c, s. split; [reflexivity|].
    destruct c as [[] [] [] [] [] [] [] []]; try reflexivity; exfalso; apply Hc; reflexivity.
Qed.

Lemma parse_value_number (fuel : nat) (c : ascii) (r : string) :
  number_start c = true →
  parse_value (S fuel) (String c r) =
  match parse_number (String c r) with
  | Some (n, r') => Some (JNum n, r')
  | None => None
  end.
Proof. destruct c as [[] [] [] [] [] [] [] []]; try discriminate; reflexivity. Qed.

Lemma parse_value_quote (fuel : nat) (r : string) :
  parse_value (S fuel) (String DQ r) =
  match parse_chars r with
  | Some (str, r') => Some (JStr str, r')
  | None => None
  end.
Proof. reflexivity. Qed.

Lemma parse_value_bracket (fuel : nat) (r : string) :
  parse_value (S fuel) (String "[" r) =
  match expect "]" (skip_ws r) with
  | Some r' => Some (JArr [], r')
  | None =>
      match parse_elements fuel r with
      | Some (xs, r') => Some (JArr xs, r')
      | None => None
      end
  end.
Proof. reflexivity. Qed.

Lemma parse_value_brace (fuel : nat) (r : string) :
  parse_value (S fuel) (String "{" r) =
  match expect "}" (skip_ws r) with
  | Some r' => Some (JObj [], r')
  | None =>
      match parse_members fuel r [] with
      | Some (props, r') => Some (JObj props, r')
      | None => None
      end
  end.
Proof. reflexivity. Qed.

Lemma join_comma_cons (p : string) (ps : list string) (rest : string) :
  ∃ tail, join_comma (p :: ps) +:+ rest = p +:+ tail.
Proof.
  destruct ps as [|q ps].
  - exists rest. reflexivity.
  - exists ("," +:+ join_comma (q :: ps) +:+ rest).
    change (join_comma (p :: q :: ps)) with (p +:+ "," +:+ join_comma (q :: ps)).
    rewrite !app_assoc_s. reflexivity.
Qed.

Lemma Forall_modus_ponens {A} (P Q : A → Prop) (l : list A) :
  Forall (λ x, P x → Q x) l → Forall P l → Forall Q l.
Proof.
  induction 1 as [|x l Hx _ IH]; intros HP; [constructor|].
  apply Forall_cons in HP as [? ?]. constructor; auto.
Qed.

Ltac norm_app := repeat (rewrite app_assoc_s || rewrite app_cons || rewrite app_empty_l).

Theorem reads_back_wf (v : json) : wf v → reads_back v.
Proof.
  induction v as [| b | n | s | xs IH | props IH] using json_induction;
    intros Hwf fuel rest Hfuel Hrest;
    (destruct fuel as [|fuel]; [cbn in Hfuel; lia|]).
  - reflexivity.
  - destruct b; reflexivity.
  - cbn [stringify].
    destruct (string_of_Z_number_start n) as (c & s & E & Hc).
    pose proof (parse_number_string_of_Z n rest Hrest) as Hp.
    rewrite E in *. rewrite app_cons in *.
    rewrite parse_value_number by exact Hc. rewrite Hp. reflexivity.
  - cbn [stringify]. unfold quote. norm_app.
    rewrite parse_value_quote, parse_chars_quote_chars. reflexivity.
  - inversion Hwf as [| | | | ? Hxs |]; subst.
    pose proof (Forall_modus_ponens _ _ _ IH Hxs) as Hall.
    cbn [stringify]. norm_app.
    rewrite parse_value_bracket.
    destruct xs as [|x xs]; [reflexivity|].
    destruct (join_comma_cons (stringify x) (List.map stringify xs) (String "]" rest))
      as [tail Htail].
    cbn [List.map]. rewrite Htail at 1. rewrite skip_ws_stringify.
    destruct (stringify_head x) as (c & s' & Hs & Hc). rewrite Hs at 1.
    rewrite app_cons, expect_close_value_start by (reflexivity || exact Hc).
    change (stringify x :: List.map stringify xs) with (List.map stringify (x :: xs)).
    rewrite reads_back_elements; [reflexivity | congruence | exact Hall |].
    cbn [cost] in Hfuel. lia.
  - inversion Hwf as [| | | | | ? Horder Hprops]; subst.
    pose proof (Forall_modus_ponens _ _ _ IH Hprops) as Hall.
    cbn [stringify]. norm_app.
    rewrite parse_value_brace.
    destruct props as [|[k v] props]; [reflexivity|].
    destruct (join_comma_cons (member (k, v)) (List.map member props) (String "}" rest))
      as [tail Htail].
    change (List.map (λ kv, quote (fst kv) +:+ ":" +:+ stringify (snd kv)) ((k, v) :: props))
      with (member (k, v) :: List.map member props).
    rewrite Htail at 1. unfold member at 1, quote. norm_app.
    rewrite skip_ws_nonws by reflexivity.
    change (expect "}" (String DQ ?r)) with (@None string).
    change (member (k, v) :: List.map member props) with (List.map member ((k, v) :: props)).
    rewrite reads_back_members; [| congruence | exact Hall | cbn [cost] in Hfuel; lia].
    unfold property_order, obj_of_members in Horder. rewrite Horder. reflexivity.
Qed.

Lemma length_value_start (v : json) : (1 ≤ String.length (stringify v))%nat.
Proof. destruct (stringify_head v) as (c & s & -> & _). cbn. lia. Qed.

Lemma length_join_comma_cost (xs : list json) :
  Forall (λ x, (cost x ≤ String.length (stringify x))%nat) xs →
  (list_sum (List.map (λ x, S (cost x)) xs)
   ≤ S (String.length (join_comma (List.map stringify xs))))%nat.
Proof.
  induction 1 as [|x xs Hx _ IH]; [cbn; lia|].
  destruct xs as [|y ys].
  - cbn [List.map list_sum fold_right join_comma]. lia.
  - change (join_comma (List.map stringify (x :: y :: ys)))
      with (stringify x +:+ "," +:+ join_comma (List.map stringify (y :: ys))).
    rewrite !length_app_s. cbn [List.map list_sum fold_right] in *.
    cbn [String.length]. lia.
Qed.

Lemma length_join_comma_members (props : list (string * json)) :
  Forall (λ kv, (cost (snd kv) ≤ String.length (stringify (snd kv)))%nat) props →
  (list_sum (List.map (λ kv, S (cost (snd kv))) props)
   ≤ S (String.length (join_comma (List.map member props))))%nat.
Proof.
  induction 1 as [|[k v] props Hv _ IH]; [cbn; lia|].
  cbn [snd] in Hv.
  assert (Hm : (S (cost v) ≤ String.length (member (k, v)))%nat).
  { unfold member, quote. cbn [fst snd]. rewrite app_cons. cbn [String.length].
    rewrite !length_app_s. cbn [String.length]. lia. }
  destruct props as [|kv props].
  - cbn [List.map list_sum fold_right join_comma snd]. lia.
  - change (join_comma (List.map member ((k, v) :: kv :: props)))
      with (member (k, v) +:+ "," +:+ join_comma (List.map member (kv :: props))).
    rewrite !length_app_s. cbn [List.map list_sum fold_right snd] in *.
    cbn [String.length]. lia.
Qed.

Lemma cost_le_length (v : json) : (cost v ≤ String.length (stringify v))%nat.
Proof.
  induction v as [| b | n | s | xs IH | props IH] using json_induction;
    try exact (length_value_start _).
  - cbn [cost stringify]. pose proof (length_join_comma_cost xs IH).
    rewrite app_cons. cbn [String.length]. rewrite app_empty_l, length_app_s.
    cbn [String.length]. lia.
  - cbn [cost stringify]. pose proof (length_join_comma_members props IH).
    rewrite app_cons. cbn [String.length]. rewrite app_empty_l, length_app_s.
    cbn [String.length]. unfold member in H. lia.
Qed.

(** [JSON.parse] inverts [JSON.stringify] on every well-formed value. *)
Theorem parse_stringify (v : json) : wf v → parse (stringify v) = Some v.
Proof.
  intros Hwf. unfold parse.
  pose proof (reads_back_wf v Hwf (S (String.length (stringify v))) "") as H.
  rewrite app_empty_r in H. rewrite H; [reflexivity | | exact I].
  pose proof (cost_le_length v). lia.
Qed.

(** *** No line feed in the output of [JSON.stringify] *)

Lemma has_LF_app (a b : string) : has_LF (a +:+ b) = has_LF a || has_LF b.
Proof.
  induction a as [|c a IH]; [reflexivity|].
  rewrite app_cons. cbn [has_LF]. rewrite IH, orb_assoc. reflexivity.
Qed.

Lemma has_LF_quote_char (c : ascii) : has_LF (quote_char c) = false.
Proof. destruct c as [[] [] [] [] [] [] [] []]; reflexivity. Qed.

Lemma has_LF_quote (s : string) : has_LF (quote s) = false.
Proof.
  unfold quote. cbn [has_LF]. rewrite has_LF_app. cbn.
  induction s as [|c s IH]; [reflexivity|].
  cbn [quote_chars]. rewrite has_LF_app, has_LF_quote_char. exact IH.
Qed.

Lemma has_LF_string_of_uint (u : uint) : has_LF (string_of_uint u) = false.
Proof. induction u; cbn; auto. Qed.

Lemma has_LF_string_of_Z (z : Z) : has_LF (string_of_Z z) = false.
Proof.
  unfold string_of_Z, string_of_N. destruct (z <? 0)%Z; cbn [has_LF];
    rewrite has_LF_string_of_uint; reflexivity.
Qed.

Lemma has_LF_join_comma (parts : list string) :
  Forall (λ p, has_LF p = false) parts → has_LF (join_comma parts) = false.
Proof.
  induction 1 as [|p ps Hp _ IH]; [reflexivity|].
  destruct ps as [|q ps]; [exact Hp|].
  change (join_comma (p :: q :: ps)) with (p +:+ "," +:+ join_comma (q :: ps)).
  rewrite !has_LF_app, Hp, IH. reflexivity.
Qed.

Theorem has_LF_stringify (v : json) : has_LF (stringify v) = false.
Proof.
  induction v as [| b | n | s | xs IH | props IH] using json_induction.
  - reflexivity.
  - destruct b; reflexivity.
  - apply has_LF_string_of_Z.
  - apply has_LF_quote.
  - cbn [stringify]. rewrite !has_LF_app, has_LF_join_comma; [reflexivity|].
    apply Forall_map. exact IH.
  - cbn [stringify]. rewrite !has_LF_app, has_LF_join_comma; [reflexivity|].
    apply Forall_map. eapply Forall_impl; [exact IH|].
    intros [k v] Hv. cbn [fst snd] in *. rewrite !has_LF_app, has_LF_quote, Hv. reflexivity.
Qed.

(** *** The fuel of the parser *)

Lemma skip_ws_length (s : string) : (String.length (skip_ws s) ≤ String.length s)%nat.
Proof.
  induction s as [|c s IH]; [reflexivity|].
  cbn [skip_ws]. destruct (is_ws c); cbn [String.length] in *; lia.
Qed.

Lemma expect_length (lit s r : string) :
  expect lit s = Some r → String.length s = (String.length lit + String.length r)%nat.
Proof.
  revert s. induction lit as [|a lit IH]; intros s H.
  - cbn in H. injection H as ->. reflexivity.
  - destruct s as [|b s]; [discriminate|]. cbn [expect] in H.
    destruct (Ascii.eqb a b); [|discriminate]. cbn [String.length]. rewrite (IH _ H). lia.
Qed.

Lemma cons_char_length (c : ascii) (o : option (string * string)) (str r : string) (n : nat) :
  cons_char c o = Some (str, r) →
  (∀ str' r', o = Some (str', r') → (String.length r' < n)%nat) →
  (String.length r < n)%nat.
Proof.
  destruct o as [[str' r']|]; [|discriminate]. cbn. intros H Hn.
  injection H as _ <-. exact (Hn _ _ eq_refl).
Qed.

Lemma parse_chars_length (s str r : string) :
  parse_chars s = Some (str, r) → (String.length r < String.length s)%nat.
Proof.
  remember (String.length s) as n eqn:En. revert s str r En.
  induction n as [n IH] using lt_wf_ind. intros s str r En H.
  destruct s as [|c s]; [discriminate|]. cbn [parse_chars] in H. cbn [String.length] in En.
  destruct (Ascii.eqb c DQ).
  { injection H as _ <-. lia. }
  destruct (Ascii.eqb c "\").
  - destruct s as [|e s1]; [discriminate|].
    destruct (Ascii.eqb e "u").
    + destruct s1 as [|h1 [|h2 [|h3 [|h4 s2]]]]; try discriminate.
      destruct (hex4 h1 h2 h3 h4); [|discriminate].
      cbn [String.length] in En.
      eapply cons_char_length in H; [exact H|]. intros str' r' E.
      pose proof (IH (String.length s2) ltac:(lia) s2 str' r' eq_refl E). lia.
    + destruct (unescape e); [|discriminate]. cbn [String.length] in En.
      eapply cons_char_length in H; [exact H|]. intros str' r' E.
      pose proof (IH (String.length s1) ltac:(lia) s1 str' r' eq_refl E). lia.
  - destruct (N_of_ascii c <? 32)%N; [discriminate|].
    eapply cons_char_length in H; [exact H|]. intros str' r' E.
    pose proof (IH (String.length s) ltac:(lia) s str' r' eq_refl E). lia.
Qed.

Lemma scan_digits_length (s : string) :
  (String.length (snd (scan_digits s)) ≤ String.length s)%nat.
Proof.
  induction s as [|c s IH]; [reflexivity|].
  cbn [scan_digits]. destruct (digit_of c) as [d|]; [|reflexivity].
  destruct (scan_digits s) as [v r]. cbn [snd String.length] in *. lia.
Qed.

Lemma parse_nat_length (s : string) (n : N) (r : string) :
  parse_nat s = Some (n, r) → (String.length r < String.length s)%nat.
Proof.
  destruct s as [|c s]; [discriminate|]. unfold parse_nat.
  destruct (digit_of c) as [d|] eqn:Ed; [|discriminate].
  destruct (Ascii.eqb c "0").
  - intros H. injection H as _ <-. cbn. lia.
  - pose proof (scan_digits_length s) as Hs. cbn [scan_digits]. rewrite Ed.
    destruct (scan_digits s) as [v r']. intros H. injection H as _ <-.
    cbn [snd String.length] in *. lia.
Qed.

Lemma parse_number_length (s : string) (z : Z) (r : string) :
  parse_number s = Some (z, r) → (String.length r < String.length s)%nat.
Proof.
  unfold parse_number. intros H.
  assert (Hcases :
    (∃ s' n, s = String "-" s' ∧ parse_nat s' = Some (n, r)) ∨
    (∃ n, parse_nat s = Some (n, r))).
  { destruct s as [|c s']; [discriminate|].
    destruct (Ascii.eqb_spec c "-") as [->|Hne].
    - left. destruct (parse_nat s') as [[n r']|] eqn:E; [|discriminate].
      injection H as _ <-. eauto.
    - right. destruct (parse_nat (String c s')) as [[n r']|] eqn:E.
      + exists n. f_equal. f_equal.
        destruct c as [[] [] [] [] [] [] [] []]; try (injection H as _ <-; reflexivity);
          exfalso; apply Hne; reflexivity.
      + exfalso. destruct c as [[] [] [] [] [] [] [] []]; try discriminate H.
        apply Hne; reflexivity. }
  destruct Hcases as [(s' & n & -> & E) | (n & E)]; apply parse_nat_length in E;
    cbn [String.length]; lia.
Qed.

Lemma parse_value_dispatch (fuel : nat) (s : string) :
  parse_value (S fuel) s =
  match skip_ws s with
  | EmptyString => None
  | String c r =>
      if Ascii.eqb c "n" then with_rest JNull (expect "ull" r)
      else if Ascii.eqb c "t" then with_rest (JBool true) (expect "rue" r)
      else if Ascii.eqb c "f" then with_rest (JBool false) (expect "alse" r)
      else if Ascii.eqb c DQ then
        match parse_chars r with
        | Some (str, r') => Some (JStr str, r')
        | None => None
        end
      else if Ascii.eqb c "[" then
        match expect "]" (skip_ws r) with
        | Some r' => Some (JArr [], r')
        | None =>
            match parse_elements fuel r with
            | Some (xs, r') => Some (JArr xs, r')
            | None => None
            end
        end
      else if Ascii.eqb c "{" then
        match expect "}" (skip_ws r) with
        | Some r' => Some (JObj [], r')
        | None =>
            match parse_members fuel r [] with
            | Some (props, r') => Some (JObj props, r')
            | None => None
            end
        end
      else
        match parse_number (String c r) with
        | Some (n, r') => Some (JNum n, r')
        | None => None
        end
  end.
Proof.
  cbn [parse_value]. destruct (skip_ws s) as [|c r]; [reflexivity|].
  destruct c as [[] [] [] [] [] [] [] []]; reflexivity.
Qed.

Lemma parse_elements_dispatch (fuel : nat) (s : string) :
  parse_elements (S fuel) s =
  match parse_value fuel s with
  | Some (v, r) =>
      match skip_ws r with
      | EmptyString => None
      | String c r' =>
          if Ascii.eqb c "," then
            match parse_elements fuel r' with
            | Some (vs, r'') => Some (v :: vs, r'')
            | None => None
            end
          else if Ascii.eqb c "]" then Some ([v], r')
          else None
      end
  | None => None
  end.
Proof.
  cbn [parse_elements]. destruct (parse_value fuel s) as [[v r]|]; [|reflexivity].
  destruct (skip_ws r) as [|c r']; [reflexivity|].
  destruct c as [[] [] [] [] [] [] [] []]; reflexivity.
Qed.

Lemma parse_members_dispatch (fuel : nat) (s : string) (obj : list (string * json)) :
  parse_members (S fuel) s obj =
  match skip_ws s with
  | EmptyString => None
  | String q r =>
      if Ascii.eqb q DQ then
        match parse_chars r with
        | Some (k, r1) =>
            match skip_ws r1 with
            | EmptyString => None
            | String colon r2 =>
                if Ascii.eqb colon ":" then
                  match parse_value fuel r2 with
                  | Some (v, r3) =>
                      match skip_ws r3 with
                      | EmptyString => None
                      | String c r4 =>
                          if Ascii.eqb c "," then parse_members fuel r4 (obj_set obj k v)
                          else if Ascii.eqb c "}" then Some (obj_set obj k v, r4)
                          else None
                      end
                  | None => None
                  end
                else None
            end
        | None => None
        end
      else None
  end.
Proof.
  cbn [parse_members]. destruct (skip_ws s) as [|q r]; [reflexivity|].
  destruct q as [[] [] [] [] [] [] [] []]; try reflexivity.
  cbn [Ascii.eqb Bool.eqb DQ].
  destruct (parse_chars r) as [[k r1]|]; [|reflexivity].
  destruct (skip_ws r1) as [|colon r2]; [reflexivity|].
  destruct colon as [[] [] [] [] [] [] [] []]; try reflexivity.
  cbn [Ascii.eqb Bool.eqb].
  destruct (parse_value fuel r2) as [[v r3]|]; [|reflexivity].
  destruct (skip_ws r3) as [|c r4]; [reflexivity|].
  destruct c as [[] [] [] [] [] [] [] []]; reflexivity.
Qed.

Lemma with_rest_Some (v0 v : json) (o : option string) (r : string) :
  with_rest v0 o = Some (v, r) → v = v0 ∧ o = Some r.
Proof. destruct o; [|discriminate]. cbn. intros H. injection H as <- <-. auto. Qed.

Lemma adequate_value_step (fuel : nat) :
  adequate_elements fuel → adequate_members fuel → adequate_value (S fuel).
Proof.
  intros IHe IHm s v r H. rewrite parse_value_dispatch in H.
  pose proof (skip_ws_length s) as Hws.
  destruct (skip_ws s) as [|c r0] eqn:Es; [discriminate|]. cbn [String.length] in Hws.
  assert (Hagain : ∀ f', (1 ≤ f')%nat → ∃ f'', f' = S f'') by (intros [|f'']; [lia | eauto]).
  destruct (Ascii.eqb c "n") eqn:E1.
  { apply with_rest_Some in H as [-> H]. pose proof (expect_length _ _ _ H) as Hl.
    cbn [String.length] in Hl. split; [lia|]. intros f' Hf'.
    destruct (Hagain f' ltac:(lia)) as [f'' ->].
    rewrite parse_value_dispatch, Es, E1, H. reflexivity. }
  destruct (Ascii.eqb c "t") eqn:E2.
  { apply with_rest_Some in H as [-> H]. pose proof (expect_length _ _ _ H) as Hl.
    cbn [String.length] in Hl. split; [lia|]. intros f' Hf'.
    destruct (Hagain f' ltac:(lia)) as [f'' ->].
    rewrite parse_value_dispatch, Es, E1, E2, H. reflexivity. }
  destruct (Ascii.eqb c "f") eqn:E3.
  { apply with_rest_Some in H as [-> H]. pose proof (expect_length _ _ _ H) as Hl.
    cbn [String.length] in Hl. split; [lia|]. intros f' Hf'.
    destruct (Hagain f' ltac:(lia)) as [f'' ->].
    rewrite parse_value_dispatch, Es, E1, E2, E3, H. reflexivity. }
  destruct (Ascii.eqb c DQ) eqn:E4.
  { destruct (parse_chars r0) as [[str r']|] eqn:Ec; [|discriminate].
    injection H as <- <-. pose proof (parse_chars_length _ _ _ Ec) as Hl.
    split; [lia|]. intros f' Hf'. destruct (Hagain f' ltac:(lia)) as [f'' ->].
    rewrite parse_value_dispatch, Es, E1, E2, E3, E4, Ec. reflexivity. }
  destruct (Ascii.eqb c "[") eqn:E5.
  { pose proof (skip_ws_length r0) as Hws0.
    destruct (expect "]" (skip_ws r0)) as [r'|] eqn:Ex.
    - injection H as <- <-. pose proof (expect_length _ _ _ Ex) as Hl.
      cbn [String.length] in Hl. split; [lia|]. intros f' Hf'.
      destruct (Hagain f' ltac:(lia)) as [f'' ->].
      rewrite parse_value_dispatch, Es, E1, E2, E3, E4, E5, Ex. reflexivity.
    - destruct (parse_elements fuel r0) as [[xs r']|] eqn:Ee; [|discriminate].
      injection H as <- <-. destruct (IHe _ _ _ Ee) as [Hl Hre].
      split; [lia|]. intros f' Hf'. destruct (Hagain f' ltac:(lia)) as [f'' ->].
      rewrite parse_value_dispatch, Es, E1, E2, E3, E4, E5, Ex, Hre by lia. reflexivity. }
  destruct (Ascii.eqb c "{") eqn:E6.
  { pose proof (skip_ws_length r0) as Hws0.
    destruct (expect "}" (skip_ws r0)) as [r'|] eqn:Ex.
    - injection H as <- <-. pose proof (expect_length _ _ _ Ex) as Hl.
      cbn [String.length] in Hl. split; [lia|]. intros f' Hf'.
      destruct (Hagain f' ltac:(lia)) as [f'' ->].
      rewrite parse_value_dispatch, Es, E1, E2, E3, E4, E5, E6, Ex. reflexivity.
    - destruct (parse_members fuel r0 []) as [[props r']|] eqn:Em; [|discriminate].
      injection H as <- <-. destruct (IHm _ _ _ _ Em) as [Hl Hre].
      split; [lia|]. intros f' Hf'. destruct (Hagain f' ltac:(lia)) as [f'' ->].
      rewrite parse_value_dispatch, Es, E1, E2, E3, E4, E5, E6, Ex, Hre by lia.
      reflexivity. }
  destruct (parse_number (String c r0)) as [[n r']|] eqn:En; [|discriminate].
  injection H as <- <-. pose proof (parse_number_length _ _ _ En) as Hl.
  cbn [String.length] in Hl. split; [lia|]. intros f' Hf'.
  destruct (Hagain f' ltac:(lia)) as [f'' ->].
  rewrite parse_value_dispatch, Es, E1, E2, E3, E4, E5, E6, En. reflexivity.
Qed.

Lemma adequate_elements_step (fuel : nat) :
  adequate_value fuel → adequate_elements fuel → adequate_elements (S fuel).
Proof.
  intros IHv IHe s vs r H. rewrite parse_elements_dispatch in H.
  assert (Hagain : ∀ f', (1 ≤ f')%nat → ∃ f'', f' = S f'') by (intros [|f'']; [lia | eauto]).
  destruct (parse_value fuel s) as [[v r1]|] eqn:Ev; [|discriminate].
  destruct (IHv _ _ _ Ev) as [Hl1 Hre1].
  pose proof (skip_ws_length r1) as Hws.
  destruct (skip_ws r1) as [|c r2] eqn:Es; [discriminate|]. cbn [String.length] in Hws.
  destruct (Ascii.eqb c ",") eqn:E1.
  { destruct (parse_elements fuel r2) as [[vs' r']|] eqn:Ee; [|discriminate].
    injection H as <- <-. destruct (IHe _ _ _ Ee) as [Hl2 Hre2].
    split; [lia|]. intros f' Hf'. destruct (Hagain f' ltac:(lia)) as [f'' ->].
    rewrite parse_elements_dispatch, Hre1 by lia. rewrite Es, E1, Hre2 by lia. reflexivity. }
  destruct (Ascii.eqb c "]") eqn:E2; [|discriminate].
  injection H as <- <-. split; [lia|]. intros f' Hf'.
  destruct (Hagain f' ltac:(lia)) as [f'' ->].
  rewrite parse_elements_dispatch, Hre1 by lia. rewrite Es, E1, E2. reflexivity.
Qed.

Lemma adequate_members_step (fuel : nat) :
  adequate_value fuel → adequate_members fuel → adequate_members (S fuel).
Proof.
  intros IHv IHm s obj o r H. rewrite parse_members_dispatch in H.
  assert (Hagain : ∀ f', (1 ≤ f')%nat → ∃ f'', f' = S f'') by (intros [|f'']; [lia | eauto]).
  pose proof (skip_ws_length s) as Hws.
  destruct (skip_ws s) as [|q r0] eqn:Es; [discriminate|]. cbn [String.length] in Hws.
  destruct (Ascii.eqb q DQ) eqn:Eq; [|discriminate].
  destruct (parse_chars r0) as [[k r1]|] eqn:Ek; [|discriminate].
  pose proof (parse_chars_length _ _ _ Ek) as Hlk.
  pose proof (skip_ws_length r1) as Hws1.
  destruct (skip_ws r1) as [|colon r2] eqn:Es1; [discriminate|]. cbn [String.length] in Hws1.
  destruct (Ascii.eqb colon ":") eqn:Ecolon; [|discriminate].
  destruct (parse_value fuel r2) as [[v r3]|] eqn:Ev; [|discriminate].
  destruct (IHv _ _ _ Ev) as [Hl3 Hre3].
  pose proof (skip_ws_length r3) as Hws3.
  destruct (skip_ws r3) as [|c r4] eqn:Es3; [discriminate|]. cbn [String.length] in Hws3.
  destruct (Ascii.eqb c ",") eqn:E1.
  { destruct (IHm _ _ _ _ H) as [Hl4 Hre4].
    split; [lia|]. intros f' Hf'. destruct (Hagain f' ltac:(lia)) as [f'' ->].
    rewrite parse_members_dispatch, Es, Eq, Ek, Es1, Ecolon, Hre3 by lia.
    rewrite Es3, E1. apply Hre4. lia. }
  destruct (Ascii.eqb c "}") eqn:E2; [|discriminate].
  injection H as <- <-. split; [lia|]. intros f' Hf'.
  destruct (Hagain f' ltac:(lia)) as [f'' ->].
  rewrite parse_members_dispatch, Es, Eq, Ek, Es1, Ecolon, Hre3 by lia.
  rewrite Es3, E1, E2. reflexivity.
Qed.

Lemma adequate (fuel : nat) :
  adequate_value fuel ∧ adequate_elements fuel ∧ adequate_members fuel.
Proof.
  induction fuel as [|fuel (IHv & IHe & IHm)].
  - split; [|split]; intros ?; intros; discriminate.
  - split; [|split].
    + apply adequate_value_step; assumption.
    + apply adequate_elements_step; assumption.
    + apply adequate_members_step; assumption.
Qed.

(** The fuel [parse] starts with is enough: whatever [parse_value] reads
    with any fuel, it reads with the fuel [parse] gives it. *)
Theorem parse_fuel_enough (fuel : nat) (text : string) (v : json) (rest : string) :
  parse_value fuel text = Some (v, rest) →
  parse_value (S (String.length text)) text = Some (v, rest).
Proof.
  intros H. destruct (adequate fuel) as (Hv & _). destruct (Hv _ _ _ H) as [_ Hre].
  apply Hre. lia.
Qed.

End JSON_codec.

(** ** Text: trimming and splitting a file of lines *)

Module JS_text.
Import JS JSON Node Model.

Lemma trimStart_head (c : ascii) (s : string) :
  isWhiteSpace c = false → trimStart (String c s) = String c s.
Proof. intros H. cbn [trimStart]. rewrite H. reflexivity. Qed.

Lemma trimEnd_snoc_ws (s : string) (c : ascii) :
  isWhiteSpace c = true → trimEnd (s +:+ String c "") = trimEnd s.
Proof.
  intros H. induction s as [|x s IH].
  - rewrite app_empty_l. cbn [trimEnd]. rewrite H. reflexivity.
  - rewrite app_cons. cbn [trimEnd]. rewrite IH. reflexivity.
Qed.

Lemma trimEnd_snoc (s : string) (d : ascii) :
  isWhiteSpace d = false → trimEnd (s +:+ String d "") = s +:+ String d "".
Proof.
  intros H. induction s as [|x s IH].
  - rewrite app_empty_l. cbn [trimEnd]. rewrite H. reflexivity.
  - rewrite app_cons. cbn [trimEnd]. rewrite IH.
    destruct s; reflexivity.
Qed.

Lemma split_LF_line (a b : string) :
  has_LF a = false → split_LF (a +:+ String LF b) = a :: split_LF b.
Proof.
  induction a as [|c a IH]; intros H.
  - reflexivity.
  - cbn [has_LF] in H. apply orb_false_iff in H as [Hc Ha].
    rewrite app_cons. cbn [split_LF]. rewrite Hc, IH by exact Ha. reflexivity.
Qed.

Lemma split_LF_last (a : string) : has_LF a = false → split_LF a = [a].
Proof.
  induction a as [|c a IH]; intros H; [reflexivity|].
  cbn [has_LF] in H. apply orb_false_iff in H as [Hc Ha].
  cbn [split_LF]. rewrite Hc, IH by exact Ha. reflexivity.
Qed.

Lemma jsonl_join_LF (l : string) (ls : list string) :
  jsonl (l :: ls) = join_LF (l :: ls) +:+ ReceiptsLogger.NL.
Proof.
  revert l. induction ls as [|l' ls IH]; intros l.
  - cbn. rewrite app_empty_r. reflexivity.
  - change (jsonl (l :: l' :: ls)) with (l +:+ ReceiptsLogger.NL +:+ jsonl (l' :: ls)).
    change (join_LF (l :: l' :: ls)) with (l +:+ ReceiptsLogger.NL +:+ join_LF (l' :: ls)).
    rewrite IH, !app_assoc_s. reflexivity.
Qed.

Lemma split_LF_join_LF (ls : list string) :
  ls ≠ [] → Forall (λ l, has_LF l = false) ls → split_LF (join_LF ls) = ls.
Proof.
  induction ls as [|l ls IH]; [congruence|]. intros _ Hall.
  apply Forall_cons in Hall as [Hl Hls].
  destruct ls as [|l' ls]; [apply split_LF_last, Hl|].
  change (join_LF (l :: l' :: ls)) with (l +:+ ReceiptsLogger.NL +:+ join_LF (l' :: ls)).
  unfold ReceiptsLogger.NL. rewrite app_cons, app_empty_l.
  rewrite split_LF_line by exact Hl. rewrite IH; [reflexivity | congruence | exact Hls].
Qed.

Lemma join_LF_first (l : string) (ls : list string) (c : ascii) (s : string) :
  l = String c s → ∃ s', join_LF (l :: ls) = String c s'.
Proof.
  intros ->. destruct ls as [|l' ls]; [eexists; reflexivity|].
  change (join_LF (String c s :: l' :: ls))
    with (String c s +:+ ReceiptsLogger.NL +:+ join_LF (l' :: ls)).
  rewrite app_cons. eexists; reflexivity.
Qed.

Lemma join_LF_last (ls : list string) (l : string) (s : string) (d : ascii) :
  l = s +:+ String d "" → ∃ s', join_LF (ls ++ [l]) = s' +:+ String d "".
Proof.
  intros ->. induction ls as [|x ls [s' IH]].
  - exists s. reflexivity.
  - destruct ls as [|y ls].
    + exists (x +:+ ReceiptsLogger.NL +:+ s). cbn [app join_LF]. rewrite !app_assoc_s. reflexivity.
    + exists (x +:+ ReceiptsLogger.NL +:+ s').
      change (join_LF ((x :: y :: ls) ++ [s +:+ String d ""]))
        with (x +:+ ReceiptsLogger.NL +:+ join_LF ((y :: ls) ++ [s +:+ String d ""])).
      rewrite IH, !app_assoc_s. reflexivity.
Qed.

(** The lines of a file of plain lines are those lines, when [trim] has
    nothing to remove at the start of the first and at the end of the last. *)
Theorem lines_of_jsonl_plain (ls : list string) :
  Forall plain_line ls →
  (∀ l, head ls = Some l → starts_clean l) →
  (∀ l, last ls = Some l → ends_clean l) →
  ReceiptsLogger.lines_of (jsonl ls) = ls.
Proof.
  intros Hall Hhead Hlast. unfold ReceiptsLogger.lines_of.
  destruct ls as [|l ls]; [reflexivity|].
  assert (HLF : Forall (λ l, has_LF l = false) (l :: ls)).
  { eapply Forall_impl; [exact Hall|]. intros ? [? _]. assumption. }
  assert (Hne : Forall (λ l, nonempty l = true) (l :: ls)).
  { eapply Forall_impl; [exact Hall|]. intros ? [_ ?]. assumption. }
  rewrite jsonl_join_LF. unfold trim.
  assert (Hstart : trimStart (join_LF (l :: ls) +:+ ReceiptsLogger.NL)
                   = join_LF (l :: ls) +:+ ReceiptsLogger.NL).
  { destruct (Hhead l eq_refl) as (c & s & Hl & Hc).
    destruct (join_LF_first l ls c _ Hl) as [s' ->].
    rewrite app_cons. apply trimStart_head, Hc. }
  rewrite Hstart. unfold ReceiptsLogger.NL. rewrite trimEnd_snoc_ws by reflexivity.
  assert (Hend : trimEnd (join_LF (l :: ls)) = join_LF (l :: ls)).
  { destruct (exists_last (l:=l :: ls)) as (ls0 & l0 & E); [discriminate|].
    rewrite E in *.
    destruct (Hlast l0 (last_snoc _ _)) as (s & d & Hl0 & Hd).
    destruct (join_LF_last ls0 l0 s d Hl0) as [s' ->].
    apply trimEnd_snoc, Hd. }
  rewrite Hend, split_LF_join_LF by (congruence || exact HLF).
  unfold Array_filter. apply forallb_filter_id. apply forallb_forall.
  intros x Hx. rewrite Forall_forall in Hne. apply Hne. apply list_elem_of_In. exact Hx.
Qed.

Lemma record_line_plain (l : string) :
  record_line l → plain_line l ∧ starts_clean l ∧ ends_clean l.
Proof.
  intros (HLF & c & inner & d & -> & Hc & Hd). split; [split; [exact HLF | reflexivity]|].
  split; [exists c, (inner +:+ String d ""); auto|].
  exists (String c inner), d. rewrite app_cons. auto.
Qed.

(** The lines of a file of records are the records' lines. *)
Theorem lines_of_jsonl (ls : list string) :
  Forall record_line ls → ReceiptsLogger.lines_of (jsonl ls) = ls.
Proof.
  intros Hall. rewrite Forall_forall in Hall. apply lines_of_jsonl_plain.
  - apply Forall_forall. intros l Hl. apply record_line_plain, Hall, Hl.
  - intros l Hl. apply record_line_plain, Hall. apply head_Some in Hl as [? ->]. left.
  - intros l Hl. apply record_line_plain, Hall. apply last_Some_elem_of, Hl.
Qed.

End JS_text.

(** ** The methods of the logger *)

Module Logger_facts.
Import JS JSON Node Model ReceiptsLogger.

Lemma logReceipt_shape (this : t) (r : Receipt.t) :
  logReceipt this r =
  append_with (receiptsFile this) "[ReceiptsLogger] Failed to log receipt:"
    (stringify (Receipt.toJS r) +:+ NL).
Proof. reflexivity. Qed.

Lemma logError_shape (this : t) (e : ErrorLog.t) :
  logError this e =
  append_with (errorsFile this) "[ReceiptsLogger] Failed to log error:"
    (stringify (ErrorLog.toJS e) +:+ NL).
Proof. reflexivity. Qed.

Lemma readReceipts_shape (this : t) :
  readReceipts this =
  read_with (receiptsFile this) "[ReceiptsLogger] Failed to read receipts:"
    "[ReceiptsLogger] Failed to parse receipt line:" (λ lines, lines).
Proof. reflexivity. Qed.

Lemma getRecentReceipts_shape (this : t) (count : Z) :
  getRecentReceipts this count =
  read_with (receiptsFile this) "[ReceiptsLogger] Failed to read recent receipts:"
    "[ReceiptsLogger] Failed to parse receipt line:" (λ lines, Array_slice lines (- count)).
Proof. reflexivity. Qed.

Lemma readErrors_shape (this : t) :
  readErrors this =
  read_with (errorsFile this) "[ReceiptsLogger] Failed to read errors:"
    "[ReceiptsLogger] Failed to parse error line:" (λ lines, lines).
Proof. reflexivity. Qed.

Lemma World_eta (w : World) :
  mkWorld (files w) (dirs w) (console w) (cwd w) (faults w) = w.
Proof. destruct w; reflexivity. Qed.

Lemma diagnostics_of_cons_ok (label l : string) (ls : list string) (v : json) :
  parse l = Some v → diagnostics_of label (l :: ls) = diagnostics_of label ls.
Proof. intros E. unfold diagnostics_of, fails_to_parse. cbn [List.filter]. rewrite E. reflexivity. Qed.

Lemma diagnostics_of_cons_fail (label l : string) (ls : list string) :
  parse l = None →
  diagnostics_of label (l :: ls) = [label; l] :: diagnostics_of label ls.
Proof. intros E. unfold diagnostics_of, fails_to_parse. cbn [List.filter]. rewrite E. reflexivity. Qed.

Lemma parse_line_ok (label l : string) (v : json) (w : World) :
  parse l = Some v → parse_line label l w = (Return v, w).
Proof. intros E. unfold parse_line, try_catch, JSON_parse. rewrite E. reflexivity. Qed.

Lemma parse_line_fail (label l : string) (w : World) :
  parse l = None →
  parse_line label l w = (Return JNull, set_console (console w ++ [[label; l]]) w).
Proof. intros E. unfold parse_line, try_catch, JSON_parse. rewrite E. reflexivity. Qed.

Lemma Array_map_parse_line (label : string) (lines : list string) (w : World) :
  Array_map (parse_line label) lines w =
  (Return (List.map (λ l, default JNull (parse l)) lines),
   set_console (console w ++ diagnostics_of label lines) w).
Proof.
  revert w. induction lines as [|l lines IH]; intros w.
  - cbn. unfold ret, set_console. rewrite app_nil_r, World_eta. reflexivity.
  - cbn [Array_map List.map]. unfold bind at 1.
    destruct (parse l) as [v|] eqn:E.
    + rewrite (parse_line_ok _ _ _ _ E), (diagnostics_of_cons_ok _ _ _ _ E).
      unfold bind. rewrite IH. reflexivity.
    + rewrite (parse_line_fail _ _ _ E), (diagnostics_of_cons_fail _ _ _ E).
      unfold bind. rewrite IH. unfold ret, set_console.
      cbn [console files dirs cwd faults default]. rewrite <- app_assoc. reflexivity.
Qed.

Lemma filter_not_null_values (lines : list string) :
  Array_filter not_null (List.map (λ l, default JNull (parse l)) lines) = values_of lines.
Proof.
  unfold Array_filter. induction lines as [|l lines IH]; [reflexivity|].
  cbn [List.map List.filter values_of]. rewrite IH.
  destruct (parse l) as [v|]; [|reflexivity].
  change (default JNull (Some v)) with v.
  unfold not_null. destruct (is_null v); reflexivity.
Qed.

Lemma pending_cases (w : World) :
  pending w = None → faults w = [] ∨ ∃ rest, faults w = None :: rest.
Proof.
  unfold pending. destruct (faults w) as [|[f|] rest]; [auto | discriminate | eauto].
Qed.

Lemma next_fault_ok (w : World) :
  pending w = None → next_fault w = (Return None, set_faults (tail (faults w)) w).
Proof.
  intros H. unfold next_fault.
  destruct (pending_cases w H) as [E | [rest E]]; rewrite E; cbn [tail]; [|reflexivity].
  unfold set_faults. rewrite <- E, World_eta. reflexivity.
Qed.

Lemma next_fault_fault (w : World) (f : Fault) (rest : list (option Fault)) :
  faults w = Some f :: rest → next_fault w = (Return (Some f), set_faults rest w).
Proof. intros E. unfold next_fault. rewrite E. reflexivity. Qed.

Lemma existsSync_absent (path : string) (w : World) :
  files w !! path = None → path ∉ dirs w → fs_existsSync path w = (Return false, w).
Proof.
  intros Hf Hd. unfold fs_existsSync. rewrite Hf.
  rewrite bool_decide_eq_false_2 by (intros [? ?]; discriminate).
  rewrite bool_decide_eq_false_2 by exact Hd. reflexivity.
Qed.

Lemma existsSync_file (path content : string) (w : World) :
  files w !! path = Some content → fs_existsSync path w = (Return true, w).
Proof.
  intros Hf. unfold fs_existsSync. rewrite Hf.
  rewrite bool_decide_eq_true_2 by eauto. reflexivity.
Qed.

Lemma read_with_absent (path lr lp : string) (sel : list string → list string) (w : World) :
  files w !! path = None → path ∉ dirs w →
  read_with path lr lp sel w = (Return [], w).
Proof.
  intros Hf Hd. unfold read_with, try_catch, bind at 1.
  rewrite existsSync_absent by assumption. reflexivity.
Qed.

Lemma read_with_fault (path lr lp : string) (sel : list string → list string)
    (w : World) (f : Fault) (rest : list (option Fault)) :
  is_Some (files w !! path) ∨ path ∈ dirs w →
  faults w = Some f :: rest →
  read_with path lr lp sel w =
  (Return [], set_console (console w ++ [[lr; fault_message f]]) (set_faults rest w)).
Proof.
  intros Hex Hf. unfold read_with, try_catch, bind at 1, fs_existsSync.
  assert (Hb : bool_decide (is_Some (files w !! path)) || bool_decide (path ∈ dirs w) = true).
  { apply orb_true_iff. destruct Hex; [left | right]; apply bool_decide_eq_true_2; assumption. }
  rewrite Hb. cbn [negb]. unfold bind at 1, fs_readFileSync, bind at 1.
  rewrite (next_fault_fault _ _ _ Hf).
  destruct f; reflexivity.
Qed.

Lemma read_with_ok (path lr lp : string) (sel : list string → list string)
    (w : World) (content : string) :
  files w !! path = Some content → pending w = None →
  read_with path lr lp sel w =
  (Return (values_of (sel (lines_of content))),
   set_console (console w ++ diagnostics_of lp (sel (lines_of content)))
     (set_faults (tail (faults w)) w)).
Proof.
  intros Hf Hp. unfold read_with, try_catch, bind at 1.
  rewrite (existsSync_file _ _ _ Hf). cbn [negb].
  unfold bind at 1, fs_readFileSync, bind at 1.
  rewrite (next_fault_ok _ Hp).
  change (files (set_faults (tail (faults w)) w)) with (files w). rewrite Hf.
  unfold bind at 1. rewrite Array_map_parse_line.
  unfold bind, ret. rewrite filter_not_null_values. reflexivity.
Qed.

(** A read always returns, and leaves the files and directories alone. *)
Lemma read_with_returns (path lr lp : string) (sel : list string → list string) (w : World) :
  ∃ vs w', read_with path lr lp sel w = (Return vs, w') ∧
           files w' = files w ∧ dirs w' = dirs w.
Proof.
  unfold read_with, try_catch, bind at 1, fs_existsSync.
  destruct (bool_decide (is_Some (files w !! path)) || bool_decide (path ∈ dirs w));
    cbn [negb]; [|eexists _, _; split; [reflexivity | split; reflexivity]].
  unfold bind at 1, fs_readFileSync, bind at 1, next_fault.
  destruct (faults w) as [|[f|] rest] eqn:Ef.
  - destruct (files w !! path) as [content|] eqn:Ec.
    + unfold bind at 1. rewrite Array_map_parse_line.
      eexists _, _; split; [reflexivity | split; reflexivity].
    + eexists _, _; split; [reflexivity | split; reflexivity].
  - destruct f; eexists _, _; (split; [reflexivity | split; reflexivity]).
  - change (files (set_faults rest w)) with (files w).
    destruct (files w !! path) as [content|] eqn:Ec.
    + unfold bind at 1. rewrite Array_map_parse_line.
      eexists _, _; split; [reflexivity | split; reflexivity].
    + eexists _, _; split; [reflexivity | split; reflexivity].
Qed.

Lemma append_with_caught (path label line : string) (w w1 : World) (e : Error) :
  fs_appendFileSync path line w = (Throw e, w1) →
  append_with path label line w =
  (Return tt, set_console (console w1 ++ [[label; message e]]) w1).
Proof. intros H. unfold append_with, try_catch. rewrite H. reflexivity. Qed.

Lemma append_with_done (path label line : string) (w w1 : World) :
  fs_appendFileSync path line w = (Return tt, w1) →
  append_with path label line w = (Return tt, w1).
Proof. intros H. unfold append_with, try_catch. rewrite H. reflexivity. Qed.

Lemma appendFileSync_ok (path line : string) (w : World) :
  open_error (dirs w) path = None → pending w = None →
  fs_appendFileSync path line w =
  (Return tt,
   set_files (<[path := file_text w path +:+ line]> (files w))
     (set_faults (tail (faults w)) w)).
Proof.
  intros Hd Hp. unfold fs_appendFileSync, bind. rewrite (next_fault_ok _ Hp).
  change (dirs (set_faults (tail (faults w)) w)) with (dirs w).
  rewrite Hd. reflexivity.
Qed.

Lemma prefix_of_length (s : string) : prefix_of (String.length s) s = s.
Proof.
  unfold prefix_of. induction s as [|c s IH]; [reflexivity|].
  cbn [String.length String.substring]. rewrite IH. reflexivity.
Qed.

Lemma appendFileSync_appended (path data : string) (w : World) :
  ∃ c w', fs_appendFileSync path data w = (c, w') ∧ appended path data w w' ∧
          console w' = console w.
Proof.
  unfold fs_appendFileSync, bind, next_fault, appended.
  destruct (faults w) as [|[[msg|msg n]|] rest] eqn:Ef.
  - destruct (open_error (dirs w) path).
    + eexists _, _. split; [reflexivity|]. repeat split. left. reflexivity.
    + eexists _, _. split; [reflexivity|]. repeat split.
      right. exists (String.length data). rewrite prefix_of_length. reflexivity.
  - eexists _, _. split; [reflexivity|]. repeat split. left. reflexivity.
  - change (dirs (set_faults rest w)) with (dirs w).
    destruct (open_error (dirs w) path).
    + eexists _, _. split; [reflexivity|]. repeat split. left. reflexivity.
    + eexists _, _. split; [reflexivity|]. repeat split. right. exists n. reflexivity.
  - change (dirs (set_faults rest w)) with (dirs w).
    destruct (open_error (dirs w) path).
    + eexists _, _. split; [reflexivity|]. repeat split. left. reflexivity.
    + eexists _, _. split; [reflexivity|]. repeat split.
      right. exists (String.length data). rewrite prefix_of_length. reflexivity.
Qed.

(** An append method always returns, whatever the platform does. *)
Lemma append_with_returns (path label line : string) (w : World) :
  ∃ w', append_with path label line w = (Return tt, w') ∧ appended path line w w'.
Proof.
  destruct (appendFileSync_appended path line w) as (c & w1 & E & Happ & _).
  destruct c as [[]|e].
  - exists w1. split; [apply append_with_done, E | exact Happ].
  - eexists. split; [apply append_with_caught, E | exact Happ].
Qed.

Lemma appended_other (path data p : string) (w w' : World) :
  appended path data w w' → p ≠ path → files w' !! p = files w !! p.
Proof.
  intros (_ & _ & [-> | [n ->]]) Hne; [reflexivity|].
  apply lookup_insert_ne. congruence.
Qed.

Lemma appended_prefix (path data p : string) (w w' : World) :
  appended path data w w' →
  (∃ suffix, file_text w' p = file_text w p +:+ suffix) ∧
  (is_Some (files w !! p) → is_Some (files w' !! p)).
Proof.
  intros (_ & _ & [E | [n E]]); unfold file_text; rewrite E.
  - split; [exists ""; rewrite app_empty_r; reflexivity | auto].
  - destruct (decide (p = path)) as [->|Hne].
    + rewrite lookup_insert_eq. cbn [default]. split; [eexists; reflexivity | eauto].
    + rewrite lookup_insert_ne by congruence.
      split; [exists ""; rewrite app_empty_r; reflexivity | auto].
Qed.

(** *** The constructor *)

Lemma has_slash_app (a b : string) : has_slash (a +:+ b) = has_slash a || has_slash b.
Proof.
  induction a as [|c a IH]; [reflexivity|].
  rewrite app_cons. cbn [has_slash]. rewrite IH, orb_assoc. reflexivity.
Qed.

Lemma dirname_path_join (dir name : string) :
  has_slash name = false → dirname (path_join dir name) = dir.
Proof.
  intros Hn. unfold path_join. induction dir as [|c dir IH].
  - rewrite app_empty_l. cbn [dirname]. rewrite Hn. reflexivity.
  - rewrite app_cons. cbn [dirname]. rewrite has_slash_app. cbn [has_slash].
    rewrite Ascii.eqb_refl, orb_true_r, IH. reflexivity.
Qed.

Lemma path_join_inj (dir a b : string) : path_join dir a = path_join dir b → a = b.
Proof.
  unfold path_join. induction dir as [|c dir IH]; rewrite ?app_empty_l, ?app_cons.
  - congruence.
  - intros H. injection H as H. exact (IH H).
Qed.

Lemma constructor_returns (w0 w1 : World) (this : t) :
  constructor w0 = (Return this, w1) →
  receiptsFile this = path_join (storageDir w0) "receipts.jsonl" ∧
  errorsFile this = path_join (storageDir w0) "errors.jsonl" ∧
  files w1 = files w0 ∧
  (dirs w1 = dirs w0 ∨ dirs w1 = {[storageDir w0]} ∪ dirs w0) ∧
  (files w0 !! storageDir w0 = None → storageDir w0 ∈ dirs w1).
Proof.
  unfold constructor, bind at 1, process_cwd, bind at 1, fs_existsSync, storageDir.
  destruct (files w0 !! path_join (cwd w0) "storage") as [x|] eqn:Ef.
  - rewrite bool_decide_eq_true_2 by eauto. cbn [orb negb].
    unfold bind, ret. intros H. injection H as <- <-. repeat split; [auto | discriminate].
  - rewrite bool_decide_eq_false_2 by (intros [? ?]; discriminate). cbn [orb].
    destruct (bool_decide (path_join (cwd w0) "storage" ∈ dirs w0)) eqn:Ed; cbn [negb].
    + unfold bind, ret. intros H. injection H as <- <-. repeat split; [auto|].
      intros _. apply bool_decide_eq_true_1 in Ed. exact Ed.
    + unfold bind at 1, fs_mkdirSync, bind at 1, next_fault.
      destruct (faults w0) as [|[[msg|msg n]|] rest]; try discriminate;
        unfold bind, ret; intros H; injection H as <- <-; repeat split;
        cbn [dirs set_dirs set_faults]; [auto | set_solver | auto | set_solver].
Qed.

Lemma constructor_paths (w0 w1 : World) (this : t) :
  constructor w0 = (Return this, w1) →
  receiptsFile this ≠ errorsFile this ∧
  dirname (receiptsFile this) = storageDir w0 ∧
  dirname (errorsFile this) = storageDir w0.
Proof.
  intros H. destruct (constructor_returns _ _ _ H) as (-> & -> & _).
  split; [|split].
  - intros E. apply path_join_inj in E. discriminate.
  - apply dirname_path_join. reflexivity.
  - apply dirname_path_join. reflexivity.
Qed.

(** The constructor, whether it returns or throws, leaves every file as it
    was. *)
Lemma constructor_files (w : World) : files (snd (constructor w)) = files w.
Proof.
  unfold constructor, bind at 1, process_cwd, bind at 1, fs_existsSync.
  destruct (bool_decide (is_Some (files w !! path_join (cwd w) "storage"))
            || bool_decide (path_join (cwd w) "storage" ∈ dirs w)); cbn [negb].
  - reflexivity.
  - unfold bind at 1, fs_mkdirSync, bind at 1, next_fault.
    destruct (faults w) as [|[[msg|msg n]|] rest]; reflexivity.
Qed.

Lemma path_join_longer (dir name : string) : path_join dir name ≠ dir.
Proof.
  intros E. apply (f_equal String.length) in E.
  unfold path_join in E. rewrite length_app_s in E. cbn [String.length] in E. lia.
Qed.

(** After the constructor both files can be opened for appending, unless
    something else stands at one of the three paths. *)
Lemma constructor_opens (w0 w1 : World) (this : t) :
  constructor w0 = (Return this, w1) →
  files w0 !! storageDir w0 = None →
  receiptsFile this ∉ dirs w0 → errorsFile this ∉ dirs w0 →
  open_error (dirs w1) (receiptsFile this) = None ∧
  open_error (dirs w1) (errorsFile this) = None.
Proof.
  intros Hc Hfree Hr He.
  destruct (constructor_paths _ _ _ Hc) as (_ & Dr & De).
  destruct (constructor_returns _ _ _ Hc) as (Er & Ee & _ & Hdirs & Hin).
  specialize (Hin Hfree).
  assert (Hr1 : receiptsFile this ∉ dirs w1).
  { destruct Hdirs as [-> | ->]; [exact Hr|].
    intros Hin'. apply elem_of_union in Hin' as [Hs | Hd]; [|exact (Hr Hd)].
    apply elem_of_singleton in Hs. rewrite Er in Hs. exact (path_join_longer _ _ Hs). }
  assert (He1 : errorsFile this ∉ dirs w1).
  { destruct Hdirs as [-> | ->]; [exact He|].
    intros Hin'. apply elem_of_union in Hin' as [Hs | Hd]; [|exact (He Hd)].
    apply elem_of_singleton in Hs. rewrite Ee in Hs. exact (path_join_longer _ _ Hs). }
  unfold open_error. rewrite Dr, De.
  rewrite !(bool_decide_eq_false_2 _ Hr1), !(bool_decide_eq_false_2 _ He1).
  rewrite !(bool_decide_eq_true_2 _ Hin). split; reflexivity.
Qed.

End Logger_facts.

(** ** The records *)

Module Record_facts.
Import JS JSON Node Model ReceiptsLogger JSON_codec JS_text Logger_facts.

Lemma wf_optional (k : string) (o : option json) :
  match o with Some p => wf p | None => True end →
  Forall (λ kv, wf (snd kv)) (Receipt.optional k o).
Proof. destruct o; intros H; repeat constructor; exact H. Qed.

Lemma wf_receipt (r : Receipt.t) : valid_receipt r → wf (Receipt.toJS r).
Proof.
  intros [Hi Hp]. destruct r as [ts address i ch nonce hash p fee]. cbn in *.
  unfold Receipt.toJS. cbn [Receipt.ts Receipt.address Receipt.addressIndex
    Receipt.challenge_id Receipt.nonce Receipt.hash Receipt.crypto_receipt Receipt.isDevFee].
  constructor.
  - destruct i, p, fee; reflexivity.
  - repeat (apply Forall_app; split);
      try (apply wf_optional);
      try (repeat (apply List.Forall_cons; [apply wf_str|]); apply List.Forall_nil).
    + destruct i; [apply wf_num, Hi | exact I].
    + exact Hp.
    + destruct fee; [apply wf_bool | exact I].
Qed.

Lemma record_line_object (props : list (string * json)) :
  record_line (stringify (JObj props)).
Proof.
  split; [apply has_LF_stringify|].
  cbn [stringify]. eexists "{"%char, _, "}"%char.
  rewrite app_cons, app_empty_l. split; [reflexivity | split; reflexivity].
Qed.

Lemma record_line_receipt (r : Receipt.t) : record_line (receipt_line r).
Proof. apply record_line_object. Qed.

Lemma values_of_objects (vs : list json) :
  Forall (λ v, wf v ∧ is_null v = false) vs →
  values_of (List.map stringify vs) = vs.
Proof.
  induction 1 as [|v vs [Hwf Hnn] _ IH]; [reflexivity|].
  cbn [List.map values_of]. rewrite (parse_stringify v Hwf), Hnn, IH. reflexivity.
Qed.

Lemma values_of_receipts (rs : list Receipt.t) :
  Forall valid_receipt rs →
  values_of (List.map receipt_line rs) = List.map Receipt.toJS rs.
Proof.
  intros H. unfold receipt_line. rewrite <- (List.map_map Receipt.toJS stringify).
  apply values_of_objects. apply Forall_map.
  eapply Forall_impl; [exact H|]. intros r Hr. split; [apply wf_receipt, Hr | reflexivity].
Qed.

Lemma lines_of_receipts (rs : list Receipt.t) :
  lines_of (jsonl (List.map receipt_line rs)) = List.map receipt_line rs.
Proof. apply lines_of_jsonl, Forall_map, Forall_forall. intros r _. apply record_line_receipt. Qed.

Lemma values_of_app (a b : list string) : values_of (a ++ b) = values_of a ++ values_of b.
Proof.
  induction a as [|l a IH]; [reflexivity|].
  cbn [app values_of]. rewrite IH. destruct (parse l) as [v|]; [|reflexivity].
  destruct (is_null v); reflexivity.
Qed.

Lemma values_of_drop_receipts (rs : list Receipt.t) (j : nat) :
  Forall valid_receipt rs →
  values_of (drop j (List.map receipt_line rs)) = drop j (List.map Receipt.toJS rs).
Proof.
  intros H. change (@List.map) with (@fmap list _). rewrite <- !fmap_drop.
  apply values_of_receipts. apply Forall_drop. exact H.
Qed.

(** Two receipts with the same object are the same receipt. *)
Lemma toJS_inj (r1 r2 : Receipt.t) : Receipt.toJS r1 = Receipt.toJS r2 → r1 = r2.
Proof.
  destruct r1 as [t1 a1 [i1|] c1 n1 h1 [p1|] [f1|]],
           r2 as [t2 a2 [i2|] c2 n2 h2 [p2|] [f2|]];
    intros H; inversion H; reflexivity.
Qed.

Lemma parse_receipt_line (r : Receipt.t) :
  valid_receipt r → parse (receipt_line r) = Some (Receipt.toJS r).
Proof. intros Hr. apply parse_stringify, wf_receipt, Hr. Qed.

(** One corrupt line between the lines of two valid receipts. *)
Lemma corrupt_line_between (r1 r2 : Receipt.t) (c label : string) :
  valid_receipt r1 → valid_receipt r2 → plain_line c → parse c = None →
  lines_of (jsonl [receipt_line r1; c; receipt_line r2])
    = [receipt_line r1; c; receipt_line r2] ∧
  values_of [receipt_line r1; c; receipt_line r2] = [Receipt.toJS r1; Receipt.toJS r2] ∧
  diagnostics_of label [receipt_line r1; c; receipt_line r2] = [[label; c]].
Proof.
  intros H1 H2 Hc Hparse.
  destruct (record_line_plain _ (record_line_receipt r1)) as (P1 & S1 & _).
  destruct (record_line_plain _ (record_line_receipt r2)) as (P2 & _ & E2).
  split; [|split].
  - apply lines_of_jsonl_plain.
    + repeat apply List.Forall_cons; try apply List.Forall_nil; assumption.
    + intros l Hl. injection Hl as <-. exact S1.
    + intros l Hl. injection Hl as <-. exact E2.
  - cbn [values_of].
    rewrite (parse_receipt_line r1 H1), (parse_receipt_line r2 H2), Hparse. reflexivity.
  - unfold diagnostics_of, fails_to_parse. cbn [List.filter].
    rewrite (parse_receipt_line r1 H1), (parse_receipt_line r2 H2), Hparse. reflexivity.
Qed.

End Record_facts.

(** ** The store: appends followed by reads *)

Module Store_facts.
Import JS JSON Node Model ReceiptsLogger JSON_codec JS_text Logger_facts Record_facts.
Local Open Scope io_scope.

Lemma logReceipt_ok (this : t) (r : Receipt.t) (w : World) :
  open_error (dirs w) (receiptsFile this) = None → faults w = [] →
  logReceipt this r w =
  (Return tt,
   set_files (<[receiptsFile this :=
                  file_text w (receiptsFile this) +:+ (receipt_line r +:+ NL)]> (files w)) w).
Proof.
  intros Hd Hf. rewrite logReceipt_shape.
  rewrite (append_with_done _ _ _ w _ (appendFileSync_ok _ _ w Hd ltac:(unfold pending; rewrite Hf; reflexivity))).
  rewrite Hf. cbn [tail]. unfold set_faults. rewrite <- Hf, World_eta. reflexivity.
Qed.

Lemma logReceipts_ok (this : t) (rs : list Receipt.t) (w : World) :
  open_error (dirs w) (receiptsFile this) = None → faults w = [] →
  ∃ w', logReceipts this rs w = (Return tt, w') ∧
        file_text w' (receiptsFile this)
        = file_text w (receiptsFile this) +:+ jsonl (List.map receipt_line rs) ∧
        faults w' = [] ∧ dirs w' = dirs w ∧ console w' = console w.
Proof.
  revert w. induction rs as [|r rs IH]; intros w Hd Hf.
  - exists w. cbn. rewrite app_empty_r. auto.
  - cbn [logReceipts]. unfold bind. rewrite (logReceipt_ok _ _ _ Hd Hf).
    match goal with |- context [logReceipts this rs ?w1] =>
      destruct (IH w1) as (w' & E & Ht & Hf' & Hd' & Hc'); [exact Hd | exact Hf |] end.
    exists w'. rewrite E. split; [reflexivity|]. rewrite Ht.
    split; [|auto].
    unfold file_text at 1. cbn [files set_files]. rewrite lookup_insert_eq.
    change (default "" (Some ?x)) with x.
    cbn [List.map jsonl]. rewrite !app_assoc_s. reflexivity.
Qed.

Lemma read_with_no_file (path lr lp : string) (sel : list string → list string) (w : World) :
  files w !! path = None → ∃ w', read_with path lr lp sel w = (Return [], w').
Proof.
  intros Hf. unfold read_with, try_catch, bind at 1, fs_existsSync. rewrite Hf.
  rewrite bool_decide_eq_false_2 by (intros [? ?]; discriminate). cbn [orb].
  destruct (bool_decide (path ∈ dirs w)); cbn [negb]; [|eexists; reflexivity].
  unfold bind at 1, fs_readFileSync, bind at 1, next_fault.
  destruct (faults w) as [|[[msg|msg n]|] rest]; try (eexists; reflexivity).
  - rewrite Hf. eexists; reflexivity.
  - change (files (set_faults rest w)) with (files w). rewrite Hf. eexists; reflexivity.
Qed.

Lemma jsonl_empty (ls : list string) : jsonl ls = "" → ls = [].
Proof.
  destruct ls as [|l ls]; [reflexivity|]. cbn [jsonl]. intros H.
  destruct l; [discriminate H | rewrite app_cons in H; discriminate H].
Qed.

(** Reading a file that holds the records [rs]. *)
Lemma read_holding (this : t) (w : World) (rs : list Receipt.t) (lr lp : string)
    (sel : list string → list string) :
  holds_receipts this w rs → pending w = None → sel [] = [] →
  fst (read_with (receiptsFile this) lr lp sel w)
  = Return (values_of (sel (List.map receipt_line rs))).
Proof.
  intros Hh Hp Hsel. unfold holds_receipts, file_text in Hh.
  destruct (files w !! receiptsFile this) as [content|] eqn:Ef; simpl in Hh.
  - rewrite (read_with_ok _ _ _ _ _ _ Ef Hp). cbn [fst]. rewrite Hh, lines_of_receipts.
    reflexivity.
  - symmetry in Hh. apply jsonl_empty in Hh. apply map_eq_nil in Hh. subst rs.
    destruct (read_with_no_file (receiptsFile this) lr lp sel w Ef) as [w' ->].
    cbn [fst List.map]. rewrite Hsel. reflexivity.
Qed.

Lemma Array_slice_nil {A} (start : Z) : Array_slice (@nil A) start = [].
Proof. unfold Array_slice. apply drop_nil. Qed.

Lemma Array_slice_tail {A} (l : list A) (k : Z) :
  (1 ≤ k)%Z → Array_slice l (- k) = last_n (Z.to_nat k) l.
Proof.
  intros Hk. unfold Array_slice, last_n.
  destruct (Z.ltb_spec (- k) 0); [|lia]. f_equal. lia.
Qed.

Lemma Array_slice_drop {A} (l : list A) (count : Z) :
  (count < 0)%Z → Array_slice l (- count) = drop (Z.to_nat (- count)) l.
Proof.
  intros Hk. unfold Array_slice.
  destruct (Z.ltb_spec (- count) 0); [lia|].
  destruct (Z.min_spec (- count) (Z.of_nat (length l))) as [[? ->] | [? ->]]; [reflexivity|].
  rewrite Nat2Z.id, !drop_ge by lia. reflexivity.
Qed.

Lemma Array_slice_zero {A} (l : list A) : Array_slice l (- 0) = l.
Proof. unfold Array_slice. cbn [Z.opp Z.ltb Z.compare]. rewrite Z.min_l by lia. reflexivity. Qed.

Lemma values_of_length (lines : list string) :
  (length (values_of lines) + length (List.filter fails_to_parse lines) ≤ length lines)%nat.
Proof.
  induction lines as [|l lines IH]; [reflexivity|].
  cbn [values_of List.filter length]. unfold fails_to_parse at 1.
  destruct (parse l) as [v|]; [destruct (is_null v)|]; cbn [length]; lia.
Qed.

Lemma read_with_agree (path lr lp : string) (sel : list string → list string)
    (w w' : World) (s : list (option Fault)) :
  agree_on path w w' →
  fst (read_with path lr lp sel (set_faults s w))
  = fst (read_with path lr lp sel (set_faults s w')).
Proof.
  intros [Hf Hd].
  assert (Hfa : files (set_faults s w) !! path = files w !! path) by reflexivity.
  assert (Hfb : files (set_faults s w') !! path = files w !! path) by (symmetry; exact Hf).
  destruct (files w !! path) as [content|] eqn:Ef.
  - destruct s as [|[f|] rest].
    + rewrite !(read_with_ok _ _ _ _ _ content) by (assumption || reflexivity). reflexivity.
    + rewrite !(read_with_fault _ _ _ _ _ f rest)
        by (reflexivity || (left; rewrite ?Hfa, ?Hfb; eauto)).
      reflexivity.
    + rewrite !(read_with_ok _ _ _ _ _ content) by (assumption || reflexivity). reflexivity.
  - destruct (read_with_no_file path lr lp sel _ Hfa) as [wa ->].
    destruct (read_with_no_file path lr lp sel _ Hfb) as [wb ->].
    reflexivity.
Qed.

Lemma append_with_files (path label line : string) (f : option Fault) (w : World) :
  files (snd (append_with path label line (set_faults [f] w))) =
    match f with
    | Some (Fails _) => files w
    | Some (FailsAfter _ n) =>
        match open_error (dirs w) path with
        | None => <[path := file_text w path +:+ prefix_of n line]> (files w)
        | Some _ => files w
        end
    | None =>
        match open_error (dirs w) path with
        | None => <[path := file_text w path +:+ line]> (files w)
        | Some _ => files w
        end
    end ∧
  dirs (snd (append_with path label line (set_faults [f] w))) = dirs w.
Proof.
  unfold append_with, try_catch, fs_appendFileSync, bind, next_fault.
  cbn [faults set_faults].
  destruct f as [[msg|msg n]|]; [split; reflexivity | |];
    cbn [dirs set_faults]; destruct (open_error (dirs w) path); split; reflexivity.
Qed.

Lemma append_with_agree (path label line : string) (f : option Fault) (wa wb : World) :
  agree_on path wa wb →
  agree_on path (snd (append_with path label line (set_faults [f] wa)))
                (snd (append_with path label line (set_faults [f] wb))).
Proof.
  intros [Hf Hd].
  destruct (append_with_files path label line f wa) as [Ea Da].
  destruct (append_with_files path label line f wb) as [Eb Db].
  split; [|congruence]. rewrite Ea, Eb. unfold file_text. rewrite <- Hd, <- Hf.
  destruct f as [[msg|msg n]|]; [exact Hf | |];
    (destruct (open_error (dirs wa) path);
     [exact Hf | rewrite !lookup_insert_eq; reflexivity]).
Qed.

Lemma append_with_other (path label line q : string) (w : World) :
  q ≠ path → agree_on q (snd (append_with path label line w)) w.
Proof.
  intros Hne. destruct (append_with_returns path label line w) as (w' & -> & Happ).
  split; [exact (appended_other _ _ q _ _ Happ Hne) | apply Happ].
Qed.

Lemma agree_on_trans (p : string) (a b c : World) :
  agree_on p a b → agree_on p b c → agree_on p a c.
Proof. intros [? ?] [? ?]. split; congruence. Qed.

Lemma agree_on_set_faults (p : string) (s : list (option Fault)) (w : World) :
  agree_on p (set_faults s w) w.
Proof. split; reflexivity. Qed.

Lemma run_receipts_agree (this : t) (ops : list Op) (wa wb : World) :
  receiptsFile this ≠ errorsFile this →
  agree_on (receiptsFile this) wa wb →
  agree_on (receiptsFile this) (run this ops wa) (run this (List.filter is_receipt_op ops) wb).
Proof.
  intros Hne. revert wa wb. unfold run.
  induction ops as [|[r f | e f] ops IH]; intros wa wb Hagree; [exact Hagree | |].
  - cbn [List.filter is_receipt_op fold_left]. apply IH.
    unfold run_op. rewrite !logReceipt_shape. apply append_with_agree, Hagree.
  - cbn [List.filter is_receipt_op fold_left]. apply IH.
    unfold run_op. rewrite logError_shape.
    eapply agree_on_trans; [apply append_with_other; exact Hne|].
    eapply agree_on_trans; [apply agree_on_set_faults | exact Hagree].
Qed.

Lemma run_errors_agree (this : t) (ops : list Op) (wa wb : World) :
  receiptsFile this ≠ errorsFile this →
  agree_on (errorsFile this) wa wb →
  agree_on (errorsFile this) (run this ops wa) (run this (List.filter is_error_op ops) wb).
Proof.
  intros Hne. revert wa wb. unfold run.
  induction ops as [|[r f | e f] ops IH]; intros wa wb Hagree; [exact Hagree | |].
  - cbn [List.filter is_error_op is_receipt_op negb fold_left]. apply IH.
    unfold run_op. rewrite logReceipt_shape.
    eapply agree_on_trans; [apply append_with_other; congruence|].
    eapply agree_on_trans; [apply agree_on_set_faults | exact Hagree].
  - cbn [List.filter is_error_op is_receipt_op negb fold_left]. apply IH.
    unfold run_op. rewrite !logError_shape. apply append_with_agree, Hagree.
Qed.

(** With [count = 0] the slice keeps every line: [getRecentReceipts(0)]
    returns what [readReceipts()] returns. *)
Lemma getRecentReceipts_zero (this : t) (w : World) :
  fst (getRecentReceipts this 0 w) = fst (readReceipts this w).
Proof.
  rewrite getRecentReceipts_shape, readReceipts_shape.
  destruct (files w !! receiptsFile this) as [content|] eqn:Ef.
  - destruct (faults w) as [|[f|] rest] eqn:Efaults.
    + rewrite !(read_with_ok _ _ _ _ _ content)
        by (assumption || (unfold pending; rewrite Efaults; reflexivity)).
      cbn [fst]. rewrite Array_slice_zero. reflexivity.
    + rewrite !(read_with_fault _ _ _ _ _ f rest) by (assumption || (left; rewrite Ef; eauto)).
      reflexivity.
    + rewrite !(read_with_ok _ _ _ _ _ content)
        by (assumption || (unfold pending; rewrite Efaults; reflexivity)).
      cbn [fst]. rewrite Array_slice_zero. reflexivity.
  - destruct (read_with_no_file (receiptsFile this)
      "[ReceiptsLogger] Failed to read recent receipts:"
      "[ReceiptsLogger] Failed to parse receipt line:"
      (λ lines, Array_slice lines (- 0)) w Ef) as [wa ->].
    destruct (read_with_no_file (receiptsFile this)
      "[ReceiptsLogger] Failed to read receipts:"
      "[ReceiptsLogger] Failed to parse receipt line:" (λ lines, lines) w Ef) as [wb ->].
    reflexivity.
Qed.

End Store_facts.

(** ** Sessions: appends, reads and the constructor together *)

Module Session_facts.
Import JS JSON Node Model ReceiptsLogger Sessions.
Import JSON_codec JS_text Logger_facts Record_facts Store_facts.
Local Open Scope io_scope.

Lemma wf_error (e : ErrorLog.t) : valid_error e → wf (ErrorLog.toJS e).
Proof.
  intros [Hi Hp]. destruct e as [ts address i ch nonce hash err p]. cbn in *.
  unfold ErrorLog.toJS. cbn [ErrorLog.ts ErrorLog.address ErrorLog.addressIndex
    ErrorLog.challenge_id ErrorLog.nonce ErrorLog.hash ErrorLog.error ErrorLog.response].
  constructor.
  - destruct i, p; reflexivity.
  - repeat (apply Forall_app; split);
      try (apply wf_optional);
      try (repeat (apply List.Forall_cons; [apply wf_str|]); apply List.Forall_nil).
    + destruct i; [apply wf_num, Hi | exact I].
    + exact Hp.
Qed.

Lemma append_with_ok (path label line : string) (w : World) :
  open_error (dirs w) path = None → faults w = [] →
  append_with path label line w =
  (Return tt, set_files (<[path := file_text w path +:+ line]> (files w)) w).
Proof.
  intros Hd Hf.
  rewrite (append_with_done _ _ _ w _
             (appendFileSync_ok _ _ w Hd ltac:(unfold pending; rewrite Hf; reflexivity))).
  rewrite Hf. cbn [tail]. unfold set_faults. rewrite <- Hf, World_eta. reflexivity.
Qed.

Lemma logErrors_ok (this : t) (es : list ErrorLog.t) (w : World) :
  open_error (dirs w) (errorsFile this) = None → faults w = [] →
  ∃ w', logErrors this es w = (Return tt, w') ∧
        file_text w' (errorsFile this)
        = file_text w (errorsFile this) +:+ jsonl (List.map error_line es) ∧
        faults w' = [] ∧ dirs w' = dirs w ∧ console w' = console w.
Proof.
  revert w. induction es as [|e es IH]; intros w Hd Hf.
  - exists w. cbn. rewrite app_empty_r. auto.
  - cbn [logErrors]. unfold bind. rewrite logError_shape, (append_with_ok _ _ _ _ Hd Hf).
    match goal with |- context [logErrors this es ?w1] =>
      destruct (IH w1) as (w' & E & Ht & Hf' & Hd' & Hc'); [exact Hd | exact Hf |] end.
    exists w'. rewrite E. split; [reflexivity|]. rewrite Ht.
    split; [|auto].
    unfold file_text at 1. cbn [files set_files]. rewrite lookup_insert_eq.
    change (default "" (Some ?x)) with x.
    cbn [List.map jsonl]. unfold error_line. rewrite !app_assoc_s. reflexivity.
Qed.

(** Reading a file of record lines. *)
Lemma read_jsonl (path lr lp : string) (ls : list string) (w : World) :
  file_text w path = jsonl ls → Forall record_line ls → pending w = None →
  fst (read_with path lr lp (λ lines, lines) w) = Return (values_of ls).
Proof.
  intros Ht Hls Hp. unfold file_text in Ht.
  destruct (files w !! path) as [content|] eqn:Ef; simpl in Ht.
  - rewrite (read_with_ok _ _ _ _ _ _ Ef Hp). cbn [fst]. rewrite Ht, lines_of_jsonl by exact Hls.
    reflexivity.
  - symmetry in Ht. apply jsonl_empty in Ht. subst ls.
    destruct (read_with_no_file path lr lp (λ lines, lines) w Ef) as [w' ->]. reflexivity.
Qed.


(** *** Trimming and splitting a text made of two parts *)

Lemma trimStart_app_clean (a : string) (c : ascii) (r : string) :
  isWhiteSpace c = false → trimStart (a +:+ String c r) = trimStart a +:+ String c r.
Proof.
  intros Hc. induction a as [|x a IH].
  - rewrite app_empty_l. cbn [trimStart]. rewrite Hc. reflexivity.
  - rewrite app_cons. cbn [trimStart]. destruct (isWhiteSpace x); [exact IH | reflexivity].
Qed.

Lemma trimStart_app_blank (a b : string) :
  trimStart a = "" → trimStart (a +:+ b) = trimStart b.
Proof.
  induction a as [|x a IH]; intros H; [reflexivity|].
  rewrite app_cons. cbn [trimStart] in *. destruct (isWhiteSpace x); [exact (IH H) | discriminate].
Qed.

Lemma trimStart_app (a b : string) :
  trimStart a ≠ "" → trimStart (a +:+ b) = trimStart a +:+ b.
Proof.
  induction a as [|x a IH]; intros H; [contradiction H; reflexivity|].
  rewrite app_cons. cbn [trimStart] in *. destruct (isWhiteSpace x); [exact (IH H) | reflexivity].
Qed.

Lemma trimEnd_app_blank (a b : string) :
  trimEnd b = "" → trimEnd (a +:+ b) = trimEnd a.
Proof.
  intros Hb. induction a as [|x a IH]; [exact Hb|].
  rewrite app_cons. cbn [trimEnd]. rewrite IH. reflexivity.
Qed.

Lemma trimEnd_app (a b : string) :
  trimEnd b ≠ "" → trimEnd (a +:+ b) = a +:+ trimEnd b.
Proof.
  intros Hb. induction a as [|x a IH]; [reflexivity|].
  rewrite !app_cons. cbn [trimEnd]. rewrite IH.
  destruct (a +:+ trimEnd b) eqn:E; [|reflexivity].
  destruct a; [rewrite app_empty_l in E; contradiction | rewrite app_cons in E; discriminate].
Qed.

Lemma trimEnd_LF_blank (b : string) : trimEnd b = "" → trimEnd (String LF b) = "".
Proof. intros H. cbn [trimEnd]. rewrite H. reflexivity. Qed.

Lemma trimEnd_cons (c : ascii) (b : string) :
  trimEnd b ≠ "" → trimEnd (String c b) = String c (trimEnd b).
Proof. intros H. cbn [trimEnd]. destruct (trimEnd b); [contradiction | reflexivity]. Qed.

Lemma split_LF_cons (s : string) : ∃ h t, split_LF s = h :: t.
Proof.
  induction s as [|c s (h & t & IH)]; [eexists _, _; reflexivity|].
  cbn [split_LF]. destruct (Ascii.eqb c LF); [eexists _, _; reflexivity|].
  rewrite IH. eexists _, _; reflexivity.
Qed.

Lemma split_LF_app (a b : string) :
  split_LF (a +:+ String LF b) = split_LF a ++ split_LF b.
Proof.
  induction a as [|c a IH]; [reflexivity|].
  rewrite app_cons. cbn [split_LF]. rewrite IH.
  destruct (Ascii.eqb c LF); [reflexivity|].
  destruct (split_LF_cons a) as (h & t & ->). reflexivity.
Qed.

(** An empty line changes nothing in the lines a read parses. *)
Lemma lines_of_blank_line (a b : string) :
  lines_of (a +:+ NL +:+ NL +:+ b) = lines_of (a +:+ NL +:+ b).
Proof.
  unfold lines_of, trim, NL.
  destruct (trimStart a) as [|x A'] eqn:Ea.
  - rewrite !(trimStart_app_blank a) by exact Ea. reflexivity.
  - assert (Hne : trimStart a ≠ "") by (rewrite Ea; discriminate).
    rewrite !(trimStart_app a) by exact Hne. clear Ea Hne.
    generalize (trimStart a). intros A.
    rewrite !app_cons, !app_empty_l.
    destruct (trimEnd b) as [|y B'] eqn:Eb.
    + rewrite !(trimEnd_app_blank A)
        by (repeat apply trimEnd_LF_blank; exact Eb).
      reflexivity.
    + assert (Hb : trimEnd b ≠ "") by (rewrite Eb; discriminate).
      assert (H1 : trimEnd (String LF b) ≠ "") by (rewrite trimEnd_cons by exact Hb; discriminate).
      rewrite !(trimEnd_app A).
      * rewrite (trimEnd_cons LF (String LF b)) by exact H1.
        rewrite !(trimEnd_cons LF b) by exact Hb.
        rewrite !split_LF_app. unfold Array_filter.
        rewrite !List.filter_app. reflexivity.
      * exact H1.
      * rewrite trimEnd_cons by exact H1. discriminate.
Qed.

Lemma ends_with_LF_snoc (s : string) :
  ends_with_LF s = true → ∃ u, s = u +:+ NL.
Proof.
  induction s as [|c s IH]; [discriminate|].
  destruct s as [|d s].
  - cbn. intros H. apply Ascii.eqb_eq in H. subst c. exists "". reflexivity.
  - intros H. destruct (IH H) as [u Hu]. exists (String c u). rewrite app_cons, <- Hu. reflexivity.
Qed.

Lemma ends_with_LF_trimStart (s : string) :
  ends_with_LF s = true → trimStart s = "" ∨ ends_with_LF (trimStart s) = true.
Proof.
  induction s as [|c s IH]; [discriminate|]. intros H.
  cbn [trimStart]. destruct (isWhiteSpace c) eqn:Ec; [|right; exact H].
  destruct s as [|d s]; [left; reflexivity|]. apply IH. exact H.
Qed.

(** After an append to a text that is empty or ends a line, the last line
    a read parses is the appended line. *)
Lemma lines_of_snoc (text l : string) :
  line_ended text = true → record_line l →
  ∃ ls, lines_of (text +:+ l +:+ NL) = ls ++ [l].
Proof.
  intros Hended (HLF & c & inner & d & -> & Hc & Hd).
  unfold lines_of, trim. rewrite app_cons.
  rewrite (trimStart_app_clean text c _ Hc).
  set (T := trimStart text).
  assert (Hend : trimEnd (T +:+ String c ((inner +:+ String d "") +:+ NL))
                 = T +:+ String c (inner +:+ String d "")).
  { unfold NL.
    replace (T +:+ String c ((inner +:+ String d "") +:+ String LF ""))
      with (((T +:+ String c inner) +:+ String d "") +:+ String LF "")
      by (norm_app; reflexivity).
    rewrite trimEnd_snoc_ws by reflexivity. rewrite trimEnd_snoc by exact Hd.
    norm_app. reflexivity. }
  rewrite Hend. clear Hend.
  set (l := String c (inner +:+ String d "")) in *.
  assert (HT : T = "" ∨ ∃ u, T = u +:+ NL).
  { unfold T. destruct text as [|x text]; [left; reflexivity|].
    cbn [line_ended] in Hended.
    destruct (ends_with_LF_trimStart _ Hended) as [E | E]; [left; exact E|].
    right. apply ends_with_LF_snoc, E. }
  destruct HT as [-> | [u ->]].
  - exists []. rewrite app_empty_l, split_LF_last by exact HLF. reflexivity.
  - exists (Array_filter nonempty (split_LF u)). unfold NL.
    rewrite app_assoc_s. change (String LF "" +:+ l) with (String LF l).
    rewrite split_LF_app, (split_LF_last l) by exact HLF.
    unfold Array_filter. rewrite List.filter_app. reflexivity.
Qed.

Lemma jsonl_app (a b : list string) : jsonl (a ++ b) = jsonl a +:+ jsonl b.
Proof.
  induction a as [|l a IH]; [reflexivity|].
  cbn [app jsonl]. rewrite IH, !app_assoc_s. reflexivity.
Qed.

Lemma has_LF_prefix_of (n : nat) (s : string) : has_LF s = false → has_LF (prefix_of n s) = false.
Proof.
  unfold prefix_of. revert n. induction s as [|c s IH]; intros n H.
  - destruct n; reflexivity.
  - destruct n; [reflexivity|]. cbn [String.substring has_LF] in *.
    apply orb_false_iff in H as [Hc Hs]. rewrite Hc, IH by exact Hs. reflexivity.
Qed.

Lemma prefix_of_app (n : nat) (a b : string) :
  (n ≤ String.length a)%nat → prefix_of n (a +:+ b) = prefix_of n a.
Proof.
  unfold prefix_of. revert n. induction a as [|c a IH]; intros n Hn.
  - cbn in Hn. replace n with 0%nat by lia. destruct b; reflexivity.
  - destruct n; [reflexivity|]. rewrite app_cons. cbn [String.substring].
    rewrite IH by (cbn in Hn; lia). reflexivity.
Qed.

Lemma values_of_le (lines : list string) : (length (values_of lines) ≤ length lines)%nat.
Proof. pose proof (values_of_length lines). lia. Qed.

Lemma Array_slice_is_drop {A} (l : list A) (start : Z) : ∃ j, Array_slice l start = drop j l.
Proof. unfold Array_slice. eexists. reflexivity. Qed.

Lemma append_with_silent (path label line : string) (w : World) :
  console (snd (append_with path label line w)) = console w →
  file_text (snd (append_with path label line w)) path = file_text w path +:+ line.
Proof.
  assert (Hgrow : ∀ x : list string, console w ++ [x] ≠ console w).
  { intros x E. apply (f_equal (@length _)) in E. rewrite length_app in E. cbn in E. lia. }
  unfold append_with, try_catch, fs_appendFileSync, bind, next_fault.
  destruct (faults w) as [|[[msg|msg n]|] rest]; cbn [dirs set_faults];
    try destruct (open_error (dirs w) path);
    cbn [snd console set_console set_files set_faults files console_error];
    intros H; try (exfalso; exact (Hgrow _ H));
    unfold file_text at 1; cbn [files set_files]; rewrite lookup_insert_eq; reflexivity.
Qed.


Lemma append_with_cut (path label line msg : string) (n : nat)
    (rest : list (option Fault)) (w : World) :
  open_error (dirs w) path = None → faults w = Some (FailsAfter msg n) :: rest →
  append_with path label line w =
  (Return tt,
   set_console (console w ++ [[label; msg]])
     (set_files (<[path := file_text w path +:+ prefix_of n line]> (files w))
        (set_faults rest w))).
Proof.
  intros Hd Hf. unfold append_with, try_catch, fs_appendFileSync, bind, next_fault.
  rewrite Hf. cbn [dirs set_faults]. rewrite Hd. reflexivity.
Qed.

Lemma prefix_of_cons (n : nat) (c : ascii) (s : string) :
  prefix_of (S n) (String c s) = String c (prefix_of n s).
Proof. reflexivity. Qed.

(** The start of one object's line followed by another object's line has
    the shape of a record line. *)
Lemma record_line_merged (n : nat) (p q : list (string * json)) :
  (0 < n)%nat →
  record_line (prefix_of n (stringify (JObj p)) +:+ stringify (JObj q)).
Proof.
  intros Hn. split.
  - rewrite has_LF_app, has_LF_prefix_of, has_LF_stringify by apply has_LF_stringify.
    reflexivity.
  - destruct n as [|n]; [lia|]. cbn [stringify].
    rewrite (app_cons "{"), app_empty_l, prefix_of_cons.
    eexists "{"%char, _, "}"%char. split; [|split; reflexivity].
    rewrite app_cons. f_equal.
    rewrite <- !app_assoc_s. reflexivity.
Qed.

(** A read that parses a final part of the lines returns a final part of
    what the read of all the lines returns. *)
Lemma read_with_suffix (path lr lr' lp : string) (sel : list string → list string) (w : World) :
  (∀ l, ∃ j, sel l = drop j l) →
  ∃ older recent,
    fst (read_with path lr' lp sel w) = Return recent ∧
    fst (read_with path lr lp (λ lines, lines) w) = Return (older ++ recent) ∧
    ∀ k, (∀ l, length (sel l) ≤ k)%nat → (length recent ≤ k)%nat.
Proof.
  intros Hsel.
  destruct (files w !! path) as [content|] eqn:Ef.
  - destruct (faults w) as [|[f|] rest] eqn:Efaults.
    1,3: destruct (Hsel (lines_of content)) as [j Hj];
      exists (values_of (take j (lines_of content))), (values_of (sel (lines_of content)));
      rewrite !(read_with_ok _ _ _ _ _ content)
        by (assumption || (unfold pending; rewrite Efaults; reflexivity));
      cbn [fst]; split; [reflexivity|]; split;
      [rewrite Hj, <- values_of_app, take_drop; reflexivity
      | intros k Hk; etransitivity; [apply values_of_le | apply Hk]].
    exists [], [].
    rewrite !(read_with_fault _ _ _ _ _ f rest) by (assumption || (left; rewrite Ef; eauto)).
    split; [reflexivity|]. split; [reflexivity|]. intros; cbn; lia.
  - exists [], [].
    destruct (read_with_no_file path lr' lp sel w Ef) as [wa ->].
    destruct (read_with_no_file path lr lp (λ lines, lines) w Ef) as [wb ->].
    split; [reflexivity|]. split; [reflexivity|]. intros; cbn; lia.
Qed.

(** Two texts with the same lines read alike. *)
Lemma read_with_same_lines (path lr lp t1 t2 : string)
    (sel : list string → list string) (w : World) :
  lines_of t1 = lines_of t2 →
  same_outcome (read_with path lr lp sel (with_text path t1 w))
               (read_with path lr lp sel (with_text path t2 w)).
Proof.
  intros Hl. unfold same_outcome.
  assert (H1 : files (with_text path t1 w) !! path = Some t1) by apply lookup_insert_eq.
  assert (H2 : files (with_text path t2 w) !! path = Some t2) by apply lookup_insert_eq.
  destruct (faults w) as [|[f|] rest] eqn:Ef.
  1,3: rewrite (read_with_ok _ _ _ _ _ _ H1), (read_with_ok _ _ _ _ _ _ H2)
      by (unfold pending; cbn [faults with_text set_files]; rewrite Ef; reflexivity);
    rewrite Hl; split; reflexivity.
  rewrite (read_with_fault _ _ _ _ (with_text path t1 w) f rest),
          (read_with_fault _ _ _ _ (with_text path t2 w) f rest)
    by (exact Ef || (left; rewrite ?H1, ?H2; eauto)).
  split; reflexivity.
Qed.

Lemma constructor_runs (w : World) :
  faults w = [] →
  ∃ this w1, constructor w = (Return this, w1) ∧ faults w1 = [] ∧ console w1 = console w.
Proof.
  intros Hf. unfold constructor, bind at 1, process_cwd, bind at 1, fs_existsSync.
  destruct (bool_decide (is_Some (files w !! path_join (cwd w) "storage"))
            || bool_decide (path_join (cwd w) "storage" ∈ dirs w)); cbn [negb].
  - eexists _, _. split; [reflexivity|]. split; [exact Hf | reflexivity].
  - unfold bind at 1, fs_mkdirSync, bind at 1, next_fault. rewrite Hf.
    eexists _, _. split; [reflexivity|]. split; [exact Hf | reflexivity].
Qed.

(** After the constructor a file of the storage directory can be opened,
    unless a file stands at the directory's path or a directory at the
    file's. *)
Lemma constructor_opens_file (w0 w1 : World) (this : t) (name : string) :
  constructor w0 = (Return this, w1) →
  files w0 !! storageDir w0 = None →
  has_slash name = false →
  path_join (storageDir w0) name ∉ dirs w0 →
  open_error (dirs w1) (path_join (storageDir w0) name) = None.
Proof.
  intros Hc Hfree Hname Hp.
  destruct (constructor_returns _ _ _ Hc) as (_ & _ & _ & Hdirs & Hin).
  specialize (Hin Hfree).
  assert (Hp1 : path_join (storageDir w0) name ∉ dirs w1).
  { destruct Hdirs as [-> | ->]; [exact Hp|].
    intros Hin'. apply elem_of_union in Hin' as [Hs | Hd]; [|exact (Hp Hd)].
    apply elem_of_singleton in Hs. exact (path_join_longer _ _ Hs). }
  unfold open_error. rewrite (dirname_path_join _ _ Hname).
  rewrite (bool_decide_eq_false_2 _ Hp1), (bool_decide_eq_true_2 _ Hin). reflexivity.
Qed.

Lemma set_faults_same (w : World) (s : list (option Fault)) :
  faults w = s → set_faults s w = w.
Proof. intros <-. apply World_eta. Qed.

(** An append to a path that cannot be opened: nothing is written, and one
    diagnostic is printed. *)
Lemma append_with_closed (path label line reason : string) (w : World) :
  open_error (dirs w) path = Some reason →
  ∃ msg, append_with path label line w =
         (Return tt,
          set_console (console w ++ [[label; msg]]) (set_faults (tail (faults w)) w)).
Proof.
  intros Hd. unfold append_with, try_catch, fs_appendFileSync, bind, next_fault.
  destruct (faults w) as [|[[msg|msg n]|] rest] eqn:Ef; cbn [dirs set_faults tail];
    rewrite ?Hd; eexists; try reflexivity.
  rewrite (set_faults_same w [] Ef). reflexivity.
Qed.

End Session_facts.

(** ** The recommendations *)

Module Advice_facts.
Import Number SystemSpecs Advice.

Lemma all_from_spec (P : Z → bool) (fuel : nat) (z : Z) :
  all_from P z fuel = true → ∀ k, (z <= k < z + Z.of_nat fuel)%Z → P k = true.
Proof.
  revert z. induction fuel as [|fuel IH]; intros z H k Hk; [lia|].
  cbn [all_from] in H. apply andb_true_iff in H as [Hz Hrest].
  destruct (Z.eq_dec k z) as [->|Hne]; [exact Hz|].
  apply (IH (z + 1) Hrest). lia.
Qed.

Lemma same_number_eq (a b : float) : same_number a b = true → a = b.
Proof. apply FloatAxioms.Leibniz.eqb_spec. Qed.

(** The worker threads depend on the number of processors alone. *)
Lemma workers_by_count (s : Specs) (n : Z) :
  cpuCount s = of_Z n →
  optimal (workerThreads (calculateRecommendations s)) = optimal (workers_for n) ∧
  conservative (workerThreads (calculateRecommendations s)) = conservative (workers_for n) ∧
  max (workerThreads (calculateRecommendations s)) = max (workers_for n).
Proof.
  intros H. unfold workers_for, calculateRecommendations.
  cbn [cpuCount cpuSpeed totalMemoryGB]. rewrite H.
  repeat match goal with
         | |- context [if ?b then (_, _, _) else _] => destruct b
         end; repeat split.
Qed.

Lemma exact_everywhere : all_from exact_at 0 (Z.to_nat (most_processors + 1)) = true.
Proof. vm_compute. reflexivity. Qed.

Lemma workers_exact (s : Specs) (n : Z) :
  0 ≤ n ≤ most_processors → cpuCount s = of_Z n →
  let r := workerThreads (calculateRecommendations s) in
  max r = of_Z (exact_max n) ∧
  optimal r = of_Z (exact_optimal n) ∧
  conservative r = of_Z (exact_conservative n).
Proof.
  intros Hn Hs r. destruct (workers_by_count s n Hs) as (Eo & Ec & Em).
  unfold r. rewrite Eo, Ec, Em.
  assert (H : exact_at n = true).
  { apply (all_from_spec _ _ _ exact_everywhere). unfold most_processors in *. lia. }
  unfold exact_at in H.
  apply andb_true_iff in H as [H Hc]. apply andb_true_iff in H as [Hm Ho].
  split; [|split]; apply same_number_eq; assumption.
Qed.

Ltac by_cases_on_thresholds :=
  unfold exact_conservative, exact_optimal, exact_max, percent;
  repeat match goal with |- context [(?a <=? ?b)%Z] => destruct (Z.leb_spec a b) end;
  Z.to_euclidean_division_equations; lia.

Lemma exact_bounds (n : Z) :
  0 ≤ n →
  1 ≤ exact_conservative n ∧ exact_conservative n ≤ exact_optimal n ∧
  exact_optimal n ≤ exact_max n ∧ 4 ≤ exact_max n ∧ exact_max n ≤ 20.
Proof. intros H. by_cases_on_thresholds. Qed.

Lemma exact_against_count (n : Z) :
  0 ≤ n → (n < exact_max n ↔ n < 4) ∧ (n < exact_optimal n ↔ n = 0).
Proof. intros H. by_cases_on_thresholds. Qed.

Lemma exact_monotone (n m : Z) :
  0 ≤ n ≤ m →
  exact_conservative n ≤ exact_conservative m ∧ exact_optimal n ≤ exact_optimal m ∧
  exact_max n ≤ exact_max m.
Proof. intros H. by_cases_on_thresholds. Qed.

Lemma exact_optimal_over_12 (n : Z) : 0 ≤ n → (12 < exact_optimal n ↔ 19 ≤ n).
Proof. intros H. by_cases_on_thresholds. Qed.

(** *** The order of Numbers *)

Local Open Scope float_scope.

Lemma is_nan_SF (x : float) : PrimFloat.is_nan x = false → Prim2SF x ≠ S754_nan.
Proof.
  unfold PrimFloat.is_nan. rewrite FloatAxioms.eqb_spec. intros H E. rewrite E in H.
  discriminate H.
Qed.

Lemma SFcompare_flip (x y : spec_float) :
  SFcompare y x = option_map CompOpp (SFcompare x y).
Proof.
  destruct x as [sx | sx | | sx mx ex], y as [sy | sy | | sy my ey]; cbn;
    try reflexivity; try (destruct sx; reflexivity); try (destruct sy; reflexivity);
    try (destruct sx, sy; reflexivity).
  destruct sx, sy; try reflexivity;
    rewrite (Z.compare_antisym ex ey); destruct (ex ?= ey)%Z; cbn; try reflexivity;
    change (PosDef.Pos.compare_cont Eq ?a ?b) with (Pos.compare a b);
    rewrite (Pos.compare_antisym mx my); destruct (Pos.compare mx my); reflexivity.
Qed.

(** Of two Numbers, neither of them NaN, the first is at least the second
    or is below it. *)
Lemma not_leb_ltb (x y : float) :
  PrimFloat.is_nan x = false → PrimFloat.is_nan y = false →
  (y <=? x) = false → (x <? y) = true.
Proof.
  intros Hx Hy. apply is_nan_SF in Hx, Hy.
  rewrite FloatAxioms.leb_spec, FloatAxioms.ltb_spec. unfold SFleb, SFltb.
  rewrite (SFcompare_flip (Prim2SF x) (Prim2SF y)).
  destruct (SFcompare (Prim2SF x) (Prim2SF y)) as [[]|] eqn:E; cbn; try congruence.
  destruct (Prim2SF x), (Prim2SF y); cbn in E; congruence.
Qed.

Ltac by_cases_on_floats :=
  rewrite ?FloatAxioms.leb_spec, ?FloatAxioms.ltb_spec; unfold SFleb, SFltb;
  match goal with
  | |- context [Prim2SF ?a] =>
      match goal with
      | |- context [Prim2SF ?b] =>
          lazymatch b with a => fail | _ => idtac end;
          match goal with
          | |- context [Prim2SF ?x] =>
              lazymatch x with a => fail | b => fail | _ => idtac end;
              destruct (Prim2SF a) as [? | ? | | ? ? ?], (Prim2SF b) as [? | ? | | ? ? ?],
                (Prim2SF x) as [? | ? | | ? ? ?]
          end
      end
  end;
  cbn; try congruence;
  repeat match goal with s : bool |- _ => destruct s end; cbn; try congruence;
  change (PosDef.Pos.compare_cont Eq ?p ?q) with (Pos.compare p q);
  repeat match goal with
         | |- context [(?u ?= ?v)%Z] => destruct (Z.compare_spec u v)
         | |- context [Pos.compare ?u ?v] => destruct (Pos.compare_spec u v)
         end; cbn; try congruence; try lia.

(** A Number below the threshold [a] does not reach a threshold [b] that is
    at least [a]. *)
Lemma ltb_not_leb (a b x : float) :
  (a <=? b) = true → (x <? a) = true → (b <=? x) = false.
Proof. by_cases_on_floats. Qed.

(** A Number that reaches the threshold [b] reaches every threshold [a] up
    to [b]. *)
Lemma leb_trans (a b x : float) :
  (a <=? b) = true → (b <=? x) = true → (a <=? x) = true.
Proof. by_cases_on_floats. Qed.

(** *** The warnings *)

Lemma elem_of_push_if (x y : string) (b : bool) (l : list string) :
  x ∈ push_if b y l ↔ x ∈ l ∨ (b = true ∧ x = y).
Proof.
  unfold push_if. destruct b.
  - rewrite elem_of_app, list_elem_of_singleton. intuition congruence.
  - intuition congruence.
Qed.

Lemma warnings_spec (s : Specs) (o b : float) (x : string) :
  x ∈ generateWarnings s o b ↔
    (totalMemoryGB s <? 4) = true ∧ x = LOW_MEMORY ∨
    (cpuCount s <? 4) = true ∧ x = LIMITED_CORES ∨
    (cpuSpeed s <? 2000) = true ∧ x = LOW_CLOCK ∨
    ((32 <=? totalMemoryGB s) && (16 <=? cpuCount s) = true ∧ x = HIGH_PERFORMANCE) ∨
    (12 <? o) = true ∧ x = MANY_CORES.
Proof.
  unfold generateWarnings. rewrite !elem_of_push_if, elem_of_nil. tauto.
Qed.

Lemma low_memory_warned (s : Specs) (o b : float) :
  LOW_MEMORY ∈ generateWarnings s o b ↔ (totalMemoryGB s <? 4) = true.
Proof.
  rewrite warnings_spec. split; [|tauto].
  intros [[H _] | [[_ H] | [[_ H] | [[_ H] | [_ H]]]]]; try discriminate H. exact H.
Qed.

Lemma limited_cores_warned (s : Specs) (o b : float) :
  LIMITED_CORES ∈ generateWarnings s o b ↔ (cpuCount s <? 4) = true.
Proof.
  rewrite warnings_spec. split; [|tauto].
  intros [[_ H] | [[H _] | [[_ H] | [[_ H] | [_ H]]]]]; try discriminate H. exact H.
Qed.

Lemma high_performance_warned (s : Specs) (o b : float) :
  HIGH_PERFORMANCE ∈ generateWarnings s o b ↔
  (32 <=? totalMemoryGB s) && (16 <=? cpuCount s) = true.
Proof.
  rewrite warnings_spec. split; [|tauto].
  intros [[_ H] | [[_ H] | [[_ H] | [[H _] | [_ H]]]]]; try discriminate H. exact H.
Qed.

Lemma many_cores_warned (s : Specs) (o b : float) :
  MANY_CORES ∈ generateWarnings s o b ↔ (12 <? o) = true.
Proof.
  rewrite warnings_spec. split; [|tauto].
  intros [[_ H] | [[_ H] | [[_ H] | [[_ H] | [H _]]]]]; try discriminate H. exact H.
Qed.

Lemma systemTier_of (s : Specs) :
  systemTier (calculateRecommendations s) =
    if (12 <=? cpuCount s) && (16 <=? totalMemoryGB s) then high_end
    else if (8 <=? cpuCount s) && (8 <=? totalMemoryGB s) then mid_range
    else if (4 <=? cpuCount s) && (4 <=? totalMemoryGB s) then entry_level
    else low_end.
Proof.
  unfold calculateRecommendations.
  repeat match goal with
         | |- context [if ?b then (_, _, _) else _] => destruct b
         end; reflexivity.
Qed.

Lemma warnings_of (s : Specs) :
  warnings (calculateRecommendations s)
  = generateWarnings s (optimal (workerThreads (calculateRecommendations s)))
      (optimal (batchSize (calculateRecommendations s))).
Proof.
  unfold calculateRecommendations.
  repeat match goal with
         | |- context [if ?b then (_, _, _) else _] => destruct b
         end; reflexivity.
Qed.

Lemma over_12 (k : Z) : 0 ≤ k ≤ 20 → (12 <? of_Z k) = (12 <? k)%Z.
Proof.
  intros Hk.
  assert (H : all_from (λ k, Bool.eqb (12 <? of_Z k) (12 <? k)%Z) 0 21 = true)
    by (vm_compute; reflexivity).
  apply Bool.eqb_prop. apply (all_from_spec _ _ _ H). lia.
Qed.

End Advice_facts.

(** * The properties of the log store *)

Import JS JSON Node Model ReceiptsLogger Scenario.
Import JSON_codec JS_text Logger_facts Record_facts Store_facts.
Local Open Scope io_scope.

(** ** Facts about the scenario *)

Lemma constructor_boot : constructor boot = (Return logger, fresh).
Proof. vm_compute. reflexivity. Qed.

Lemma storage_ready : open_error (dirs fresh) (receiptsFile logger) = None.
Proof. vm_compute. reflexivity. Qed.

Lemma valid_first : valid_receipt first.
Proof. split; exact I. Qed.

Lemma valid_second : valid_receipt second.
Proof. split; exact I. Qed.

Lemma valid_full : valid_receipt full.
Proof.
  split; [unfold safe_integer; cbn; lia|]. cbn.
  apply wf_obj; [reflexivity|].
  repeat apply List.Forall_cons; try apply List.Forall_nil; cbn [snd].
  - apply wf_str.
  - apply wf_arr. repeat apply List.Forall_cons; try apply List.Forall_nil;
      try (apply wf_num; unfold safe_integer; lia). apply wf_null.
Qed.

Lemma valid_scenario : Forall valid_receipt [first; second; full].
Proof.
  repeat apply List.Forall_cons; try apply List.Forall_nil;
    [apply valid_first | apply valid_second | apply valid_full].
Qed.

(** The receipts file of the scenario after its three appends. *)
Lemma holds_scenario :
  holds_receipts logger
    (with_receipts (jsonl (List.map receipt_line [first; second; full])))
    [first; second; full].
Proof. vm_compute. reflexivity. Qed.

(** ** C1 *)

(** C1 (the code departs from the specification).  [getRecentReceipts(0)]
    is specified to return an empty sequence.  The code takes
    [lines.slice(-count)], and [lines.slice(-0)] is [lines.slice(0)], every
    line: on the file of the scenario's first two receipts it returns both
    records. *)
Theorem C1_count_zero_returns_every_record :
  fst (getRecentReceipts logger 0
         (with_receipts (jsonl [receipt_line first; receipt_line second])))
  = Return [Receipt.toJS first; Receipt.toJS second].
Proof. vm_compute. reflexivity. Qed.

(** ** C2 *)

(** C2.  Appending the valid receipts [rs], in order, to a receipts file that
    is absent or empty, in an existing storage directory and with no fault of
    the platform, and then calling [readReceipts], returns exactly the
    objects of [rs] in append order; its last element is the object of the
    receipt appended last. *)
Theorem C2_append_then_read_all (this : t) (w : World) (rs : list Receipt.t) :
  open_error (dirs w) (receiptsFile this) = None →
  file_text w (receiptsFile this) = "" →
  faults w = [] →
  Forall valid_receipt rs →
  ∃ result,
    fst ((logReceipts this rs ;; readReceipts this) w) = Return result ∧
    result = List.map Receipt.toJS rs ∧
    last result = Receipt.toJS <$> last rs.
Proof.
  intros Hd Hempty Hf Hvalid. exists (List.map Receipt.toJS rs).
  split; [|split; [reflexivity | apply (fmap_last Receipt.toJS)]].
  destruct (logReceipts_ok this rs w Hd Hf) as (w' & E & Ht & Hf' & _).
  unfold bind. rewrite E, readReceipts_shape.
  rewrite (read_holding this w' rs); [| | unfold pending; rewrite Hf'; reflexivity | reflexivity].
  - rewrite values_of_receipts by exact Hvalid. reflexivity.
  - unfold holds_receipts. rewrite Ht, Hempty. reflexivity.
Qed.

(** The scenario of the specification, with a third receipt that has every
    optional field. *)
Lemma C2_witness :
  ∃ result,
    fst ((logReceipts logger [first; second; full] ;; readReceipts logger) fresh)
      = Return result ∧
    result = List.map Receipt.toJS [first; second; full] ∧
    last result = Receipt.toJS <$> last [first; second; full].
Proof.
  apply (C2_append_then_read_all logger fresh [first; second; full]).
  - exact storage_ready.
  - vm_compute. reflexivity.
  - reflexivity.
  - exact valid_scenario.
Defined.

(** ** C3 *)

(** C3.  For [k >= 1], on a receipts file that holds the [n] valid receipts
    [rs] and nothing else, [getRecentReceipts(k)] returns the last
    [min(k, n)] of them, oldest of the tail first; when [k >= n] it returns
    all of them. *)
Theorem C3_recent_is_tail (this : t) (w : World) (rs : list Receipt.t) (k : Z) :
  (1 ≤ k)%Z →
  holds_receipts this w rs → pending w = None → Forall valid_receipt rs →
  ∃ result,
    fst (getRecentReceipts this k w) = Return result ∧
    result = last_n (Z.to_nat k `min` length rs) (List.map Receipt.toJS rs) ∧
    length result = (Z.to_nat k `min` length rs)%nat ∧
    ((Z.of_nat (length rs) ≤ k)%Z → result = List.map Receipt.toJS rs).
Proof.
  intros Hk Hh Hp Hvalid.
  exists (last_n (Z.to_nat k) (List.map Receipt.toJS rs)).
  split; [|split; [|split]].
  - rewrite getRecentReceipts_shape.
    rewrite (read_holding this w rs) by (assumption || apply Array_slice_nil).
    rewrite Array_slice_tail by exact Hk. unfold last_n.
    rewrite !length_map, values_of_drop_receipts by exact Hvalid. reflexivity.
  - unfold last_n. rewrite length_map. f_equal. lia.
  - unfold last_n. rewrite length_drop, length_map. lia.
  - intros Hn. unfold last_n. rewrite length_map.
    replace (length rs - Z.to_nat k)%nat with 0%nat by lia. reflexivity.
Qed.

(** The last two of the scenario's three receipts. *)
Lemma C3_witness :
  ∃ result,
    fst (getRecentReceipts logger 2
           (with_receipts (jsonl (List.map receipt_line [first; second; full]))))
      = Return result ∧
    result = last_n (Z.to_nat 2 `min` length [first; second; full])
               (List.map Receipt.toJS [first; second; full]) ∧
    length result = (Z.to_nat 2 `min` length [first; second; full])%nat ∧
    ((Z.of_nat (length [first; second; full]) ≤ 2)%Z →
       result = List.map Receipt.toJS [first; second; full]).
Proof.
  apply (C3_recent_is_tail logger _ [first; second; full] 2).
  - lia.
  - exact holds_scenario.
  - reflexivity.
  - exact valid_scenario.
Defined.

(** ** C4 *)

(** C4.  Each read ([readReceipts], [getRecentReceipts], [readErrors])
    returns an empty sequence when its file does not exist; when the file
    exists and reading it throws, it returns an empty sequence after one
    diagnostic with the error's message; and in every world it returns and
    does not throw. *)
Theorem C4_reads_degrade_to_empty (this : t) (w : World) (count : Z) :
  (files w !! receiptsFile this = None →
     fst (readReceipts this w) = Return [] ∧
     fst (getRecentReceipts this count w) = Return []) ∧
  (files w !! errorsFile this = None → fst (readErrors this w) = Return []) ∧
  (∀ f rest, faults w = Some f :: rest →
     let after (label : string) :=
       set_console (console w ++ [[label; fault_message f]]) (set_faults rest w) in
     (is_Some (files w !! receiptsFile this) →
        readReceipts this w
          = (Return [], after "[ReceiptsLogger] Failed to read receipts:") ∧
        getRecentReceipts this count w
          = (Return [], after "[ReceiptsLogger] Failed to read recent receipts:")) ∧
     (is_Some (files w !! errorsFile this) →
        readErrors this w = (Return [], after "[ReceiptsLogger] Failed to read errors:"))) ∧
  (∃ vs w', readReceipts this w = (Return vs, w')) ∧
  (∃ vs w', getRecentReceipts this count w = (Return vs, w')) ∧
  (∃ vs w', readErrors this w = (Return vs, w')).
Proof.
  rewrite readReceipts_shape, getRecentReceipts_shape, readErrors_shape.
  split; [|split; [|split; [|split; [|split]]]].
  - intros Hf. split.
    + destruct (read_with_no_file _ "[ReceiptsLogger] Failed to read receipts:"
        "[ReceiptsLogger] Failed to parse receipt line:" (λ l, l) w Hf) as [w' ->].
      reflexivity.
    + destruct (read_with_no_file _ "[ReceiptsLogger] Failed to read recent receipts:"
        "[ReceiptsLogger] Failed to parse receipt line:"
        (λ l, Array_slice l (- count)) w Hf) as [w' ->].
      reflexivity.
  - intros Hf.
    destruct (read_with_no_file _ "[ReceiptsLogger] Failed to read errors:"
      "[ReceiptsLogger] Failed to parse error line:" (λ l, l) w Hf) as [w' ->].
    reflexivity.
  - intros f rest Hfault after. split; [intros Hex; split | intros Hex];
      apply read_with_fault; auto.
  - destruct (read_with_returns (receiptsFile this) "[ReceiptsLogger] Failed to read receipts:"
      "[ReceiptsLogger] Failed to parse receipt line:" (λ l, l) w) as (vs & w' & E & _).
    eauto.
  - destruct (read_with_returns (receiptsFile this)
      "[ReceiptsLogger] Failed to read recent receipts:"
      "[ReceiptsLogger] Failed to parse receipt line:" (λ l, Array_slice l (- count)) w)
      as (vs & w' & E & _).
    eauto.
  - destruct (read_with_returns (errorsFile this) "[ReceiptsLogger] Failed to read errors:"
      "[ReceiptsLogger] Failed to parse error line:" (λ l, l) w) as (vs & w' & E & _).
    eauto.
Qed.

(** No receipts file yet; and a receipts file that cannot be read. *)
Lemma C4_witness :
  fst (readReceipts logger fresh) = Return [] ∧
  readReceipts logger (set_faults [Some (Fails "EIO")] (with_receipts (receipt_line first +:+ NL)))
  = (Return [],
     set_console [["[ReceiptsLogger] Failed to read receipts:"; "EIO"]]
       (with_receipts (receipt_line first +:+ NL))).
Proof.
  split.
  - destruct (C4_reads_degrade_to_empty logger fresh 1) as [H _].
    destruct H as [H _]; [vm_compute; reflexivity | exact H].
  - destruct (C4_reads_degrade_to_empty logger
      (set_faults [Some (Fails "EIO")] (with_receipts (receipt_line first +:+ NL))) 1)
      as (_ & _ & H & _).
    destruct (H (Fails "EIO") [] eq_refl) as [Hr _].
    destruct Hr as [Hr _]; [vm_compute; eauto | exact Hr].
Defined.

(** ** C5 *)

(** C5 (as stated, it fails).  A file in which some lines parse and one
    does not: the line of the scenario's first receipt, a corrupt line, and
    a line that holds [null].  The line [null] parses, and yet the read
    leaves it out, with no diagnostic: it does not skip exactly the lines
    that fail to parse, and it does not return every line that parses.  The
    result is the first receipt alone, and the one diagnostic is for the
    corrupt line. *)
Lemma C5_null_line_is_dropped_silently :
  let content := receipt_line first +:+ NL +:+ "{broken" +:+ NL +:+ "null" +:+ NL in
  lines_of content = [receipt_line first; "{broken"; "null"] ∧
  parse (receipt_line first) = Some (Receipt.toJS first) ∧
  parse "{broken" = None ∧
  parse "null" = Some JNull ∧
  readReceipts logger (with_receipts content)
  = (Return [Receipt.toJS first],
     set_console [["[ReceiptsLogger] Failed to parse receipt line:"; "{broken"]]
       (with_receipts content)).
Proof. vm_compute. auto 6. Qed.

(** C5 (amended).  The lines of a content are those of
    [content.trim().split('\n').filter(line => line.length > 0)]: the
    non-empty pieces between line feeds of the content with the white space
    at its two ends removed, so that blank lines at either end go with that
    white space, the first and the last line lose their outer white space,
    and an empty line anywhere is no line.  When its file exists and the
    read itself does not fault, each read skips exactly those lines that
    fail to parse and those whose value is [null]: it returns the values of
    the other lines in order ([getRecentReceipts]: of the lines
    [slice(-count)] selects), emits one diagnostic for each line that fails
    to parse, in order and showing that line as it stands among the lines
    (none for a line that holds [null]), and returns normally.  In
    particular a file of one corrupt line between the lines of two valid
    receipts yields exactly the two receipts, and one diagnostic, for the
    corrupt line. *)
Theorem C5_unparseable_and_null_lines_are_skipped
    (this : t) (w : World) (content : string) (count : Z) :
  pending w = None →
  let lines := lines_of content in
  let recent := Array_slice lines (- count) in
  let after (diagnostics : list (list string)) :=
    set_console (console w ++ diagnostics) (set_faults (tail (faults w)) w) in
  (files w !! receiptsFile this = Some content →
     readReceipts this w =
       (Return (values_of lines),
        after (diagnostics_of "[ReceiptsLogger] Failed to parse receipt line:" lines)) ∧
     getRecentReceipts this count w =
       (Return (values_of recent),
        after (diagnostics_of "[ReceiptsLogger] Failed to parse receipt line:" recent))) ∧
  (files w !! errorsFile this = Some content →
     readErrors this w =
       (Return (values_of lines),
        after (diagnostics_of "[ReceiptsLogger] Failed to parse error line:" lines))) ∧
  (∀ r1 r2 c label,
     valid_receipt r1 → valid_receipt r2 → plain_line c → parse c = None →
     content = jsonl [receipt_line r1; c; receipt_line r2] →
     values_of lines = [Receipt.toJS r1; Receipt.toJS r2] ∧
     diagnostics_of label lines = [[label; c]]).
Proof.
  intros Hp lines recent after. split; [intros Hf; split | split; [intros Hf|]].
  - rewrite readReceipts_shape. exact (read_with_ok _ _ _ _ _ _ Hf Hp).
  - rewrite getRecentReceipts_shape. exact (read_with_ok _ _ _ _ _ _ Hf Hp).
  - rewrite readErrors_shape. exact (read_with_ok _ _ _ _ _ _ Hf Hp).
  - intros r1 r2 c label H1 H2 Hc Hparse Hcontent. unfold lines. rewrite Hcontent.
    destruct (corrupt_line_between r1 r2 c label H1 H2 Hc Hparse) as (-> & Hv & Hd).
    split; assumption.
Qed.

(** One corrupt line between the scenario's two receipts. *)
Lemma C5_witness :
  readReceipts logger (with_receipts corrupt_between)
  = (Return [Receipt.toJS first; Receipt.toJS second],
     set_console [["[ReceiptsLogger] Failed to parse receipt line:"; "{broken"]]
       (with_receipts corrupt_between)).
Proof.
  destruct (C5_unparseable_and_null_lines_are_skipped logger
    (with_receipts corrupt_between) corrupt_between 1 eq_refl) as [H _].
  destruct H as [H _]; [vm_compute; reflexivity|].
  rewrite H. vm_compute. reflexivity.
Defined.

(** ** C6 *)

(** C6.  [logReceipt] and [logError] return normally in every world, with
    the same value whether or not the line was written; when the append
    primitive throws, the method catches the error, and what it adds to the
    world the primitive left is one call of [console.error] with the
    error's message, nothing in any file. *)
Theorem C6_append_faults_are_swallowed
    (this : t) (receipt : Receipt.t) (errorLog : ErrorLog.t) (w : World) :
  (∃ w', logReceipt this receipt w = (Return tt, w')) ∧
  (∃ w', logError this errorLog w = (Return tt, w')) ∧
  (∀ e w1,
     fs_appendFileSync (receiptsFile this) (stringify (Receipt.toJS receipt) +:+ NL) w
       = (Throw e, w1) →
     logReceipt this receipt w =
       (Return tt,
        set_console (console w1 ++ [["[ReceiptsLogger] Failed to log receipt:"; message e]]) w1)) ∧
  (∀ e w1,
     fs_appendFileSync (errorsFile this) (stringify (ErrorLog.toJS errorLog) +:+ NL) w
       = (Throw e, w1) →
     logError this errorLog w =
       (Return tt,
        set_console (console w1 ++ [["[ReceiptsLogger] Failed to log error:"; message e]]) w1)).
Proof.
  rewrite logReceipt_shape, logError_shape. split; [|split; [|split]].
  - destruct (append_with_returns (receiptsFile this) "[ReceiptsLogger] Failed to log receipt:"
      (stringify (Receipt.toJS receipt) +:+ NL) w) as (w' & E & _). eauto.
  - destruct (append_with_returns (errorsFile this) "[ReceiptsLogger] Failed to log error:"
      (stringify (ErrorLog.toJS errorLog) +:+ NL) w) as (w' & E & _). eauto.
  - intros e w1 H. apply append_with_caught, H.
  - intros e w1 H. apply append_with_caught, H.
Qed.

(** An append that the platform refuses. *)
Lemma C6_witness :
  logReceipt logger first (set_faults [Some (Fails "EACCES")] fresh)
  = (Return tt, set_console [["[ReceiptsLogger] Failed to log receipt:"; "EACCES"]] fresh).
Proof.
  destruct (C6_append_faults_are_swallowed logger first failure
    (set_faults [Some (Fails "EACCES")] fresh)) as (_ & _ & H & _).
  rewrite (H (mkError "EACCES") fresh); [reflexivity | vm_compute; reflexivity].
Defined.

(** ** C7 *)

(** C7.  For the logger the constructor makes and every interleaving [ops]
    of appends to the two channels, whatever the platform does to each
    append: the reads of the receipts channel return what they return after
    the receipt appends alone, and [readErrors] what it returns after the
    error appends alone. *)
Theorem C7_channels_are_independent (w0 w1 : World) (this : t) (ops : list Op)
    (w : World) (s : list (option Fault)) (count : Z) :
  constructor w0 = (Return this, w1) →
  let both := run this ops w in
  let receipts_only := run this (List.filter is_receipt_op ops) w in
  let errors_only := run this (List.filter is_error_op ops) w in
  fst (readReceipts this (set_faults s both))
    = fst (readReceipts this (set_faults s receipts_only)) ∧
  fst (getRecentReceipts this count (set_faults s both))
    = fst (getRecentReceipts this count (set_faults s receipts_only)) ∧
  fst (readErrors this (set_faults s both))
    = fst (readErrors this (set_faults s errors_only)).
Proof.
  intros Hc both receipts_only errors_only.
  destruct (constructor_paths _ _ _ Hc) as (Hne & _).
  rewrite !readReceipts_shape, !getRecentReceipts_shape, !readErrors_shape.
  split; [|split]; apply read_with_agree.
  - apply run_receipts_agree; [exact Hne | split; reflexivity].
  - apply run_receipts_agree; [exact Hne | split; reflexivity].
  - apply run_errors_agree; [exact Hne | split; reflexivity].
Qed.

(** Five interleaved appends, one of them cut short by the platform. *)
Lemma C7_witness :
  let ops := [LogReceipt first None; LogError failure None;
              LogReceipt second (Some (FailsAfter "ENOSPC" 9)); LogError failure None;
              LogReceipt full None] in
  fst (readReceipts logger (set_faults [] (run logger ops fresh)))
    = fst (readReceipts logger
             (set_faults [] (run logger (List.filter is_receipt_op ops) fresh))) ∧
  fst (getRecentReceipts logger 1 (set_faults [] (run logger ops fresh)))
    = fst (getRecentReceipts logger 1
             (set_faults [] (run logger (List.filter is_receipt_op ops) fresh))) ∧
  fst (readErrors logger (set_faults [] (run logger ops fresh)))
    = fst (readErrors logger
             (set_faults [] (run logger (List.filter is_error_op ops) fresh))).
Proof.
  intros ops.
  exact (C7_channels_are_independent boot fresh logger ops fresh [] 1 constructor_boot).
Defined.

(** ** C8 *)

(** C8.  In every world and for every path [p]: after [logReceipt] or
    [logError] the text of [p] is its previous text followed by some suffix,
    and [p] still exists if it existed; the three reads and the constructor
    leave every file as it was. *)
Theorem C8_append_only (this : t) (receipt : Receipt.t) (errorLog : ErrorLog.t)
    (count : Z) (w : World) (p : string) :
  let grows (w' : World) :=
    (∃ suffix, file_text w' p = file_text w p +:+ suffix) ∧
    (is_Some (files w !! p) → is_Some (files w' !! p)) in
  grows (snd (logReceipt this receipt w)) ∧
  grows (snd (logError this errorLog w)) ∧
  files (snd (readReceipts this w)) = files w ∧
  files (snd (getRecentReceipts this count w)) = files w ∧
  files (snd (readErrors this w)) = files w ∧
  files (snd (constructor w)) = files w.
Proof.
  intros grows.
  rewrite logReceipt_shape, logError_shape, readReceipts_shape, getRecentReceipts_shape,
    readErrors_shape.
  split; [|split; [|split; [|split; [|split]]]].
  - destruct (append_with_returns (receiptsFile this) "[ReceiptsLogger] Failed to log receipt:"
      (stringify (Receipt.toJS receipt) +:+ NL) w) as (w' & -> & Happ).
    exact (appended_prefix _ _ p _ _ Happ).
  - destruct (append_with_returns (errorsFile this) "[ReceiptsLogger] Failed to log error:"
      (stringify (ErrorLog.toJS errorLog) +:+ NL) w) as (w' & -> & Happ).
    exact (appended_prefix _ _ p _ _ Happ).
  - destruct (read_with_returns (receiptsFile this) "[ReceiptsLogger] Failed to read receipts:"
      "[ReceiptsLogger] Failed to parse receipt line:" (λ l, l) w) as (vs & w' & -> & E & _).
    exact E.
  - destruct (read_with_returns (receiptsFile this)
      "[ReceiptsLogger] Failed to read recent receipts:"
      "[ReceiptsLogger] Failed to parse receipt line:" (λ l, Array_slice l (- count)) w)
      as (vs & w' & -> & E & _).
    exact E.
  - destruct (read_with_returns (errorsFile this) "[ReceiptsLogger] Failed to read errors:"
      "[ReceiptsLogger] Failed to parse error line:" (λ l, l) w) as (vs & w' & -> & E & _).
    exact E.
  - apply constructor_files.
Qed.

(** ** C9 *)

(** C9.  For a negative [count], on a receipts file that holds the [n] valid
    receipts [rs] and nothing else, [getRecentReceipts(count)] returns all of
    them but the first [min(|count|, n)]: [slice(-count)] starts at the
    positive offset [|count|]. *)
Theorem C9_negative_count_drops_oldest (this : t) (w : World) (rs : list Receipt.t)
    (count : Z) :
  (count < 0)%Z →
  holds_receipts this w rs → pending w = None → Forall valid_receipt rs →
  fst (getRecentReceipts this count w)
  = Return (drop (Z.to_nat (- count) `min` length rs) (List.map Receipt.toJS rs)).
Proof.
  intros Hc Hh Hp Hvalid. rewrite getRecentReceipts_shape.
  rewrite (read_holding this w rs) by (assumption || apply Array_slice_nil).
  rewrite Array_slice_drop by exact Hc.
  rewrite values_of_drop_receipts by exact Hvalid. f_equal.
  destruct (Nat.min_spec (Z.to_nat (- count)) (length rs)) as [[? ->] | [? ->]]; [reflexivity|].
  rewrite !drop_ge by (rewrite length_map; lia). reflexivity.
Qed.

(** [getRecentReceipts(-1)] on the scenario's three receipts. *)
Lemma C9_witness :
  fst (getRecentReceipts logger (-1)
         (with_receipts (jsonl (List.map receipt_line [first; second; full]))))
  = Return (drop (Z.to_nat (- -1) `min` length [first; second; full])
              (List.map Receipt.toJS [first; second; full])).
Proof.
  apply (C9_negative_count_drops_oldest logger _ [first; second; full] (-1)).
  - lia.
  - exact holds_scenario.
  - reflexivity.
  - exact valid_scenario.
Defined.

(** ** C10 *)

(** C10.  For [count >= 1], [getRecentReceipts(count)] parses only the last
    [count] raw lines of the file and returns the values among them; when
    one of those lines fails to parse and an earlier line holds a value, it
    returns fewer than [min(count, v)] values, [v] the number of values in
    the whole file. *)
Theorem C10_window_over_raw_lines (this : t) (w : World) (content : string) (count : Z) :
  (1 ≤ count)%Z →
  files w !! receiptsFile this = Some content → pending w = None →
  let lines := lines_of content in
  let window := last_n (Z.to_nat count) lines in
  let earlier := take (length lines - Z.to_nat count) lines in
  fst (getRecentReceipts this count w) = Return (values_of window) ∧
  ((0 < length (List.filter fails_to_parse window))%nat → values_of earlier ≠ [] →
   (length (values_of window) < Z.to_nat count `min` length (values_of lines))%nat).
Proof.
  intros Hc Hf Hp lines window earlier. split.
  - rewrite getRecentReceipts_shape, (read_with_ok _ _ _ _ _ _ Hf Hp). cbn [fst].
    rewrite Array_slice_tail by exact Hc. reflexivity.
  - intros Hm Hearlier.
    assert (Hsplit : lines = earlier ++ window) by (symmetry; apply take_drop).
    pose proof (values_of_length window) as Hlen.
    assert (Hwin : (length window ≤ Z.to_nat count)%nat).
    { unfold window, last_n. rewrite length_drop. lia. }
    assert (He : (0 < length (values_of earlier))%nat).
    { destruct (values_of earlier); [congruence | cbn; lia]. }
    assert (Hv : values_of lines = values_of earlier ++ values_of window)
      by (rewrite <- values_of_app; f_equal; exact Hsplit).
    rewrite Hv, length_app. lia.
Qed.

(** The scenario's two receipts and a corrupt last line, [count = 2]: one
    record comes back, though the file holds two. *)
Lemma C10_witness :
  fst (getRecentReceipts logger 2 (with_receipts broken_tail))
    = Return [Receipt.toJS second] ∧
  (length [Receipt.toJS second]
   < 2 `min` length [Receipt.toJS first; Receipt.toJS second])%nat.
Proof.
  destruct (C10_window_over_raw_lines logger (with_receipts broken_tail) broken_tail 2)
    as [Hresult Hfewer]; [lia | vm_compute; reflexivity | reflexivity |].
  split.
  - rewrite Hresult. vm_compute. reflexivity.
  - assert (H := Hfewer ltac:(vm_compute; lia) ltac:(vm_compute; discriminate)).
    vm_compute in H. vm_compute. exact H.
Defined.

(** * Further properties of the code *)

Import Sessions Session_facts.

(** ** More facts about the scenario *)

Lemma valid_failure : valid_error failure.
Proof.
  split; [unfold safe_integer; cbn; lia|]. cbn.
  apply wf_obj; [reflexivity|].
  apply List.Forall_cons; [|apply List.Forall_nil]. apply wf_num. unfold safe_integer. lia.
Qed.

Lemma valid_timeout : valid_error timeout.
Proof. split; exact I. Qed.

Lemma errors_ready : open_error (dirs fresh) (errorsFile logger) = None.
Proof. vm_compute. reflexivity. Qed.

(** ** The log store *)

(** X1.  The error channel round trip.  Appending the valid error logs [es],
    in order, with [logError] to an errors file that is absent or empty, in
    an existing storage directory and with no fault of the platform, and
    then calling [readErrors], returns exactly the objects of [es] in append
    order. *)
Theorem X1_errors_round_trip (this : t) (w : World) (es : list ErrorLog.t) :
  open_error (dirs w) (errorsFile this) = None →
  file_text w (errorsFile this) = "" →
  faults w = [] →
  Forall valid_error es →
  fst ((logErrors this es ;; readErrors this) w) = Return (List.map ErrorLog.toJS es).
Proof.
  intros Hd Hempty Hf Hvalid.
  destruct (logErrors_ok this es w Hd Hf) as (w' & E & Ht & Hf' & _).
  unfold bind. rewrite E, readErrors_shape.
  rewrite (read_jsonl _ _ _ (List.map error_line es)).
  - unfold error_line. rewrite <- (List.map_map ErrorLog.toJS stringify).
    rewrite values_of_objects; [reflexivity|].
    apply Forall_map. eapply Forall_impl; [exact Hvalid|].
    intros e He. split; [apply wf_error, He | reflexivity].
  - rewrite Ht, Hempty. reflexivity.
  - apply Forall_map, Forall_forall. intros e _. apply record_line_object.
  - unfold pending. rewrite Hf'. reflexivity.
Qed.

(** Two error logs, one with every optional field and one with none. *)
Lemma X1_witness :
  fst ((logErrors logger [failure; timeout] ;; readErrors logger) fresh)
  = Return (List.map ErrorLog.toJS [failure; timeout]).
Proof.
  apply (X1_errors_round_trip logger fresh [failure; timeout]).
  - exact errors_ready.
  - vm_compute. reflexivity.
  - reflexivity.
  - apply List.Forall_cons; [exact valid_failure|].
    apply List.Forall_cons; [exact valid_timeout | apply List.Forall_nil].
Defined.

(** X2.  Whatever the receipts file holds, corrupt lines or records written
    by another program included: when its text is empty or ends with a line
    feed and the platform raises no fault, appending a valid receipt with
    [logReceipt] and calling [readReceipts] returns a sequence whose last
    element is the object of that receipt, and calling
    [getRecentReceipts(1)] instead returns that object alone. *)
Theorem X2_append_to_any_line_ended_store (this : t) (w : World) (r : Receipt.t) :
  open_error (dirs w) (receiptsFile this) = None →
  faults w = [] →
  line_ended (file_text w (receiptsFile this)) = true →
  valid_receipt r →
  ∃ earlier,
    fst ((logReceipt this r ;; readReceipts this) w) = Return (earlier ++ [Receipt.toJS r]) ∧
    fst ((logReceipt this r ;; getRecentReceipts this 1) w) = Return [Receipt.toJS r].
Proof.
  intros Hd Hf Hended Hr.
  destruct (lines_of_snoc _ _ Hended (record_line_receipt r)) as [ls Hls].
  exists (values_of ls).
  unfold bind. rewrite (logReceipt_ok _ _ _ Hd Hf), readReceipts_shape, getRecentReceipts_shape.
  erewrite !read_with_ok;
    [| cbn [files set_files]; apply lookup_insert_eq | unfold pending; cbn; rewrite Hf; reflexivity
     | cbn [files set_files]; apply lookup_insert_eq | unfold pending; cbn; rewrite Hf; reflexivity].
  cbn [fst]. rewrite Hls. split.
  - rewrite values_of_app. cbn [values_of]. rewrite (parse_receipt_line r Hr). reflexivity.
  - rewrite Array_slice_tail by lia. unfold last_n.
    replace (length (ls ++ [receipt_line r]) - Z.to_nat 1)%nat with (length ls)
      by (rewrite length_app; cbn; lia).
    rewrite drop_app_length. cbn [values_of]. rewrite (parse_receipt_line r Hr). reflexivity.
Qed.

(** A receipt appended after a corrupt line and a line holding a number. *)
Lemma X2_witness :
  ∃ earlier,
    fst ((logReceipt logger full ;; readReceipts logger)
           (with_receipts ("{broken" +:+ NL +:+ "17" +:+ NL)))
    = Return (earlier ++ [Receipt.toJS full]) ∧
    fst ((logReceipt logger full ;; getRecentReceipts logger 1)
           (with_receipts ("{broken" +:+ NL +:+ "17" +:+ NL)))
    = Return [Receipt.toJS full].
Proof.
  apply (X2_append_to_any_line_ended_store logger
           (with_receipts ("{broken" +:+ NL +:+ "17" +:+ NL)) full).
  - vm_compute. reflexivity.
  - reflexivity.
  - vm_compute. reflexivity.
  - exact valid_full.
Defined.

(** X3.  A write cut short costs the next record its line.  On a receipts
    file that holds the valid receipts [rs]: when the platform cuts the
    append of [r1] after [n] characters, [0 < n <= ] the length of the
    line of [r1], and the append of [r2] succeeds, [logReceipt] prints one
    diagnostic, the file ends with one line made of the first [n]
    characters of the line of [r1] and the whole line of [r2], and
    [readReceipts] returns the objects of [rs] followed by what that one
    line parses to: at most one value for the two receipts. *)
Theorem X3_cut_write_takes_the_next_line (this : t) (w : World) (rs : list Receipt.t)
    (r1 r2 : Receipt.t) (msg : string) (n : nat) :
  open_error (dirs w) (receiptsFile this) = None →
  holds_receipts this w rs → Forall valid_receipt rs →
  faults w = [Some (FailsAfter msg n)] →
  (0 < n ≤ String.length (receipt_line r1))%nat →
  let merged := prefix_of n (receipt_line r1) +:+ receipt_line r2 in
  ∃ w',
    (logReceipt this r1 ;; logReceipt this r2) w = (Return tt, w') ∧
    file_text w' (receiptsFile this) = jsonl (List.map receipt_line rs ++ [merged]) ∧
    console w' = console w ++ [["[ReceiptsLogger] Failed to log receipt:"; msg]] ∧
    fst (readReceipts this w') = Return (List.map Receipt.toJS rs ++ values_of [merged]) ∧
    (length (values_of [merged]) ≤ 1)%nat.
Proof.
  intros Hd Hh Hvalid Hf Hn merged.
  unfold bind. rewrite logReceipt_shape, (append_with_cut _ _ _ msg n [] w Hd Hf).
  match goal with |- context [logReceipt this r2 ?w1] =>
    rewrite (logReceipt_ok this r2 w1 Hd eq_refl); set (w2 := w1) end.
  eexists. split; [reflexivity|].
  assert (Ht : file_text
                 (set_files (<[receiptsFile this :=
                      file_text w2 (receiptsFile this) +:+ receipt_line r2 +:+ NL]> (files w2)) w2)
                 (receiptsFile this)
               = jsonl (List.map receipt_line rs ++ [merged])).
  { unfold file_text at 1. cbn [files set_files]. rewrite lookup_insert_eq.
    change (default "" (Some ?x)) with x.
    unfold w2, file_text at 1. cbn [files set_files set_console]. rewrite lookup_insert_eq.
    change (default "" (Some ?x)) with x.
    rewrite Hh, jsonl_app. cbn [jsonl]. rewrite app_empty_r.
    rewrite prefix_of_app by (unfold receipt_line in Hn; lia).
    unfold merged, receipt_line. rewrite !app_assoc_s. reflexivity. }
  split; [exact Ht|]. split; [reflexivity|]. split.
  - rewrite readReceipts_shape, (read_jsonl _ _ _ _ _ Ht).
    + rewrite values_of_app, values_of_receipts by exact Hvalid. reflexivity.
    + apply Forall_app. split.
      * apply Forall_map, Forall_forall. intros r _. apply record_line_receipt.
      * apply List.Forall_cons; [|apply List.Forall_nil].
        apply record_line_merged. lia.
    + reflexivity.
  - apply (values_of_le [merged]).
Qed.

(** The file holds the scenario's first receipt; the append of the second
    is cut after nine characters and the append of the third succeeds: a
    read returns the first receipt alone. *)
Lemma X3_witness :
  ∃ w',
    (logReceipt logger second ;; logReceipt logger full)
      (set_faults [Some (FailsAfter "ENOSPC" 9)] (with_receipts (receipt_line first +:+ NL)))
    = (Return tt, w') ∧
    fst (readReceipts logger w') = Return [Receipt.toJS first].
Proof.
  destruct (X3_cut_write_takes_the_next_line logger
    (set_faults [Some (FailsAfter "ENOSPC" 9)] (with_receipts (receipt_line first +:+ NL)))
    [first] second full "ENOSPC" 9) as (w' & E & _ & _ & Hread & _).
  - vm_compute. reflexivity.
  - vm_compute. reflexivity.
  - apply List.Forall_cons; [exact valid_first | apply List.Forall_nil].
  - reflexivity.
  - vm_compute. lia.
  - exists w'. split; [exact E|]. rewrite Hread. vm_compute. reflexivity.
Defined.

(** X4.  In every world and for every [count], what [getRecentReceipts]
    returns is a final part of what [readReceipts] returns in the same
    world; for [count >= 1] it has at most [count] elements. *)
Theorem X4_recent_is_a_final_part_of_all (this : t) (w : World) (count : Z) :
  ∃ older recent,
    fst (getRecentReceipts this count w) = Return recent ∧
    fst (readReceipts this w) = Return (older ++ recent) ∧
    ((1 ≤ count)%Z → (Z.of_nat (length recent) ≤ count)%Z).
Proof.
  rewrite getRecentReceipts_shape, readReceipts_shape.
  destruct (read_with_suffix (receiptsFile this)
    "[ReceiptsLogger] Failed to read receipts:"
    "[ReceiptsLogger] Failed to read recent receipts:"
    "[ReceiptsLogger] Failed to parse receipt line:"
    (λ lines, Array_slice lines (- count)) w) as (older & recent & E1 & E2 & Hlen).
  { intros l. apply Array_slice_is_drop. }
  exists older, recent. split; [exact E1|]. split; [exact E2|].
  intros Hc. specialize (Hlen (Z.to_nat count)).
  assert (length recent ≤ Z.to_nat count)%nat; [|lia].
  apply Hlen. intros l. rewrite Array_slice_tail by exact Hc.
  unfold last_n. rewrite length_drop. lia.
Qed.

(** ** The constructor *)

(** X5.  Constructing the logger again changes nothing: in the world a
    construction leaves, whatever faults the platform holds ready, a second
    construction returns the same two paths and leaves the world as it
    is. *)
Theorem X5_constructing_again_changes_nothing (w w1 : World) (this : t) :
  constructor w = (Return this, w1) → constructor w1 = (Return this, w1).
Proof.
  unfold constructor, bind at 1, process_cwd, bind at 1, fs_existsSync.
  destruct (bool_decide (is_Some (files w !! path_join (cwd w) "storage"))
            || bool_decide (path_join (cwd w) "storage" ∈ dirs w)) eqn:Ex; cbn [negb].
  - unfold bind at 1, ret at 1, bind at 1, ret at 1. intros H. injection H as <- <-.
    unfold bind at 1, bind at 1. rewrite Ex. reflexivity.
  - unfold bind at 1, fs_mkdirSync, bind at 1, next_fault.
    destruct (faults w) as [|[[msg|msg n]|] rest]; try discriminate;
      unfold bind at 1, ret at 1; intros H; injection H as <- <-;
      unfold bind at 1, bind at 1; cbn [cwd files dirs set_dirs set_faults];
      rewrite (bool_decide_eq_true_2 (path_join (cwd w) "storage" ∈ _))
        by (apply elem_of_union_l, elem_of_singleton; reflexivity);
      rewrite orb_true_r; reflexivity.
Qed.

(** The process of the scenario: the first construction makes the storage
    directory, the second finds it. *)
Lemma X5_witness : constructor fresh = (Return logger, fresh).
Proof. exact (X5_constructing_again_changes_nothing boot fresh logger constructor_boot). Defined.

(** X6.  The constructor has no handler.  When nothing stands at the
    storage path and [mkdirSync] throws, the constructor throws that same
    error; and whenever the constructor throws, it has printed nothing,
    created no directory and written no file. *)
Theorem X6_constructor_lets_a_mkdir_fault_escape (w : World) :
  (∀ f rest,
     files w !! storageDir w = None → storageDir w ∉ dirs w → faults w = Some f :: rest →
     constructor w = (Throw (mkError (fault_message f)), set_faults rest w)) ∧
  (∀ e w',
     constructor w = (Throw e, w') →
     files w' = files w ∧ dirs w' = dirs w ∧ console w' = console w).
Proof.
  split.
  - unfold storageDir. intros f rest Hf Hd Hfa.
    unfold constructor, bind at 1, process_cwd, bind at 1, fs_existsSync. rewrite Hf.
    rewrite bool_decide_eq_false_2 by (intros [? ?]; discriminate).
    rewrite (bool_decide_eq_false_2 _ Hd). cbn [orb negb].
    unfold bind at 1, fs_mkdirSync, bind at 1, next_fault. rewrite Hfa.
    destruct f; reflexivity.
  - intros e w'.
    unfold constructor, bind at 1, process_cwd, bind at 1, fs_existsSync.
    destruct (bool_decide (is_Some (files w !! path_join (cwd w) "storage"))
              || bool_decide (path_join (cwd w) "storage" ∈ dirs w)); cbn [negb];
      [discriminate|].
    unfold bind at 1, fs_mkdirSync, bind at 1, next_fault.
    destruct (faults w) as [|[[msg|msg n]|] rest]; try discriminate;
      unfold throw; intros H; injection H as <- <-; auto.
Qed.

(** The start of the scenario's process, when the platform refuses to make
    the storage directory. *)
Lemma X6_witness :
  constructor (set_faults [Some (Fails "EACCES")] boot) = (Throw (mkError "EACCES"), boot).
Proof.
  destruct (X6_constructor_lets_a_mkdir_fault_escape (set_faults [Some (Fails "EACCES")] boot))
    as [H _].
  apply (H (Fails "EACCES") []).
  - vm_compute. reflexivity.
  - vm_compute. discriminate.
  - reflexivity.
Defined.

(** X7.  From the start of a process: when the platform raises no fault, no
    regular file stands at the storage path, no directory at the path of the
    receipts file, and that file is absent or empty, then making the
    singleton [receiptsLogger], logging the valid receipts [rs] and reading
    returns exactly the objects of [rs], in order. *)
Theorem X7_a_new_process_reads_back_what_it_logs (w : World) (rs : list Receipt.t) :
  faults w = [] →
  files w !! storageDir w = None →
  let file := path_join (storageDir w) "receipts.jsonl" in
  file ∉ dirs w → file_text w file = "" →
  Forall valid_receipt rs →
  fst ((this <- receiptsLogger ;; logReceipts this rs ;; readReceipts this) w)
  = Return (List.map Receipt.toJS rs).
Proof.
  intros Hf Hfree file Hd Hempty Hvalid.
  destruct (constructor_runs w Hf) as (this & w1 & Hc & Hf1 & _).
  destruct (constructor_returns _ _ _ Hc) as (Er & _ & Hfiles & _).
  pose proof (constructor_opens_file _ _ _ "receipts.jsonl" Hc Hfree eq_refl Hd) as Hopen.
  fold file in Er, Hopen. rewrite <- Er in Hopen.
  unfold receiptsLogger, bind at 1. rewrite Hc.
  destruct (logReceipts_ok this rs w1 Hopen Hf1) as (w2 & E & Ht & Hf2 & _).
  unfold bind. rewrite E, readReceipts_shape.
  rewrite (read_holding this w2 rs); [| | unfold pending; rewrite Hf2; reflexivity | reflexivity].
  - rewrite values_of_receipts by exact Hvalid. reflexivity.
  - unfold holds_receipts. rewrite Ht. unfold file_text. rewrite Hfiles, Er.
    fold (file_text w file). rewrite Hempty. reflexivity.
Qed.

(** The scenario's three receipts, from the start of the process. *)
Lemma X7_witness :
  fst ((this <- receiptsLogger ;; logReceipts this [first; second; full] ;;
        readReceipts this) boot)
  = Return (List.map Receipt.toJS [first; second; full]).
Proof.
  apply (X7_a_new_process_reads_back_what_it_logs boot [first; second; full]).
  - reflexivity.
  - vm_compute. reflexivity.
  - vm_compute. discriminate.
  - vm_compute. reflexivity.
  - exact valid_scenario.
Defined.

(** X8.  [existsSync] does not tell a directory from a file.  When a regular
    file has the name of the storage directory, the constructor returns
    without creating anything; from then on, as long as the directories
    stay as they are, every [logReceipt] and [logError] returns normally,
    writes nothing and prints one diagnostic. *)
Theorem X8_a_file_at_the_storage_path_loses_every_record
    (w : World) (text : string) (r : Receipt.t) (e : ErrorLog.t) :
  files w !! storageDir w = Some text → storageDir w ∉ dirs w →
  ∃ this,
    constructor w = (Return this, w) ∧
    ∀ w1, dirs w1 = dirs w →
      (∃ msg, logReceipt this r w1 =
         (Return tt,
          set_console (console w1 ++ [["[ReceiptsLogger] Failed to log receipt:"; msg]])
            (set_faults (tail (faults w1)) w1))) ∧
      (∃ msg, logError this e w1 =
         (Return tt,
          set_console (console w1 ++ [["[ReceiptsLogger] Failed to log error:"; msg]])
            (set_faults (tail (faults w1)) w1))).
Proof.
  intros Hfile Hdir.
  assert (Hc : ∃ this, constructor w = (Return this, w)).
  { unfold constructor, bind at 1, process_cwd, bind at 1, fs_existsSync.
    unfold storageDir in Hfile. rewrite Hfile.
    rewrite bool_decide_eq_true_2 by eauto. cbn [orb negb]. eexists. reflexivity. }
  destruct Hc as [this Hc]. exists this. split; [exact Hc|].
  destruct (constructor_paths _ _ _ Hc) as (_ & Dr & De).
  intros w1 Hdirs.
  assert (Hclosed : ∀ p, dirname p = storageDir w → ∃ reason, open_error (dirs w1) p = Some reason).
  { intros p Hp. unfold open_error. rewrite Hdirs, Hp.
    destruct (bool_decide (p ∈ dirs w)); [eauto|].
    rewrite (bool_decide_eq_false_2 _ Hdir). eauto. }
  destruct (Hclosed _ Dr) as [reason1 H1]. destruct (Hclosed _ De) as [reason2 H2].
  rewrite logReceipt_shape, logError_shape.
  split; eapply append_with_closed; eassumption.
Qed.

(** A regular file named [/app/storage]: the constructor returns, and the
    first receipt is lost. *)
Lemma X8_witness :
  constructor blocked = (Return logger, blocked) ∧
  ∃ msg, logReceipt logger first blocked =
         (Return tt, set_console [["[ReceiptsLogger] Failed to log receipt:"; msg]] blocked).
Proof.
  destruct (X8_a_file_at_the_storage_path_loses_every_record blocked "not a directory"
              first failure) as (this & Hc & Hlost).
  - vm_compute. reflexivity.
  - vm_compute. discriminate.
  - assert (Hthis : this = logger).
    { assert (E : constructor blocked = (Return logger, blocked)) by (vm_compute; reflexivity).
      rewrite E in Hc. injection Hc as <-. reflexivity. }
    subst this. split; [exact Hc|].
    destruct (Hlost blocked eq_refl) as [[msg Hr] _]. exists msg. exact Hr.
Defined.

(** ** Appends and reads *)

(** X9.  Silence means success.  In every world, when [logReceipt] (or
    [logError]) returns having printed nothing, the file holds its previous
    text followed by the whole line of the record and the line feed. *)
Theorem X9_an_append_without_diagnostic_is_complete
    (this : t) (r : Receipt.t) (e : ErrorLog.t) (w : World) :
  (console (snd (logReceipt this r w)) = console w →
   file_text (snd (logReceipt this r w)) (receiptsFile this)
   = file_text w (receiptsFile this) +:+ receipt_line r +:+ NL) ∧
  (console (snd (logError this e w)) = console w →
   file_text (snd (logError this e w)) (errorsFile this)
   = file_text w (errorsFile this) +:+ error_line e +:+ NL).
Proof.
  rewrite logReceipt_shape, logError_shape. split; apply append_with_silent.
Qed.

(** X10.  Empty lines are skipped without a trace.  For all texts [a] and
    [b], a file that holds [a], two line feeds and [b] reads as the file
    that holds [a], one line feed and [b]: each of the three reads returns
    the same values and prints the same diagnostics, whatever the platform
    does. *)
Theorem X10_empty_lines_change_no_read (this : t) (w : World) (a b : string) (count : Z) :
  let doubled := a +:+ NL +:+ NL +:+ b in
  let single := a +:+ NL +:+ b in
  same_outcome (readReceipts this (with_text (receiptsFile this) doubled w))
               (readReceipts this (with_text (receiptsFile this) single w)) ∧
  same_outcome (getRecentReceipts this count (with_text (receiptsFile this) doubled w))
               (getRecentReceipts this count (with_text (receiptsFile this) single w)) ∧
  same_outcome (readErrors this (with_text (errorsFile this) doubled w))
               (readErrors this (with_text (errorsFile this) single w)).
Proof.
  intros doubled single.
  rewrite !readReceipts_shape, !getRecentReceipts_shape, !readErrors_shape.
  split; [|split]; apply read_with_same_lines, lines_of_blank_line.
Qed.

(** * The properties of the recommendations *)

Section Recommendations.
Import Number SystemSpecs Advice Advice_facts.

(** X11.  Binary rounding never shifts a recommendation.  For a machine of
    [n] processors, [n] up to [most_processors], the three worker thread
    counts of [calculateRecommendations], computed in binary64 with the
    factors 0.85, 0.8, 0.75, 0.67, 0.7, 0.65 and 0.5, are the Numbers of the
    same formulas in exact integer arithmetic. *)
Theorem X11_worker_threads_are_exact_percentages (s : Specs) (n : Z) :
  0 ≤ n ≤ most_processors → cpuCount s = of_Z n →
  let r := workerThreads (calculateRecommendations s) in
  max r = of_Z (exact_max n) ∧
  optimal r = of_Z (exact_optimal n) ∧
  conservative r = of_Z (exact_conservative n).
Proof.
  intros Hn Hs r. destruct (workers_by_count s n Hs) as (Eo & Ec & Em).
  unfold r. rewrite Eo, Ec, Em.
  assert (H : exact_at n = true).
  { apply (all_from_spec _ _ _ exact_everywhere). unfold most_processors in *. lia. }
  unfold exact_at in H.
  apply andb_true_iff in H as [H Hc]. apply andb_true_iff in H as [Hm Ho].
  split; [|split]; apply same_number_eq; assumption.
Qed.

(** 24 processors: 20, 16 and 12 worker threads. *)
Lemma X11_witness :
  let r := workerThreads (calculateRecommendations server) in
  max r = 20%float ∧ optimal r = 16%float ∧ conservative r = 12%float.
Proof.
  destruct (X11_worker_threads_are_exact_percentages server 24) as (Hm & Ho & Hc).
  - unfold most_processors. lia.
  - vm_compute. reflexivity.
  - cbv zeta. rewrite Hm, Ho, Hc. vm_compute. auto.
Defined.

(** X12.  For a machine of [n] processors, [n] up to [most_processors], the
    three worker thread counts are integers with
    [1 <= conservative <= optimal <= max] and [4 <= max <= 20]; [max]
    exceeds the number of processors exactly when there are fewer than
    four, and [optimal] exactly when there is none. *)
Theorem X12_worker_threads_are_ordered_and_capped (s : Specs) (n : Z) :
  0 ≤ n ≤ most_processors → cpuCount s = of_Z n →
  let r := workerThreads (calculateRecommendations s) in
  ∃ c o m : Z,
    conservative r = of_Z c ∧ optimal r = of_Z o ∧ max r = of_Z m ∧
    1 ≤ c ∧ c ≤ o ∧ o ≤ m ∧ 4 ≤ m ∧ m ≤ 20 ∧
    (n < m ↔ n < 4) ∧ (n < o ↔ n = 0).
Proof.
  intros Hn Hs r. destruct (workers_exact s n Hn Hs) as (Em & Eo & Ec).
  exists (exact_conservative n), (exact_optimal n), (exact_max n).
  destruct (exact_bounds n) as (? & ? & ? & ? & ?); [lia|].
  destruct (exact_against_count n) as (? & ?); [lia|].
  repeat split; try assumption; tauto.
Qed.

(** Two processors: up to four worker threads are recommended. *)
Lemma X12_witness :
  let r := workerThreads (calculateRecommendations small) in
  ∃ c o m : Z,
    conservative r = of_Z c ∧ optimal r = of_Z o ∧ max r = of_Z m ∧
    1 ≤ c ∧ c ≤ o ∧ o ≤ m ∧ 4 ≤ m ∧ m ≤ 20 ∧
    (2 < m ↔ 2 < 4) ∧ (2 < o ↔ 2 = 0).
Proof.
  apply (X12_worker_threads_are_ordered_and_capped small 2).
  - unfold most_processors. lia.
  - vm_compute. reflexivity.
Defined.

(** X13.  More processors never lower a recommendation: for
    [n1 <= n2 <= most_processors], each of the three worker thread counts
    for [n1] processors is at most the one for [n2]. *)
Theorem X13_more_processors_never_lower_the_advice (s1 s2 : Specs) (n1 n2 : Z) :
  0 ≤ n1 → n1 ≤ n2 → n2 ≤ most_processors →
  cpuCount s1 = of_Z n1 → cpuCount s2 = of_Z n2 →
  let r1 := workerThreads (calculateRecommendations s1) in
  let r2 := workerThreads (calculateRecommendations s2) in
  ∃ c1 o1 m1 c2 o2 m2 : Z,
    (conservative r1 = of_Z c1 ∧ optimal r1 = of_Z o1 ∧ max r1 = of_Z m1) ∧
    (conservative r2 = of_Z c2 ∧ optimal r2 = of_Z o2 ∧ max r2 = of_Z m2) ∧
    (1 ≤ c1 ∧ c1 ≤ c2 ∧ c2 ≤ 20) ∧ (1 ≤ o1 ∧ o1 ≤ o2 ∧ o2 ≤ 20) ∧
    (1 ≤ m1 ∧ m1 ≤ m2 ∧ m2 ≤ 20).
Proof.
  intros H0 H12 H2 Hs1 Hs2 r1 r2.
  destruct (workers_exact s1 n1 ltac:(lia) Hs1) as (Em1 & Eo1 & Ec1).
  destruct (workers_exact s2 n2 ltac:(lia) Hs2) as (Em2 & Eo2 & Ec2).
  exists (exact_conservative n1), (exact_optimal n1), (exact_max n1),
         (exact_conservative n2), (exact_optimal n2), (exact_max n2).
  destruct (exact_bounds n1) as (? & ? & ? & ? & ?); [lia|].
  destruct (exact_bounds n2) as (? & ? & ? & ? & ?); [lia|].
  destruct (exact_monotone n1 n2) as (? & ? & ?); [lia|].
  repeat split; try assumption; lia.
Qed.

(** From 8 processors to 24. *)
Lemma X13_witness :
  let r1 := workerThreads (calculateRecommendations laptop) in
  let r2 := workerThreads (calculateRecommendations server) in
  ∃ c1 o1 m1 c2 o2 m2 : Z,
    (conservative r1 = of_Z c1 ∧ optimal r1 = of_Z o1 ∧ max r1 = of_Z m1) ∧
    (conservative r2 = of_Z c2 ∧ optimal r2 = of_Z o2 ∧ max r2 = of_Z m2) ∧
    (1 ≤ c1 ∧ c1 ≤ c2 ∧ c2 ≤ 20) ∧ (1 ≤ o1 ∧ o1 ≤ o2 ∧ o2 ≤ 20) ∧
    (1 ≤ m1 ∧ m1 ≤ m2 ∧ m2 ≤ 20).
Proof.
  apply (X13_more_processors_never_lower_the_advice laptop server 8 24).
  - lia.
  - lia.
  - unfold most_processors. lia.
  - vm_compute. reflexivity.
  - vm_compute. reflexivity.
Defined.

(** X14.  For a machine of [n] processors, [n] up to [most_processors], the
    hint about many cores is among the warnings exactly when [n >= 19]. *)
Theorem X14_many_cores_hint_from_19_processors (s : Specs) (n : Z) :
  0 ≤ n ≤ most_processors → cpuCount s = of_Z n →
  MANY_CORES ∈ warnings (calculateRecommendations s) ↔ 19 ≤ n.
Proof.
  intros Hn Hs. rewrite warnings_of, many_cores_warned.
  destruct (workers_exact s n Hn Hs) as (_ & Eo & _). rewrite Eo.
  destruct (exact_bounds n) as (? & ? & ? & ? & ?); [lia|].
  rewrite over_12 by lia. rewrite <- exact_optimal_over_12 by lia.
  apply Z.ltb_lt.
Qed.

(** 24 processors get the hint. *)
Lemma X14_witness : MANY_CORES ∈ warnings (calculateRecommendations server).
Proof.
  apply (X14_many_cores_hint_from_19_processors server 24).
  - unfold most_processors. lia.
  - vm_compute. reflexivity.
  - lia.
Defined.

(** X15.  For every argument, NaN included: the batch sizes are those the
    code gives under the heading of one tier, which is the system tier or a
    lower one, and is the system tier exactly when the clock speed reaches
    what that tier asks for (2500 MHz high-end, 2000 MHz mid-range, nothing
    for the other two); and [conservative < optimal < max]. *)
Theorem X15_batch_sizes_follow_the_tier_at_its_clock (s : Specs) :
  let r := calculateRecommendations s in
  let b := batchSize r in
  ∃ t,
    (optimal b, conservative b, max b) = tier_batch t ∧
    (tier_rank t ≤ tier_rank (systemTier r))%nat ∧
    (t = systemTier r ↔ reaches_clock (systemTier r) (cpuSpeed s) = true) ∧
    (conservative b <? optimal b)%float = true ∧ (optimal b <? max b)%float = true.
Proof.
  intros r b. unfold b, r. rewrite systemTier_of.
  unfold calculateRecommendations, reaches_clock.
  generalize (12 <=? cpuCount s)%float (8 <=? cpuCount s)%float (4 <=? cpuCount s)%float
    (16 <=? totalMemoryGB s)%float (8 <=? totalMemoryGB s)%float (4 <=? totalMemoryGB s)%float
    (2500 <=? cpuSpeed s)%float (2000 <=? cpuSpeed s)%float.
  intros c12 c8 c4 m16 m8 m4 s2500 s2000.
  destruct c12, m16, s2500; cbn [andb batchSize optimal conservative max];
    try (exists high_end; repeat split; reflexivity);
    destruct c8, m8, s2000; cbn [andb batchSize optimal conservative max];
    try (exists mid_range; repeat split; (reflexivity || discriminate || (cbn; lia)));
    destruct c4, m4; cbn [andb batchSize optimal conservative max];
    first [ exists entry_level; repeat split; (reflexivity || discriminate || (cbn; lia))
          | exists low_end; repeat split; (reflexivity || discriminate || (cbn; lia)) ].
Qed.

(** X16.  The warnings agree with the tier.  When the number of processors
    and the memory are Numbers other than NaN: the tier is low-end exactly
    when the warning about low memory or the one about limited cores is
    given; and the note about a high-performance system is given only to a
    high-end system, with neither of those two warnings. *)
Theorem X16_warnings_agree_with_the_tier (s : Specs) :
  PrimFloat.is_nan (cpuCount s) = false → PrimFloat.is_nan (totalMemoryGB s) = false →
  let r := calculateRecommendations s in
  (systemTier r = low_end ↔ LOW_MEMORY ∈ warnings r ∨ LIMITED_CORES ∈ warnings r) ∧
  (HIGH_PERFORMANCE ∈ warnings r →
     systemTier r = high_end ∧ (LOW_MEMORY ∉ warnings r) ∧ (LIMITED_CORES ∉ warnings r)).
Proof.
  intros Hc Hm r. unfold r.
  rewrite warnings_of, low_memory_warned, limited_cores_warned, high_performance_warned,
    systemTier_of.
  pose proof (not_leb_ltb (cpuCount s) 4 Hc eq_refl) as Lc.
  pose proof (not_leb_ltb (totalMemoryGB s) 4 Hm eq_refl) as Lm.
  pose proof (ltb_not_leb 4 4 (cpuCount s) eq_refl) as Bc4.
  pose proof (ltb_not_leb 4 8 (cpuCount s) eq_refl) as Bc8.
  pose proof (ltb_not_leb 4 12 (cpuCount s) eq_refl) as Bc12.
  pose proof (ltb_not_leb 4 4 (totalMemoryGB s) eq_refl) as Bm4.
  pose proof (ltb_not_leb 4 8 (totalMemoryGB s) eq_refl) as Bm8.
  pose proof (ltb_not_leb 4 16 (totalMemoryGB s) eq_refl) as Bm16.
  pose proof (leb_trans 12 16 (cpuCount s) eq_refl) as Tc.
  pose proof (leb_trans 16 32 (totalMemoryGB s) eq_refl) as Tm.
  pose proof (leb_trans 4 16 (cpuCount s) eq_refl) as Tc4.
  pose proof (leb_trans 4 32 (totalMemoryGB s) eq_refl) as Tm4.
  destruct (cpuCount s <? 4)%float, (totalMemoryGB s <? 4)%float,
    (4 <=? cpuCount s)%float, (4 <=? totalMemoryGB s)%float,
    (8 <=? cpuCount s)%float, (8 <=? totalMemoryGB s)%float,
    (12 <=? cpuCount s)%float, (16 <=? totalMemoryGB s)%float,
    (16 <=? cpuCount s)%float, (32 <=? totalMemoryGB s)%float; cbn [andb];
    intuition (discriminate || congruence).
Qed.

(** Two processors and 2 GB: low-end, with both warnings. *)
Lemma X16_witness :
  systemTier (calculateRecommendations small) = low_end ∧
  LOW_MEMORY ∈ warnings (calculateRecommendations small).
Proof.
  destruct (X16_warnings_agree_with_the_tier small) as [[_ Hlow] _].
  - vm_compute. reflexivity.
  - vm_compute. reflexivity.
  - split.
    + apply Hlow. left. vm_compute. apply list_elem_of_here.
    + vm_compute. apply list_elem_of_here.
Defined.

End Recommendations.
